(** * XMLON: an XML rendering of JavaScript values

    A shallow embedding of [src/index.js] (the functions [Parse] and
    [Stringify] with their local helpers [revive], [clone], [getTagname]
    and [stringifyValue]) together with the properties of the encoding.

    Conventions of the embedding:
    - a JavaScript value is a term of [value]; an object is the list of its
      own enumerable properties in enumeration order, an array the list of
      its elements, a hole of a sparse array reads as [VUndefined];
    - the objects that [Parse] builds and mutates through its [current]
      pointer live in an explicit store ([heap]); a container is named by
      its address, so that aliasing between [obj], [current] and the
      [parentObject] fields of the open nodes is the source's;
    - exceptions are the [Throw] outcome; the calls of a user callback and
      the lines written to the console are recorded, in order, in the list
      of effects that every effectful function returns with its outcome;
    - the recursion of [clone] and [revive] follows the value returned by
      the callback, which need not be smaller than the argument: both take
      a [fuel] bound and answer [OutOfFuel] when it is exhausted;
    - the embedding follows the properties that plain objects and arrays
      have of their own, under ordinary names, listed in the order of
      their creation. JavaScript departs from this in four places, which
      the statements about property names leave out by hypothesis
      ([ordinary], [object_name], [array_name], [inherited_name],
      [enumeration_order]): [o['__proto__'] = v] sets the prototype of [o]
      and creates no property; [a['length'] = v] resizes the array [a] or
      raises a RangeError; a name that [Object.prototype] provides reads
      as the inherited value on an object without a property of that
      name; and the names that are array indexes are enumerated first, by
      rising index, wherever they were created. *)

From Stdlib Require Import String Ascii List ZArith NArith Lia.
From Stdlib Require Import DecimalString DecimalN DecimalZ DecimalPos.
From stdpp Require Import base tactics option list strings.

Set Warnings "-register-all".
Open Scope string_scope.
Open Scope list_scope.
Open Scope nat_scope.

(** ** Exceptions, the writer and the parser

    The XML writer and the SAX parser are external packages. The state of
    a writer is the indentation string it was constructed with and the
    calls made on it so far; the text it finally prints is determined by
    the two. The parser reads a text and calls the handlers in document
    order: a run of the parser on a text is the list of events it delivers
    and the exception, if any, with which its own [write] or [close] ends
    once the events are delivered. *)

Inductive exn :=
| TypeError (what : string)
| RangeError (what : string)
| SaxError (message : string)
| UserError (tag : string).

Inductive wcall :=
| StartDocument (version encoding : string) (standalone : bool)
| StartElement (name : string)
| WriteAttribute (name content : string)
| WriteText (content : string)
| EndElement
| EndDocument.

Record XMLWriter := { indent : option string; calls : list wcall }.

Inductive sax_event :=
| OpenTag (name : string) (attributes : list (string * string)) (isSelfClosing : bool)
| Text (t : string)
| CloseTag (tagname : string)
| Error (e : exn).

Record sax_run := { events : list sax_event; failure : option exn }.

(** ** What the embedding takes from outside *)

(** Numbers and dates are kept abstract: the program only converts them
    from and to text. [toISOString] answers [None] where the runtime raises
    a RangeError (an invalid date). The run of the parser on a text that
    is not well formed (the writer prints its indentation string as it
    is, markup included) is kept abstract as well: [sax_malformed]. *)
Class Primitives := {
  number : Type;
  date : Type;
  parseFloat : string → number;
  number_toString : number → string;
  Date_parse : string → date;
  toISOString : date → option string;
  sax_malformed : XMLWriter → sax_run;
}.

(** Decimal text of an array index, as [n + ''] gives it. *)
Definition string_of_nat (n : nat) : string :=
  NilEmpty.string_of_uint (N.to_uint (N.of_nat n)).

(** The array index a property name denotes, if any: the canonical decimal
    text of an integer below 2^32 - 1. *)
Definition array_index (s : string) : option nat :=
  match NilEmpty.uint_of_string s with
  | Some d =>
      let n := N.of_uint d in
      if String.eqb (NilEmpty.string_of_uint (N.to_uint n)) s && (n <? 4294967295)%N
      then Some (N.to_nat n) else None
  | None => None
  end.

(** ** Values, keys, outcomes *)


Inductive outcome (A : Type) :=
| Return (a : A)
| Throw (e : exn)
| OutOfFuel.
Arguments Return {A} a.
Arguments Throw {A} e.
Arguments OutOfFuel {A}.

(** The first argument of a reviver or replacer: the loop counter for an
    array, the property name for an object. *)
Inductive key :=
| KIdx (n : nat)
| KStr (s : string).

Definition key_text (k : key) : string :=
  match k with
  | KIdx n => string_of_nat n
  | KStr s => s
  end.

(** Strict equality of two keys, as [Array.prototype.indexOf] compares. *)
Definition key_eqb (a b : key) : bool :=
  match a, b with
  | KIdx n, KIdx m => Nat.eqb n m
  | KStr s, KStr t => String.eqb s t
  | _, _ => false
  end.

Section Xmlon.
Context `{Primitives}.

Inductive value :=
| VUndefined
| VNull
| VBool (b : bool)
| VNumber (n : number)
| VString (s : string)
| VDate (d : date)
| VFunction (f : nat)
| VArray (items : list value)
| VObject (props : list (string * value)).

Inductive effect :=
| Console (e : exn)
| Invoke (k : key) (v : value).

Definition traced (A : Type) : Type := outcome A * list effect.

Definition ret {A} (a : A) : traced A := (Return a, []).

Definition bind {A B} (m : traced A) (f : A → traced B) : traced B :=
  match m with
  | (Return a, t) => let '(r, t') := f a in (r, t ++ t')
  | (Throw e, t) => (Throw e, t)
  | (OutOfFuel, t) => (OutOfFuel, t)
  end.

Definition lift {A} (o : outcome A) : traced A := (o, []).

Definition callback : Type := key → value → outcome value.

Definition call (f : callback) (k : key) (v : value) : traced value :=
  (f k v, [Invoke k v]).

Definition typeof (v : value) : string :=
  match v with
  | VUndefined => "undefined"
  | VBool _ => "boolean"
  | VNumber _ => "number"
  | VString _ => "string"
  | VFunction _ => "function"
  | VNull | VDate _ | VArray _ | VObject _ => "object"
  end.

Definition is_undefined (v : value) : bool :=
  match v with VUndefined => true | _ => false end.

Definition is_function (v : value) : bool :=
  match v with VFunction _ => true | _ => false end.

(** [o[key] = v] on a list of properties: an existing property keeps its
    place, a new one is enumerated last. This is the assignment of
    JavaScript for every [key] but [__proto__], and the order of its
    enumeration when the keys are created in [enumeration_order]. *)
Fixpoint set_prop {A} (props : list (string * A)) (key : string) (v : A)
  : list (string * A) :=
  match props with
  | [] => [(key, v)]
  | (k, x) :: rest =>
      if String.eqb k key then (k, v) :: rest else (k, x) :: set_prop rest key v
  end.

Fixpoint get_prop {A} (props : list (string * A)) (key : string) : option A :=
  match props with
  | [] => None
  | (k, x) :: rest => if String.eqb k key then Some x else get_prop rest key
  end.

(** ** The tree walk of [revive] and [clone]

    Both functions run the same two loops; [walk] is the recursive call
    ([revive] or [clone] itself) and [f] the reviver or replacer. *)

(** [for (let n = 0; n < value.length; n++) { let element = f(n, value[n]);
     if (element !== undefined) result.push(walk(element)); }] *)
Fixpoint for_index (walk : value → traced value) (f : callback)
    (n : nat) (items : list value) (result : list value) : traced (list value) :=
  match items with
  | [] => ret result
  | x :: rest =>
      bind (call f (KIdx n) x) (fun element =>
        if is_undefined element then for_index walk f (S n) rest result
        else bind (walk element) (fun c =>
               for_index walk f (S n) rest (result ++ [c])))
  end.

(** [for (let key in value) { let element = f(key, value[key]);
     if (element !== undefined) result[key] = walk(element); }] *)
Fixpoint for_in (walk : value → traced value) (f : callback)
    (props : list (string * value)) (result : list (string * value))
  : traced (list (string * value)) :=
  match props with
  | [] => ret result
  | (key, x) :: rest =>
      bind (call f (KStr key) x) (fun element =>
        if is_undefined element then for_in walk f rest result
        else bind (walk element) (fun c =>
               for_in walk f rest (set_prop result key c)))
  end.

(** [revive] of [Parse] (lines 90-115). [null] passes the test
    [typeof value === 'object'] and has no key to enumerate: it comes out
    as an empty object. *)
Fixpoint revive (fuel : nat) (reviver : callback) (v : value) : traced value :=
  match fuel with
  | 0 => (OutOfFuel, [])
  | S fuel =>
      match v with
      | VDate _ => ret v
      | VArray items =>
          bind (for_index (revive fuel reviver) reviver 0 items [])
               (fun result => ret (VArray result))
      | VObject props =>
          bind (for_in (revive fuel reviver) reviver props [])
               (fun result => ret (VObject result))
      | VNull => ret (VObject [])
      | _ => ret v
      end
  end.

(** [clone] of [Stringify] (lines 165-189). *)
Fixpoint clone (fuel : nat) (replacer : callback) (source : value) : traced value :=
  match fuel with
  | 0 => (OutOfFuel, [])
  | S fuel =>
      match source with
      | VDate _ => ret source
      | VArray items =>
          bind (for_index (clone fuel replacer) replacer 0 items [])
               (fun result => ret (VArray result))
      | VObject props =>
          bind (for_in (clone fuel replacer) replacer props [])
               (fun result => ret (VObject result))
      | VNull => ret (VObject [])
      | _ => ret source
      end
  end.

(** ** The writer that [Stringify] drives *)



Definition emit (writer : XMLWriter) (c : wcall) : XMLWriter :=
  {| indent := indent writer; calls := calls writer ++ [c] |}.

(** [getTagname] (lines 195-199). *)
Definition getTagname (v : value) : string :=
  match v with
  | VDate _ => "date"
  | VArray _ => "array"
  | _ => typeof v
  end.

(** The two loops of [stringifyValue]; [write] is the recursive call.
    [for (let n = 0; n < value.length; n++) { if (typeof value[n] ===
    'function') continue; writer.startElement(getTagname(value[n]));
    writer.writeAttribute('name', n); stringifyValue(value[n]);
    writer.endElement(); }], and the same over the keys of an object. *)
Section Loops.
Variable write : value → XMLWriter → outcome XMLWriter.

Fixpoint write_elements (n : nat) (items : list value) (writer : XMLWriter)
  : outcome XMLWriter :=
  match items with
  | [] => Return writer
  | x :: rest =>
      if is_function x then write_elements (S n) rest writer
      else
        match write x (emit (emit writer (StartElement (getTagname x)))
                            (WriteAttribute "name" (string_of_nat n))) with
        | Return writer => write_elements (S n) rest (emit writer EndElement)
        | Throw e => Throw e
        | OutOfFuel => OutOfFuel
        end
  end.

Fixpoint write_properties (props : list (string * value)) (writer : XMLWriter)
  : outcome XMLWriter :=
  match props with
  | [] => Return writer
  | kx :: rest =>
      if is_function (snd kx) then write_properties rest writer
      else
        match write (snd kx) (emit (emit writer (StartElement (getTagname (snd kx))))
                                   (WriteAttribute "name" (fst kx))) with
        | Return writer => write_properties rest (emit writer EndElement)
        | Throw e => Throw e
        | OutOfFuel => OutOfFuel
        end
  end.

End Loops.

(** [stringifyValue] (lines 201-225). [value.toString()] on [undefined]
    raises a TypeError, [toISOString] on an invalid date a RangeError; for
    [null] the branch [typeof value === 'object'] runs a [for-in] loop with
    nothing to enumerate. *)
Fixpoint stringifyValue (v : value) (writer : XMLWriter) : outcome XMLWriter :=
  match v with
  | VDate d =>
      match toISOString d with
      | Some iso => Return (emit writer (WriteText iso))
      | None => Throw (RangeError "Invalid time value")
      end
  | VArray items => write_elements stringifyValue 0 items writer
  | VObject props => write_properties stringifyValue props writer
  | VNull => Return writer
  | VFunction _ => Return writer
  | VUndefined => Throw (TypeError "Cannot read properties of undefined (reading 'toString')")
  | VBool b => Return (emit writer (WriteText (if b then "true" else "false")))
  | VNumber n => Return (emit writer (WriteText (number_toString n)))
  | VString s => Return (emit writer (WriteText s))
  end.

(** The third argument of [Stringify]: absent, a number (an integer count)
    or a string. *)
Inductive space_arg :=
| SpaceUndefined
| SpaceNumber (n : Z)
| SpaceString (s : string).

(** The second argument of [Stringify]: absent, an array of keys (strings
    and integer numbers; no other entry can equal a key) or a function. *)
Inductive replacer_arg :=
| ReplacerUndefined
| ReplacerArray (keys : list key)
| ReplacerFunction (f : callback).

Fixpoint repeat_string (s : string) (n : nat) : string :=
  match n with
  | 0 => ""
  | S n => String.append s (repeat_string s n)
  end.

(** [' '.repeat(count)]: a negative count raises a RangeError. *)
Definition String_repeat (s : string) (count : Z) : outcome string :=
  if (count <? 0)%Z then Throw (RangeError "Invalid count value")
  else Return (repeat_string s (Z.to_nat count)).

(** Lines 147-149: a numeric [space] becomes that many blanks; a string is
    passed on as it is. *)
Definition space_string (space : space_arg) : outcome (option string) :=
  match space with
  | SpaceNumber n =>
      match String_repeat " " n with
      | Return s => Return (Some s)
      | Throw e => Throw e
      | OutOfFuel => OutOfFuel
      end
  | SpaceString s => Return (Some s)
  | SpaceUndefined => Return None
  end.

(** Lines 151-163: the function that [clone] calls as [replacer]. *)
Definition replacer_function (replacer : replacer_arg) : callback :=
  match replacer with
  | ReplacerArray keys =>
      fun key value =>
        if existsb (key_eqb key) keys then Return value else Return VUndefined
  | ReplacerFunction f => f
  | ReplacerUndefined => fun key value => Return value
  end.

(** [Stringify] (lines 146-233). The result is the writer on which
    [toString] is called. *)
Definition Stringify (fuel : nat) (v : value) (replacer : replacer_arg)
    (space : space_arg) : traced XMLWriter :=
  bind (lift (space_string space)) (fun space =>
  let replacer := replacer_function replacer in
  bind (clone fuel replacer v) (fun value =>
  let writer := {| indent := space; calls := [] |} in
  let writer := emit (emit writer (StartDocument "1.0" "UTF-8" true))
                     (StartElement (getTagname value)) in
  bind (lift (stringifyValue value writer)) (fun writer =>
  ret (emit (emit writer EndElement) EndDocument)))).



(** ** The store of [Parse] *)

(** What a property or an element of a container holds: a primitive value
    or the address of another container. *)
Inductive hval :=
| HPrim (v : value)
| HRef (a : nat).

Inductive cell :=
| CObject (props : list (string * hval))
| CArray (elems : list hval) (props : list (string * hval)).

(** [a[i] = v]: writing past the end extends the array, the positions in
    between are holes. *)
Definition set_elem (elems : list hval) (i : nat) (v : hval) : list hval :=
  if decide (i < length elems) then <[i := v]> elems
  else elems ++ replicate (i - length elems) (HPrim VUndefined) ++ [v].

(** [c[key] = v]. On an array a name that is no index is an ordinary
    property, kept beside the elements. This is the assignment of
    JavaScript under the names of [object_name] on an object and of
    [array_name] on an array. *)
Definition store (key : string) (v : hval) (c : cell) : cell :=
  match c with
  | CObject props => CObject (set_prop props key v)
  | CArray elems props =>
      match array_index key with
      | Some i => CArray (set_elem elems i v) props
      | None => CArray elems (set_prop props key v)
      end
  end.

Inductive data_type := basic | array | object | null.

(** A node as the parser hands it to [onopentag], with the two fields the
    handler adds; [parentObject] stays undefined ([None]) unless the
    handler sets it. *)
Record node := {
  name : string;
  attributes : list (string * string);
  isSelfClosing : bool;
  dataType : data_type;
  parentObject : option nat;
}.

(** [node.attributes.name], undefined when the tag has no such attribute. *)
Definition attributes_name (attrs : list (string * string)) : option string :=
  get_prop attrs "name".

(** The property name an expression denotes when used as [o[e]]. *)
Definition property_key (e : option string) : string :=
  match e with
  | Some s => s
  | None => "undefined"
  end.

(** The variables [Parse] closes over: the stack [path] (top first), the
    store in which [obj] is the container at address 0, [current] (an
    address, or undefined) and [rootNode] ([None] is the initial [null]). *)
Record state := {
  path : list node;
  heap : list cell;
  current : option nat;
  rootNode : option (option string);
}.

Definition obj : nat := 0.

Definition initial : state :=
  {| path := []; heap := [CObject []]; current := Some obj; rootNode := None |}.

(** [current[key] = v]. *)
Definition assign (st : state) (key : string) (v : hval) : outcome (list cell) :=
  match current st with
  | Some a => Return (alter (store key v) a (heap st))
  | None => Throw (TypeError "Cannot set properties of undefined")
  end.

(** [parser.onopentag] (lines 26-54). *)
Definition onopentag (st : state) (name : string)
    (attributes : list (string * string)) (isSelfClosing : bool) : outcome state :=
  let rootNode :=
    match rootNode st with
    | None => Some (attributes_name attributes)
    | r => r
    end in
  let key := property_key (attributes_name attributes) in
  let push dt parent :=
    {| name := name; attributes := attributes; isSelfClosing := isSelfClosing;
       dataType := dt; parentObject := parent |} :: path st in
  let descend dt empty :=
    match assign st key (HRef (length (heap st))) with
    | Return h =>
        Return {| path := push dt (current st); heap := h ++ [empty];
                  current := Some (length (heap st)); rootNode := rootNode |}
    | Throw e => Throw e
    | OutOfFuel => OutOfFuel
    end in
  if negb isSelfClosing then
    if String.eqb name "date" || String.eqb name "number"
       || String.eqb name "string" || String.eqb name "boolean"
    then Return {| path := push basic None; heap := heap st;
                   current := current st; rootNode := rootNode |}
    else if String.eqb name "array" then descend array (CArray [] [])
    else descend object (CObject [])
  else
    match assign st key (HPrim VNull) with
    | Return h =>
        Return {| path := push null None; heap := h;
                  current := current st; rootNode := rootNode |}
    | Throw e => Throw e
    | OutOfFuel => OutOfFuel
    end.

(** [parser.ontext] (lines 56-77). *)
Definition ontext (st : state) (t : string) : outcome state :=
  match path st with
  | [] => Return st
  | top :: _ =>
      let value :=
        if String.eqb (name top) "date" then Some (VDate (Date_parse t))
        else if String.eqb (name top) "number" then Some (VNumber (parseFloat t))
        else if String.eqb (name top) "string" then Some (VString t)
        else if String.eqb (name top) "boolean" then Some (VBool (String.eqb t "true"))
        else None in
      match value with
      | Some v =>
          match assign st (property_key (attributes_name (attributes top))) (HPrim v) with
          | Return h =>
              Return {| path := path st; heap := h;
                        current := current st; rootNode := rootNode st |}
          | Throw e => Throw e
          | OutOfFuel => OutOfFuel
          end
      | None => Return st
      end
  end.

(** [parser.onclosetag] (lines 79-84). *)
Definition onclosetag (st : state) (tagname : string) : outcome state :=
  match path st with
  | [] => Throw (TypeError "Cannot read properties of undefined (reading 'dataType')")
  | node :: rest =>
      Return {| path := rest; heap := heap st;
                current := match dataType node with
                           | basic => current st
                           | _ => parentObject node
                           end;
                rootNode := rootNode st |}
  end.

(** [parser.onerror] (lines 22-24): the error goes to the console. *)
Definition onerror (st : state) (e : exn) : traced state :=
  (Return st, [Console e]).

Definition handle (st : state) (ev : sax_event) : traced state :=
  match ev with
  | OpenTag name attributes isSelfClosing => lift (onopentag st name attributes isSelfClosing)
  | Text t => lift (ontext st t)
  | CloseTag tagname => lift (onclosetag st tagname)
  | Error e => onerror st e
  end.

(** The handlers run on the events of [parser.write(xml).close()]; an
    exception of a handler ends the run. *)
Fixpoint feed (evs : list sax_event) (st : state) : traced state :=
  match evs with
  | [] => ret st
  | ev :: rest => bind (handle st ev) (feed rest)
  end.

(** The tree that a stored value denotes. *)
Fixpoint reify (fuel : nat) (h : list cell) (v : hval) : option value :=
  match v with
  | HPrim p => Some p
  | HRef a =>
      match fuel with
      | 0 => None
      | S fuel =>
          match h !! a with
          | Some (CObject props) =>
              VObject <$> mapM (fun kx => pair (fst kx) <$> reify fuel h (snd kx)) props
          | Some (CArray elems _) => VArray <$> mapM (reify fuel h) elems
          | None => None
          end
      end
  end.

(** [obj[rootNode]], read as a tree: the property that [obj] has of its
    own under the name, [undefined] when it has none. This is the reading
    of JavaScript unless [obj] has no such property and the name is an
    [inherited_name]. *)
Definition read_root (st : state) : outcome value :=
  match heap st !! obj with
  | Some (CObject props) =>
      let key := match rootNode st with
                 | None => "null"
                 | Some r => property_key r
                 end in
      match get_prop props key with
      | Some v =>
          match reify (length (heap st)) (heap st) v with
          | Some t => Return t
          | None => OutOfFuel
          end
      | None => Return VUndefined
      end
  | _ => Return VUndefined
  end.

(** [Parse] (lines 15-121), on the run of the parser over its argument. *)
Definition Parse (fuel : nat) (xml : sax_run) (reviver : option callback)
  : traced value :=
  bind (feed (events xml) initial) (fun st =>
  bind (lift (match failure xml with
              | Some e => Throw e
              | None => Return tt
              end)) (fun _ =>
  bind (lift (read_root st)) (fun v =>
  match reviver with
  | Some reviver => revive fuel reviver v
  | None => ret v
  end))).

(** ** From the writer's text to the parser's events *)

Definition newline : string := String (ascii_of_nat 10) "".

(** The tokens of the text under construction: the elements whose start tag
    is closed and that are still open (innermost first, each with the flag
    that it has a child element) and the start tag still being written. *)
Record scanner := {
  open_elements : list (string * bool);
  pending : option (string * list (string * string));
}.

Definition flush (sc : scanner) : scanner * list sax_event :=
  match pending sc with
  | Some (n, attrs) =>
      ({| open_elements := (n, false) :: open_elements sc; pending := None |},
       [OpenTag n attrs false])
  | None => (sc, [])
  end.

Definition indenting (ind : option string) : bool :=
  match ind with
  | Some s => negb (String.eqb s "")
  | None => false
  end.

Definition layout (ind : option string) (depth : nat) : string :=
  String.append newline (repeat_string (property_key ind) depth).

(** White space printed before a tag at nesting [depth]. *)
Definition margin (ind : option string) (depth : nat) : list sax_event :=
  if indenting ind then [Text (layout ind depth)] else [].

(** Modelled from the spec: the writer and the parser are the external
    collaborators of section 6; what is missing from the sources is the
    text the writer prints for a sequence of calls and the events the
    parser delivers on that text. [scan] gives, for one call, the events of
    the text that the call completes. An element closed before any text or
    child was written is printed as a self-closing tag, for which the
    parser delivers the open event, flagged, and the close event; an
    attribute with empty content is not printed; empty text yields no text
    event; the line break after the declaration and the white space the
    writer lays out before a tag when it indents reach [ontext] as text.
    Attribute values and text arrive as they were passed to the writer
    (escaped by the one, decoded by the other). The declaration itself has
    no handler in [Parse]. *)
Definition scan (ind : option string) (sc : scanner) (c : wcall)
  : scanner * list sax_event :=
  match c with
  | StartDocument _ _ _ => (sc, [])
  | StartElement n =>
      let '(sc, opened) := flush sc in
      match open_elements sc with
      | (p, _) :: rest =>
          ({| open_elements := (p, true) :: rest; pending := Some (n, []) |},
           opened ++ margin ind (S (length rest)))
      | [] =>
          ({| open_elements := []; pending := Some (n, []) |},
           opened ++ [Text newline])
      end
  | WriteAttribute k content =>
      match pending sc with
      | Some (n, attrs) =>
          if String.eqb content "" then (sc, [])
          else ({| open_elements := open_elements sc;
                   pending := Some (n, attrs ++ [(k, content)]) |}, [])
      | None => (sc, [])
      end
  | WriteText content =>
      let '(sc, opened) := flush sc in
      (sc, opened ++ (if String.eqb content "" then [] else [Text content]))
  | EndElement =>
      match pending sc with
      | Some (n, attrs) =>
          ({| open_elements := open_elements sc; pending := None |},
           [OpenTag n attrs true; CloseTag n])
      | None =>
          match open_elements sc with
          | (n, has_child) :: rest =>
              ({| open_elements := rest; pending := None |},
               (if has_child then margin ind (length rest) else []) ++ [CloseTag n])
          | [] => (sc, [])
          end
      end
  | EndDocument => (sc, [])
  end.

Fixpoint scan_all (ind : option string) (cs : list wcall) (sc : scanner)
  : scanner * list sax_event :=
  match cs with
  | [] => (sc, [])
  | c :: cs =>
      let '(sc, evs) := scan ind sc c in
      let '(sc, more) := scan_all ind cs sc in
      (sc, evs ++ more)
  end.

Definition sax_events (writer : XMLWriter) : list sax_event :=
  snd (scan_all (indent writer) (calls writer)
         {| open_elements := []; pending := None |}).

(** An indentation string that holds no markup: neither [<] nor [&]. *)
Definition markup_free (ind : option string) : bool :=
  match ind with
  | Some s =>
      forallb (fun c => negb (Ascii.eqb c "<" || Ascii.eqb c "&")) (list_ascii_of_string s)
  | None => true
  end.

(** The run of the parser on [writer.toString()]. The writer escapes the
    attribute values and the text it is given but prints its indentation
    string as it is: with an indentation free of markup the text is well
    formed, the parser delivers the events of [sax_events] and raises
    nothing; otherwise the run is the one of [sax_malformed]. *)
Definition sax_parser (writer : XMLWriter) : sax_run :=
  if markup_free (indent writer)
  then {| events := sax_events writer; failure := None |}
  else sax_malformed writer.

(** [Parse(Stringify(v, replacer, space), reviver)]. *)
Definition Parse_Stringify (fuel : nat) (v : value) (replacer : replacer_arg)
    (space : space_arg) (reviver : option callback) : traced value :=
  bind (Stringify fuel v replacer space) (fun writer =>
  Parse fuel (sax_parser writer) reviver).

(** ** Notions used in the statements *)

(** [x] is the entry of the container [v] under [k]. *)
Definition is_entry (v : value) (k : key) (x : value) : Prop :=
  match v, k with
  | VArray items, KIdx n => items !! n = Some x
  | VObject props, KStr s => In (s, x) props
  | _, _ => False
  end.

(** What [clone] and [revive] make of a value whatever the callback
    answers: a container keeps its kind, [null] counts as an object, every
    other value is returned as it is. *)
Definition same_kind (v c : value) : Prop :=
  match v with
  | VArray _ => ∃ items, c = VArray items
  | VObject _ | VNull => ∃ props, c = VObject props
  | _ => c = v
  end.

(** The image of a value all of whose entries are dropped. *)
Definition husk (v : value) : value :=
  match v with
  | VArray _ => VArray []
  | VObject _ | VNull => VObject []
  | _ => v
  end.

(** *** The calls of the serialize pass, as a list *)

Definition extend (writer : XMLWriter) (cs : list wcall) : XMLWriter :=
  {| indent := indent writer; calls := calls writer ++ cs |}.

(** The element written for the entry [x] under the name [k], around the
    calls [content] made for [x] itself; nothing for a function. *)
Definition element_calls (k : string) (x : value) (content : list wcall)
  : list wcall :=
  if is_function x then []
  else [StartElement (getTagname x); WriteAttribute "name" k] ++ content ++ [EndElement].

Section Entries.
Context {A B : Type} (f : nat → A → list B).

Fixpoint flat_indexed (n : nat) (l : list A) : list B :=
  match l with
  | [] => []
  | x :: l => f n x ++ flat_indexed (S n) l
  end.

End Entries.

(** The calls made between the start and the end of the element of [v]. *)
Fixpoint content_calls (v : value) : list wcall :=
  match v with
  | VDate d =>
      match toISOString d with
      | Some iso => [WriteText iso]
      | None => []
      end
  | VArray items =>
      flat_indexed (fun n x => element_calls (string_of_nat n) x (content_calls x)) 0 items
  | VObject props =>
      flat_map (fun kx => element_calls (fst kx) (snd kx) (content_calls (snd kx))) props
  | VBool b => [WriteText (if b then "true" else "false")]
  | VNumber n => [WriteText (number_toString n)]
  | VString s => [WriteText s]
  | VUndefined | VNull | VFunction _ => []
  end.

(** The values on which the serialize pass raises nothing: no invalid date
    and no [undefined], outside the entries it skips. *)
Fixpoint encodable (v : value) : bool :=
  match v with
  | VDate d => match toISOString d with Some _ => true | None => false end
  | VArray items => forallb (fun x => is_function x || encodable x) items
  | VObject props => forallb (fun kx => is_function (snd kx) || encodable (snd kx)) props
  | VUndefined => false
  | _ => true
  end.

(** What a run of the serialize pass amounts to: either it returns the
    writer extended with [content_calls], or it raises. *)
Definition writes (v : value) (w : XMLWriter) (o : outcome XMLWriter) : Prop :=
  match o with
  | Return w' => encodable v = true ∧ w' = extend w (content_calls v)
  | Throw _ => encodable v = false
  | OutOfFuel => False
  end.

(** The calls of a complete document around the content of its root. *)
Definition document_calls (c : value) : list wcall :=
  [StartDocument "1.0" "UTF-8" true; StartElement (getTagname c)]
  ++ content_calls c ++ [EndElement; EndDocument].

(** Every element started in a sequence of calls is given a [name]
    attribute at once. *)
Inductive named : list wcall → Prop :=
| named_nil : named []
| named_element n k cs :
    named cs → named (StartElement n :: WriteAttribute "name" k :: cs)
| named_other c cs :
    (∀ n, c ≠ StartElement n) → named cs → named (c :: cs).

(** Nesting depth: the fuel the walk of a value needs when the callback
    returns nothing larger than its argument. *)
Fixpoint depth (v : value) : nat :=
  match v with
  | VArray items => S (list_max (map depth items))
  | VObject props => S (list_max (map (fun kx => depth (snd kx)) props))
  | _ => 1
  end.

(** A callback that either keeps an entry as it is or drops it. *)
Definition filtering (f : callback) : Prop :=
  ∀ k x, f k x = Return x ∨ f k x = Return VUndefined.

(** Every property name, at every level, is one of [names], and no array
    has an element. *)
Fixpoint names_within (names : list string) (c : value) : bool :=
  match c with
  | VArray items => match items with [] => true | _ => false end
  | VObject props =>
      forallb (fun kx => existsb (String.eqb (fst kx)) names
                         && names_within names (snd kx)) props
  | _ => true
  end.

(** *** The tags of the document, as the parser reads them *)




(** The start tag under construction after one call and the tags that the
    call completes; [tags_all] does the same for a sequence of calls. *)
Definition pending_tag (p : option (string * list (string * string)))
  : list (string * list (string * string)) :=
  match p with
  | Some t => [t]
  | None => []
  end.

Definition tags_step (p : option (string * list (string * string))) (c : wcall)
  : option (string * list (string * string)) * list (string * list (string * string)) :=
  match c with
  | StartElement n => (Some (n, []), pending_tag p)
  | WriteAttribute k content =>
      match p with
      | Some (n, attrs) =>
          if String.eqb content "" then (p, []) else (Some (n, attrs ++ [(k, content)]), [])
      | None => (None, [])
      end
  | WriteText _ | EndElement => (None, pending_tag p)
  | StartDocument _ _ _ | EndDocument => (p, [])
  end.

Fixpoint tags_all (p : option (string * list (string * string))) (cs : list wcall)
  : option (string * list (string * string)) * list (string * list (string * string)) :=
  match cs with
  | [] => (p, [])
  | c :: cs => (fst (tags_all (fst (tags_step p c)) cs),
                snd (tags_step p c) ++ snd (tags_all (fst (tags_step p c)) cs))
  end.

(** What the allow-list [names] leaves of a value: of an object, the
    properties under a listed name whose value is not [undefined], each
    with what the allow-list leaves of its value; of an array, nothing,
    its keys being numbers. *)
Section Listed.
Variable names : list string.
Variable f : value → value.

Fixpoint keep_listed (props result : list (string * value)) : list (string * value) :=
  match props with
  | [] => result
  | kx :: rest =>
      if existsb (String.eqb (fst kx)) names && negb (is_undefined (snd kx))
      then keep_listed rest (set_prop result (fst kx) (f (snd kx)))
      else keep_listed rest result
  end.

End Listed.

Fixpoint allowed (names : list string) (v : value) : value :=
  match v with
  | VArray _ => VArray []
  | VObject props => VObject (keep_listed names (allowed names) props [])
  | VNull => VObject []
  | _ => v
  end.

(** The entries that a walk with the callback [f] comes across: those of
    the value walked and, for every entry that [f] replaces by a value,
    those of the replacement. *)
Inductive offered (f : callback) : value → key → value → Prop :=
| offered_entry v k x : is_entry v k x → offered f v k x
| offered_inside v k0 x0 y k x :
    is_entry v k0 x0 → f k0 x0 = Return y → offered f y k x → offered f v k x.

(** The console lines of a run of the parser, and the run without its
    error events. *)
Definition errors (evs : list sax_event) : list effect :=
  flat_map (fun ev => match ev with Error e => [Console e] | _ => [] end) evs.

Definition silence (evs : list sax_event) : list sax_event :=
  List.filter (fun ev => match ev with Error _ => false | _ => true end) evs.

(** *** The clone made when no replacer is given *)

Section Kept.
Variable f : value → value.

Fixpoint keep_items (items : list value) : list value :=
  match items with
  | [] => []
  | x :: rest => if is_undefined x then keep_items rest else f x :: keep_items rest
  end.

Fixpoint keep_props (props result : list (string * value)) : list (string * value) :=
  match props with
  | [] => result
  | kx :: rest =>
      if is_undefined (snd kx) then keep_props rest result
      else keep_props rest (set_prop result (fst kx) (f (snd kx)))
  end.

End Kept.

(** The value [clone] returns when every entry is kept as it is: the
    entries that are [undefined] are left out, [null] has become an empty
    object, and everything else, functions included, is in its place. *)
Fixpoint cloned (v : value) : value :=
  match v with
  | VArray items => VArray (keep_items cloned items)
  | VObject props => VObject (keep_props cloned props [])
  | VNull => VObject []
  | _ => v
  end.

(** *** What [Parse] makes of a document of [Stringify] *)

(** The open elements once the pending start tag is closed and the
    innermost element is known to have a child. *)
Definition entered (sc : scanner) : list (string * bool) :=
  match open_elements (fst (flush sc)) with
  | (p, _) :: rest => (p, true) :: rest
  | [] => []
  end.

Definition attribute_calls (attrs : list (string * string)) : list wcall :=
  map (fun a => WriteAttribute (fst a) (snd a)) attrs.

(** The value whose element is printed as a self-closing tag. *)
Definition selfclosing (c : value) : bool :=
  match c with
  | VNull | VArray [] | VObject [] => true
  | _ => false
  end.

Definition is_null (v : value) : bool :=
  match v with VNull => true | _ => false end.

Section Lists.
Context {A : Type}.

(** No element but the last one satisfies [p]. *)
Fixpoint last_only (p : A → bool) (l : list A) : bool :=
  match l with
  | [] => true
  | x :: rest =>
      match rest with
      | [] => true
      | _ => negb (p x) && last_only p rest
      end
  end.

Variable R : A → A → Prop.

(** The two lists are related element by element. *)
Fixpoint all2 (l l' : list A) : Prop :=
  match l, l' with
  | [], [] => True
  | x :: l, y :: l' => R x y ∧ all2 l l'
  | _, _ => False
  end.

End Lists.

Definition nonempty (s : string) : bool := negb (String.eqb s "").

Definition short {A} (l : list A) : bool := (N.of_nat (length l) <? 4294967295)%N.

(** The cloned values that the handlers of [Parse] take in without
    failing and without a gap: every text is non-empty, so that the parser
    reports it; the names of an object are distinct and non-empty; an
    element printed as a self-closing tag is followed by no sibling. *)
Fixpoint settled (c : value) : bool :=
  match c with
  | VUndefined | VFunction _ => false
  | VNull | VBool _ => true
  | VNumber n => nonempty (number_toString n)
  | VString s => nonempty s
  | VDate d => match toISOString d with Some iso => nonempty iso | None => false end
  | VArray items =>
      forallb settled items && last_only selfclosing items && short items
  | VObject props =>
      forallb (fun kx => nonempty (fst kx) && settled (snd kx)) props
      && last_only (fun kx => selfclosing (snd kx)) props
      && bool_decide (NoDup (map fst props))
  end.

(** The value decoded from the element of [c]. *)
Fixpoint decoded (c : value) : value :=
  match c with
  | VArray ((_ :: _) as items) => VArray (map decoded items)
  | VObject ((_ :: _) as props) => VObject (map (fun kx => (fst kx, decoded (snd kx))) props)
  | VNull | VArray [] | VObject [] => VNull
  | VNumber n => VNumber (parseFloat (number_toString n))
  | VDate d =>
      match toISOString d with
      | Some iso => VDate (Date_parse iso)
      | None => c
      end
  | _ => c
  end.

Definition lead (ind : option string) (depth : nat) : list sax_event :=
  match depth with
  | 0 => [Text newline]
  | _ => margin ind depth
  end.

(** The events of the element of [c], written at nesting [depth] with the
    attributes [attrs]. *)
Fixpoint element_events (ind : option string) (depth : nat)
    (attrs : list (string * string)) (c : value) : list sax_event :=
  lead ind depth ++
  match c with
  | VArray ((_ :: _) as items) =>
      [OpenTag "array" attrs false]
      ++ flat_indexed
           (fun n x => element_events ind (S depth) [("name", string_of_nat n)] x) 0 items
      ++ margin ind depth ++ [CloseTag "array"]
  | VObject ((_ :: _) as props) =>
      [OpenTag "object" attrs false]
      ++ flat_map
           (fun kx => element_events ind (S depth) [("name", fst kx)] (snd kx)) props
      ++ margin ind depth ++ [CloseTag "object"]
  | VNull | VArray [] | VObject [] =>
      [OpenTag (getTagname c) attrs true; CloseTag (getTagname c)]
  | VBool b =>
      [OpenTag "boolean" attrs false; Text (if b then "true" else "false");
       CloseTag "boolean"]
  | VNumber n => [OpenTag "number" attrs false; Text (number_toString n); CloseTag "number"]
  | VString s => [OpenTag "string" attrs false; Text s; CloseTag "string"]
  | VDate d =>
      [OpenTag "date" attrs false]
      ++ match toISOString d with Some iso => [Text iso] | None => [] end
      ++ [CloseTag "date"]
  | VUndefined | VFunction _ => []
  end.

Section Alloc.
Context {A : Type} (proj : A → value).
Variable alloc : nat → value → hval * list cell.

Fixpoint alloc_list (base : nat) (entries : list A) : list hval * list cell :=
  match entries with
  | [] => ([], [])
  | x :: rest =>
      let '(h, cells) := alloc base (proj x) in
      let '(hs, more) := alloc_list (base + length cells) rest in
      (h :: hs, cells ++ more)
  end.

End Alloc.

(** What the handlers store for the element of [c], and the containers
    they create for it when the store has [base] cells. *)
Fixpoint alloc (base : nat) (c : value) : hval * list cell :=
  match c with
  | VArray ((_ :: _) as items) =>
      let '(hs, cells) := alloc_list (fun x => x) alloc (S base) items in
      (HRef base, CArray hs [] :: cells)
  | VObject ((_ :: _) as props) =>
      let '(hs, cells) := alloc_list snd alloc (S base) props in
      (HRef base, CObject (combine (map fst props) hs) :: cells)
  | VNull | VArray [] | VObject [] => (HPrim VNull, [])
  | _ => (HPrim (decoded c), [])
  end.

(** The events of one element, from its start to its end. *)
Definition scans_element (ind : option string) (c : value) : Prop :=
  ∀ attrs sc,
    forallb (fun a => nonempty (snd a)) attrs = true →
    scan_all ind (StartElement (getTagname c) :: attribute_calls attrs
                  ++ content_calls c ++ [EndElement]) sc
    = ({| open_elements := entered sc; pending := None |},
       snd (flush sc) ++ element_events ind (length (entered sc)) attrs c).

(** Text is ignored in a state whose innermost open element, if any, is
    not one of the four scalar tags. *)
Definition quiet (st : state) : bool :=
  match path st with
  | [] => true
  | top :: _ =>
      negb (String.eqb (name top) "date" || String.eqb (name top) "number"
            || String.eqb (name top) "string" || String.eqb (name top) "boolean")
  end.

(** The state in which the handlers leave [st] after the events of the
    element of [c] with the attributes [attrs]. *)
Definition stored (st : state) (attrs : list (string * string)) (c : value) : state :=
  {| path := path st;
     heap := match current st with
             | Some a =>
                 alter (store (property_key (attributes_name attrs))
                              (fst (alloc (length (heap st)) c))) a (heap st)
             | None => heap st
             end ++ snd (alloc (length (heap st)) c);
     current := if selfclosing c then None else current st;
     rootNode := match rootNode st with
                 | None => Some (attributes_name attrs)
                 | r => r
                 end |}.

Definition feeds_element (c : value) : Prop :=
  ∀ ind depth attrs st a,
    current st = Some a → quiet st = true →
    feed (element_events ind depth attrs c) st = (Return (stored st attrs c), []).

(** The stores made, one after the other, into one container. *)
Fixpoint store_all (names : list string) (hs : list hval) (c : cell) : cell :=
  match names, hs with
  | n :: names, h :: hs => store_all names hs (store n h c)
  | _, _ => c
  end.

(** The tree read back from the containers made for the element of [c]. *)
Definition reifies (c : value) : Prop :=
  ∀ pre post fuel,
    depth c ≤ fuel →
    reify fuel (pre ++ snd (alloc (length pre) c) ++ post) (fst (alloc (length pre) c))
    = Some (decoded c).

(** The values that [Parse] gives back from the document [Stringify]
    prints for them: no function and no [undefined]; no empty string,
    array or object; no invalid date; in an object, distinct non-empty
    names; [null] in the last place only of an array or an object. *)
Fixpoint faithful (v : value) : bool :=
  match v with
  | VUndefined | VFunction _ => false
  | VNull | VBool _ | VNumber _ => true
  | VString s => nonempty s
  | VDate d => match toISOString d with Some _ => true | None => false end
  | VArray items =>
      match items with [] => false | _ => true end
      && forallb faithful items && last_only is_null items && short items
  | VObject props =>
      match props with [] => false | _ => true end
      && forallb (fun kx => nonempty (fst kx) && faithful (snd kx)) props
      && last_only (fun kx => is_null (snd kx)) props
      && bool_decide (NoDup (map fst props))
  end.

(** JavaScript enumerates the properties of an object with the names that
    are array indexes first, by rising index, and the other names after
    them in the order of their creation. [enumeration_order] holds of a
    list of names that is in this order when the names were created from
    left to right. *)
Fixpoint enumeration_order (names : list string) : bool :=
  match names with
  | [] => true
  | k :: rest =>
      match array_index k with
      | Some i =>
          forallb (fun k' => match array_index k' with
                             | Some j => i <? j
                             | None => true
                             end) rest
      | None =>
          forallb (fun k' => match array_index k' with
                             | Some _ => false
                             | None => true
                             end) rest
      end
      && enumeration_order rest
  end.

(** The values made of ordinary properties only: no property is named
    [__proto__] (assigning to that name sets the prototype of the object
    and creates no property) and the properties of an object are listed in
    the order in which JavaScript enumerates them. *)
Fixpoint ordinary (v : value) : bool :=
  match v with
  | VArray items => forallb ordinary items
  | VObject props =>
      forallb (fun kx => negb (String.eqb (fst kx) "__proto__") && ordinary (snd kx)) props
      && enumeration_order (map fst props)
  | _ => true
  end.

Section Close.
Variable number_close : number → number → Prop.
Variable date_close : date → date → Prop.

(** Equality of two values up to [number_close] on numbers and
    [date_close] on dates. *)
Fixpoint value_close (a b : value) {struct a} : Prop :=
  match a, b with
  | VNumber n, VNumber m => number_close n m
  | VDate d, VDate e => date_close d e
  | VArray l, VArray l' => all2 value_close l l'
  | VObject l, VObject l' =>
      all2 (fun kx ky => fst kx = fst ky ∧ value_close (snd kx) (snd ky)) l l'
  | VUndefined, VUndefined | VNull, VNull => True
  | VBool x, VBool y => x = y
  | VString s, VString t => s = t
  | VFunction f, VFunction g => f = g
  | _, _ => False
  end.

(** What the runtime guarantees of its conversions: the text of a number
    or of a date is never empty, and reading it back gives the number up
    to rounding, the date up to the millisecond. *)
Definition conversions_close : Prop :=
  (∀ n, number_toString n ≠ "" ∧ number_close (parseFloat (number_toString n)) n)
  ∧ (∀ d iso, toISOString d = Some iso → iso ≠ "" ∧ date_close (Date_parse iso) d).

End Close.

(** The scalar values: booleans, numbers, strings and dates. *)
Definition is_scalar (v : value) : bool :=
  match v with
  | VBool _ | VNumber _ | VString _ | VDate _ => true
  | _ => false
  end.

(** A [space] that [Stringify] accepts and that puts no markup into the
    text: absent, a count of blanks that is not negative, or a string
    without [<] and [&]. *)
Definition plain_space (space : space_arg) : bool :=
  match space with
  | SpaceUndefined => true
  | SpaceNumber n => (0 <=? n)%Z
  | SpaceString s => markup_free (Some s)
  end.

(** A callback that answers the omitted sentinel for every entry. *)
Definition drop_all : callback := fun _ _ => Return VUndefined.

(** A callback that answers its second argument. *)
Definition keep_all : callback := fun _ v => Return v.

(** [(k, v) => k === 1 ? undefined : v]. *)
Definition drop_second : callback :=
  fun k v => match k with KIdx 1 => Return VUndefined | _ => Return v end.

(** ** Notions used in the further properties *)

(** A run in which the parser opens and closes no tag. *)
Definition elementless (evs : list sax_event) : bool :=
  forallb (fun ev => match ev with Text _ | Error _ => true | _ => false end) evs.

(** No [null] anywhere, and no [undefined] among the entries. *)
Fixpoint defined_within (c : value) : bool :=
  match c with
  | VNull => false
  | VArray items => forallb (fun x => negb (is_undefined x) && defined_within x) items
  | VObject props =>
      forallb (fun kx => negb (is_undefined (snd kx)) && defined_within (snd kx)) props
  | _ => true
  end.

(** A callback that raises whatever it is asked. *)
Definition raising (e : exn) : callback := fun _ _ => Throw e.

(** The tag names that [onopentag] and [ontext] tell apart; any other name
    falls in the [default] branch, as [object] does. *)
Definition known_tag (n : string) : string :=
  if String.eqb n "date" || String.eqb n "number" || String.eqb n "string"
     || String.eqb n "boolean" || String.eqb n "array"
  then n else "object".

Definition known_event (ev : sax_event) : sax_event :=
  match ev with
  | OpenTag n attrs b => OpenTag (known_tag n) attrs b
  | CloseTag n => CloseTag (known_tag n)
  | _ => ev
  end.

Definition known_node (nd : node) : node :=
  {| name := known_tag (name nd); attributes := attributes nd;
     isSelfClosing := isSelfClosing nd; dataType := dataType nd;
     parentObject := parentObject nd |}.

Definition known_state (st : state) : state :=
  {| path := map known_node (path st); heap := heap st;
     current := current st; rootNode := rootNode st |}.

Definition outcome_map {A B} (f : A → B) (o : outcome A) : outcome B :=
  match o with
  | Return a => Return (f a)
  | Throw e => Throw e
  | OutOfFuel => OutOfFuel
  end.

(** The names every plain object inherits from [Object.prototype]: read
    on an object that has no property of its own under the name, they give
    the inherited method (or, for [__proto__], the prototype), not
    [undefined]. *)
Definition Object_prototype_names : list string :=
  ["constructor"; "hasOwnProperty"; "isPrototypeOf"; "propertyIsEnumerable";
   "toLocaleString"; "toString"; "valueOf"; "__proto__"; "__defineGetter__";
   "__defineSetter__"; "__lookupGetter__"; "__lookupSetter__"].

Definition inherited_name (k : string) : bool :=
  existsb (String.eqb k) Object_prototype_names.

(** The names under which a store is an ordinary store: on an object
    every name but [__proto__], whose assignment sets the prototype; on an
    array, moreover, every name but [length], whose assignment resizes the
    array or raises a RangeError. *)
Definition object_name (k : string) : bool := negb (String.eqb k "__proto__").

Definition array_name (k : string) : bool :=
  negb (String.eqb k "__proto__") && negb (String.eqb k "length").

(** The four tags of the scalar values. *)
Definition scalar_tag (n : string) : bool :=
  String.eqb n "date" || String.eqb n "number" || String.eqb n "string"
  || String.eqb n "boolean".

(** The value [ontext] reads from the text [t] of an element with a scalar
    tag. *)
Definition text_value (tag t : string) : value :=
  if String.eqb tag "date" then VDate (Date_parse t)
  else if String.eqb tag "number" then VNumber (parseFloat t)
  else if String.eqb tag "string" then VString t
  else if String.eqb tag "boolean" then VBool (String.eqb t "true")
  else VUndefined.

(** The calls a walk makes of a callback that keeps or drops: each entry
    in turn, and right after an entry that is kept, before the next one,
    the entries it holds. *)
Section Order.
Variable r : callback.

Definition kept (k : key) (x : value) : bool :=
  match r k x with
  | Return y => negb (is_undefined y)
  | _ => false
  end.

Fixpoint calls_order (v : value) : list effect :=
  match v with
  | VArray items =>
      flat_indexed (fun n x => Invoke (KIdx n) x
                               :: (if kept (KIdx n) x then calls_order x else [])) 0 items
  | VObject props =>
      flat_map (fun kx => Invoke (KStr (fst kx)) (snd kx)
                          :: (if kept (KStr (fst kx)) (snd kx)
                              then calls_order (snd kx) else [])) props
  | _ => []
  end.

End Order.

(** The store of [Parse] as a forest: a container at the address [a]
    refers only to containers made after it, [current] and the
    [parentObject] fields of the open nodes are addresses of the store. *)
Definition points_ahead (a n : nat) (v : hval) : Prop :=
  match v with
  | HPrim _ => True
  | HRef b => a < b ∧ b < n
  end.

Definition cell_ahead (a n : nat) (c : cell) : Prop :=
  match c with
  | CObject props => Forall (fun kx => points_ahead a n (snd kx)) props
  | CArray elems props =>
      Forall (points_ahead a n) elems
      ∧ Forall (fun kx => points_ahead a n (snd kx)) props
  end.

Definition forest (st : state) : Prop :=
  (∀ a c, heap st !! a = Some c → cell_ahead a (length (heap st)) c)
  ∧ (∀ a, current st = Some a → a < length (heap st))
  ∧ Forall (fun nd => ∀ a, parentObject nd = Some a → a < length (heap st)) (path st).

(** The nesting of the elements after the calls [cs], started at the
    nesting [d]; [None] when an element is ended that was not started. *)
Fixpoint nesting (d : nat) (cs : list wcall) : option nat :=
  match cs with
  | [] => Some d
  | StartElement _ :: cs => nesting (S d) cs
  | EndElement :: cs =>
      match d with
      | 0 => None
      | S d => nesting d cs
      end
  | _ :: cs => nesting d cs
  end.

End Xmlon.

(** ** A runtime on which the examples are evaluated

    Whole numbers and not-a-number, printed in decimal; a date is the text
    of its ISO-8601 rendering, invalid when the text has another shape. *)
Module Sample.

Inductive sample_number :=
| NaN
| Whole (z : Z).

Definition sample_parseFloat (s : string) : sample_number :=
  match NilZero.int_of_string s with
  | Some d => Whole (Z.of_int d)
  | None => NaN
  end.

Definition sample_toString (n : sample_number) : string :=
  match n with
  | NaN => "NaN"
  | Whole z => NilZero.string_of_int (Z.to_int z)
  end.

Definition is_digit (c : ascii) : bool :=
  let n := nat_of_ascii c in (48 <=? n)%nat && (n <=? 57)%nat.

(** The shape YYYY-MM-DDTHH:MM:SS.sssZ. *)
Definition iso_shaped (s : string) : bool :=
  match list_ascii_of_string s with
  | [y1; y2; y3; y4; d1; m1; m2; d2; a1; a2; t; h1; h2; c1; i1; i2; c2; s1; s2; p; f1; f2; f3; z] =>
      forallb is_digit [y1; y2; y3; y4; m1; m2; a1; a2; h1; h2; i1; i2; s1; s2; f1; f2; f3]
      && String.eqb (string_of_list_ascii [d1; d2; t; c1; c2; p; z]) "--T::.Z"
  | _ => false
  end.

#[export] Instance sample_primitives : Primitives := {|
  number := sample_number;
  date := option string;
  parseFloat := sample_parseFloat;
  number_toString := sample_toString;
  Date_parse := fun s => if iso_shaped s then Some s else None;
  toISOString := fun d =>
    match d with
    | Some s => if iso_shaped s then Some s else None
    | None => None
    end;
  sax_malformed := fun _ =>
    {| events := []; failure := Some (SaxError "Unexpected character") |};
|}.

End Sample.
Import Sample.

(** ** Values on which the properties are exercised *)

Definition sample_date : value := VDate (Some "2020-01-02T03:04:05.678Z").

Definition sample_value : value :=
  VObject [("a", VArray [VNumber (Whole 1); VBool true; VNull]);
           ("d", sample_date);
           ("s", VString "x")].

Definition sample_one : value := VNumber (Whole 1).
Definition sample_two : value := VNumber (Whole 2).
Definition sample_three : value := VNumber (Whole 3).

Definition sample_array : value := VArray [sample_one; sample_two; sample_three].

Definition sample_nested : value :=
  VArray [VArray [VNumber (Whole 1); VNumber (Whole 2)]; VNumber (Whole 3);
          VNumber (Whole 4)].

(** The document [<number>1</number>], as the parser reads it. *)
Definition sample_document : sax_run :=
  {| events := [Text newline; OpenTag "number" [] false; Text "1"; CloseTag "number"];
     failure := None |}.

(** The run of the parser on a line break followed by an unfinished tag:
    the text of the line break, then the error reported when the input
    ends. *)
Definition sample_blank : sax_run :=
  {| events := [Text newline; Error (SaxError "Unexpected end")]; failure := None |}.

(** The document [<array><object name="0"/></array>]. *)
Definition sample_null_array : sax_run :=
  {| events := [OpenTag "array" [] false; OpenTag "object" [("name", "0")] true;
                CloseTag "object"; CloseTag "array"];
     failure := None |}.

Definition sample_true : value := VBool true.

(** The object [{a: 1}] and the replacer
    [(k, v) => typeof k === 'string' ? [root] : true], [root] being that
    object. *)
Definition sample_root : value := VObject [("a", sample_one)].

Definition sample_wrapping : callback :=
  fun k _ => match k with
             | KStr _ => Return (VArray [sample_root])
             | KIdx _ => Return sample_true
             end.

Definition sample_booleans : value := VArray [sample_true].

Definition sample_invalid_date : value := VDate None.

(** * Properties *)

Section Properties.
Context `{Primitives}.

#[local] Arguments bind : simpl never.
#[local] Arguments call : simpl never.
#[local] Arguments ret : simpl never.
#[local] Arguments short : simpl never.

(** ** Induction on values *)

Lemma value_ind' (P : value → Prop) :
  P VUndefined → P VNull → (∀ b, P (VBool b)) → (∀ n, P (VNumber n)) →
  (∀ s, P (VString s)) → (∀ d, P (VDate d)) → (∀ f, P (VFunction f)) →
  (∀ items, Forall P items → P (VArray items)) →
  (∀ props, Forall (fun kx => P (snd kx)) props → P (VObject props)) →
  ∀ v, P v.
Proof.
  intros Hu Hn Hb Hnum Hs Hd Hf Ha Ho.
  fix IH 1. intros [ | | b | n | s | d | f | items | props ].
  - exact Hu.
  - exact Hn.
  - apply Hb.
  - apply Hnum.
  - apply Hs.
  - apply Hd.
  - apply Hf.
  - apply Ha. induction items as [|x items IHl]; constructor; [apply IH | exact IHl].
  - apply Ho. induction props as [|[k x] props IHl]; constructor; [apply IH | exact IHl].
Qed.

(** ** The effect monad *)

Lemma fst_bind {A B} (m : traced A) (f : A → traced B) :
  fst (bind m f) =
  match fst m with
  | Return a => fst (f a)
  | Throw e => Throw e
  | OutOfFuel => OutOfFuel
  end.
Proof. destruct m as [[a|e|] t]; unfold bind; simpl; auto. destruct (f a); auto. Qed.

Lemma snd_bind {A B} (m : traced A) (f : A → traced B) :
  snd (bind m f) =
  snd m ++ match fst m with
           | Return a => snd (f a)
           | _ => []
           end.
Proof.
  destruct m as [[a|e|] t]; unfold bind; simpl; rewrite ?app_nil_r; auto.
  destruct (f a); auto.
Qed.

Lemma bind_Return {A B} (m : traced A) (f : A → traced B) b :
  fst (bind m f) = Return b → ∃ a, fst m = Return a ∧ fst (f a) = Return b.
Proof. rewrite fst_bind. destruct (fst m); naive_solver. Qed.

Lemma In_bind {A B} (m : traced A) (f : A → traced B) e :
  In e (snd (bind m f)) →
  In e (snd m) ∨ ∃ a, fst m = Return a ∧ In e (snd (f a)).
Proof.
  rewrite snd_bind, in_app_iff. intros [?|Hin]; auto.
  destruct (fst m); simpl in Hin; naive_solver.
Qed.

(** ** The walk of [clone] and [revive] *)

(** [revive] and [clone] are one and the same walk. *)
Lemma revive_clone fuel f v : revive fuel f v = clone fuel f v.
Proof. reflexivity. Qed.

(** Every call made by the array loop is on an element of the array, or is
    made by the walk of a value that the callback returned. *)
Lemma for_index_calls walk f n items result k x :
  In (Invoke k x) (snd (for_index walk f n items result)) →
  (∃ i, k = KIdx (n + i) ∧ items !! i = Some x)
  ∨ (∃ i x0 y, items !! i = Some x0 ∧ f (KIdx (n + i)) x0 = Return y
               ∧ In (Invoke k x) (snd (walk y))).
Proof.
  revert n result. induction items as [|x0 items IH]; intros n result Hin; simpl in Hin.
  { destruct Hin. }
  assert (Hshift : ∀ result',
    In (Invoke k x) (snd (for_index walk f (S n) items result')) →
    (∃ i, k = KIdx (n + i) ∧ (x0 :: items) !! i = Some x)
    ∨ (∃ i x1 y, (x0 :: items) !! i = Some x1 ∧ f (KIdx (n + i)) x1 = Return y
                 ∧ In (Invoke k x) (snd (walk y)))).
  { intros result' Hr. destruct (IH _ _ Hr) as [(i & -> & Hi)|(i & x1 & y & Hi & Hf & Hy)].
    - left. exists (S i). split; [f_equal; lia | exact Hi].
    - right. exists (S i), x1, y. repeat split; auto.
      replace (n + S i) with (S n + i) by lia. exact Hf. }
  apply In_bind in Hin. destruct Hin as [Hin|(element & Hret & Hin)].
  - simpl in Hin. destruct Hin as [Heq|[]]. inversion Heq; subst.
    left. exists 0. split; [f_equal; lia | reflexivity].
  - simpl in Hret. destruct (is_undefined element) eqn:Hu; [eauto|].
    apply In_bind in Hin. destruct Hin as [Hin|(c & _ & Hin)]; [|eauto].
    right. exists 0, x0, element. repeat split; auto.
    replace (n + 0) with n by lia. exact Hret.
Qed.

Lemma for_in_calls walk f props result k x :
  In (Invoke k x) (snd (for_in walk f props result)) →
  (∃ s, k = KStr s ∧ In (s, x) props)
  ∨ (∃ s x0 y, In (s, x0) props ∧ f (KStr s) x0 = Return y
               ∧ In (Invoke k x) (snd (walk y))).
Proof.
  revert result. induction props as [|[s0 x0] props IH]; intros result Hin; simpl in Hin.
  { destruct Hin. }
  assert (Hshift : ∀ result',
    In (Invoke k x) (snd (for_in walk f props result')) →
    (∃ s, k = KStr s ∧ In (s, x) ((s0, x0) :: props))
    ∨ (∃ s x1 y, In (s, x1) ((s0, x0) :: props) ∧ f (KStr s) x1 = Return y
                 ∧ In (Invoke k x) (snd (walk y)))).
  { intros result' Hr. destruct (IH _ Hr) as [(s & -> & Hi)|(s & x1 & y & Hi & Hf & Hy)].
    - left. exists s. split; [reflexivity | now right].
    - right. exists s, x1, y. repeat split; auto. now right. }
  apply In_bind in Hin. destruct Hin as [Hin|(element & Hret & Hin)].
  - simpl in Hin. destruct Hin as [Heq|[]]. inversion Heq; subst.
    left. exists s0. split; [reflexivity | now left].
  - simpl in Hret. destruct (is_undefined element) eqn:Hu; [eauto|].
    apply In_bind in Hin. destruct Hin as [Hin|(c & _ & Hin)]; [|eauto].
    right. exists s0, x0, element. repeat split; auto. now left.
Qed.

(** The calls of the walk are on entries only: of the value walked, or of
    a value the callback itself returned. *)
Lemma clone_calls fuel f v k x :
  In (Invoke k x) (snd (clone fuel f v)) →
  is_entry v k x ∨ ∃ k0 x0 w, f k0 x0 = Return w ∧ is_entry w k x.
Proof.
  revert v. induction fuel as [|fuel IH]; intros v Hin; simpl in Hin.
  { destruct Hin. }
  destruct v; simpl in Hin; try (now destruct Hin).
  - apply In_bind in Hin. destruct Hin as [Hin|(result & _ & [])].
    apply for_index_calls in Hin.
    destruct Hin as [(i & -> & Hi)|(i & x0 & y & Hi & Hf & Hy)].
    + left. exact Hi.
    + right. destruct (IH _ Hy) as [He|He]; eauto.
  - apply In_bind in Hin. destruct Hin as [Hin|(result & _ & [])].
    apply for_in_calls in Hin.
    destruct Hin as [(s & -> & Hi)|(s & x0 & y & Hi & Hf & Hy)].
    + left. exact Hi.
    + right. destruct (IH _ Hy) as [He|He]; eauto.
Qed.

Lemma clone_same_kind fuel f v c :
  fst (clone fuel f v) = Return c → same_kind v c.
Proof.
  destruct fuel as [|fuel]; simpl; [discriminate|].
  destruct v; simpl; try (intros [= <-]; eauto; reflexivity).
  - intros Hb. apply bind_Return in Hb. destruct Hb as (l & _ & [= <-]). eauto.
  - intros Hb. apply bind_Return in Hb. destruct Hb as (l & _ & [= <-]). eauto.
Qed.

Lemma for_index_drop_all walk n items result :
  fst (for_index walk drop_all n items result) = Return result.
Proof.
  revert n result. induction items as [|x items IH]; intros; simpl; auto.
  specialize (IH (S n) result).
  destruct (for_index walk drop_all (S n) items result); simpl in *; auto.
Qed.

Lemma for_in_drop_all walk props result :
  fst (for_in walk drop_all props result) = Return result.
Proof.
  revert result. induction props as [|[k x] props IH]; intros; simpl; auto.
  specialize (IH result).
  destruct (for_in walk drop_all props result); simpl in *; auto.
Qed.

Lemma clone_drop_all fuel v : fst (clone (S fuel) drop_all v) = Return (husk v).
Proof.
  destruct v; simpl; auto.
  - rewrite fst_bind, for_index_drop_all. reflexivity.
  - rewrite fst_bind, for_in_drop_all. reflexivity.
Qed.

(** Every call of the walk is on an offered entry. *)
Lemma clone_calls_offered fuel f v k x :
  In (Invoke k x) (snd (clone fuel f v)) → offered f v k x.
Proof.
  revert v. induction fuel as [|fuel IH]; intros v Hin; simpl in Hin.
  { destruct Hin. }
  destruct v; simpl in Hin; try (now destruct Hin).
  - apply In_bind in Hin. destruct Hin as [Hin|(result & _ & [])].
    apply for_index_calls in Hin.
    destruct Hin as [(i & -> & Hi)|(i & x0 & y & Hi & Hf & Hy)].
    + now apply offered_entry.
    + apply (offered_inside f (VArray items) (KIdx (0 + i)) x0 y); auto.
  - apply In_bind in Hin. destruct Hin as [Hin|(result & _ & [])].
    apply for_in_calls in Hin.
    destruct Hin as [(s & -> & Hi)|(s & x0 & y & Hi & Hf & Hy)].
    + now apply offered_entry.
    + apply (offered_inside f (VObject props) (KStr s) x0 y); auto.
Qed.

(** A loop that returns has called the callback on every element, and has
    walked every value the callback answered. *)
Lemma for_index_offers walk f n items result out i x :
  fst (for_index walk f n items result) = Return out →
  items !! i = Some x →
  In (Invoke (KIdx (n + i)) x) (snd (for_index walk f n items result))
  ∧ ∀ y, f (KIdx (n + i)) x = Return y → is_undefined y = false →
         (∃ c, fst (walk y) = Return c)
         ∧ ∀ e, In e (snd (walk y)) → In e (snd (for_index walk f n items result)).
Proof.
  revert n result i. induction items as [|x0 items IH]; intros n result i Hret Hi;
    [discriminate|].
  simpl in Hret |- *. rewrite fst_bind in Hret. rewrite snd_bind.
  unfold call in *. simpl in *.
  destruct (f (KIdx n) x0) as [element| |] eqn:Hf; try discriminate.
  destruct i as [|i]; simpl in Hi.
  - injection Hi as ->. replace (n + 0) with n by lia. split; [now left|].
    intros y Hy Hu. rewrite Hf in Hy. injection Hy as ->. rewrite Hu in *.
    rewrite fst_bind in Hret. rewrite snd_bind.
    destruct (fst (walk y)) as [c| |] eqn:Hw; try discriminate.
    split; [eauto|]. intros e He. right. apply in_or_app. now left.
  - replace (n + S i) with (S n + i) by lia.
    destruct (is_undefined element).
    + destruct (IH (S n) result i Hret Hi) as [Ha Hb]. split; [now right|].
      intros y Hy Hu. destruct (Hb y Hy Hu) as [Hc Hd]. split; [exact Hc|].
      intros e He. right. auto.
    + rewrite fst_bind in Hret. rewrite snd_bind.
      destruct (fst (walk element)) as [c| |] eqn:Hw; try discriminate.
      destruct (IH (S n) (result ++ [c]) i Hret Hi) as [Ha Hb]. split.
      * right. apply in_or_app. now right.
      * intros y Hy Hu. destruct (Hb y Hy Hu) as [Hc Hd]. split; [exact Hc|].
        intros e He. right. apply in_or_app. right. auto.
Qed.

Lemma for_in_offers walk f props result out s x :
  fst (for_in walk f props result) = Return out →
  In (s, x) props →
  In (Invoke (KStr s) x) (snd (for_in walk f props result))
  ∧ ∀ y, f (KStr s) x = Return y → is_undefined y = false →
         (∃ c, fst (walk y) = Return c)
         ∧ ∀ e, In e (snd (walk y)) → In e (snd (for_in walk f props result)).
Proof.
  revert result. induction props as [|[s0 x0] props IH]; intros result Hret Hi;
    [destruct Hi|].
  simpl in Hret |- *. rewrite fst_bind in Hret. rewrite snd_bind.
  unfold call in *. simpl in *.
  destruct (f (KStr s0) x0) as [element| |] eqn:Hf; try discriminate.
  assert (Hrest : ∀ result',
    fst (for_in walk f props result') = Return out → In (s, x) props →
    ∀ more, (∀ e, In e (snd (for_in walk f props result')) → In e more) →
    In (Invoke (KStr s) x) more
    ∧ ∀ y, f (KStr s) x = Return y → is_undefined y = false →
           (∃ c, fst (walk y) = Return c) ∧ ∀ e, In e (snd (walk y)) → In e more).
  { intros result' Hr Hin more Hmore. destruct (IH result' Hr Hin) as [Ha Hb].
    split; [auto|]. intros y Hy Hu. destruct (Hb y Hy Hu) as [Hc Hd]. split; auto. }
  destruct Hi as [[= -> ->]|Hi].
  - split; [now left|].
    intros y Hy Hu. rewrite Hf in Hy. injection Hy as ->. rewrite Hu in *.
    rewrite fst_bind in Hret. rewrite snd_bind.
    destruct (fst (walk y)) as [c| |] eqn:Hw; try discriminate.
    split; [eauto|]. intros e He. right. apply in_or_app. now left.
  - destruct (is_undefined element).
    + refine (Hrest result Hret Hi (_ :: _) _). intros e He. now right.
    + rewrite fst_bind in Hret. rewrite snd_bind.
      destruct (fst (walk element)) as [c| |] eqn:Hw; try discriminate.
      refine (Hrest _ Hret Hi (_ :: _ ++ _) _).
      intros e He. right. apply in_or_app. now right.
Qed.

Lemma offered_not_undefined f y k x : offered f y k x → is_undefined y = false.
Proof. destruct 1 as [v k x He|v k0 x0 y k x He _ _]; destruct v; auto; destruct He. Qed.

(** A walk that returns has called the callback on every offered entry. *)
Lemma clone_offers f v k x :
  offered f v k x →
  ∀ fuel c, fst (clone fuel f v) = Return c → In (Invoke k x) (snd (clone fuel f v)).
Proof.
  induction 1 as [v k x He|v k0 x0 y k x He Hf Hoff IH]; intros [|fuel] c Hret;
    try discriminate.
  - destruct v, k; simpl in He; try contradiction; simpl in Hret |- *;
      rewrite fst_bind in Hret; rewrite snd_bind; apply in_or_app; left.
    + destruct (fst (for_index _ _ _ _ _)) as [out| |] eqn:Hloop; try discriminate.
      now destruct (for_index_offers _ _ _ _ _ _ _ _ Hloop He).
    + destruct (fst (for_in _ _ _ _)) as [out| |] eqn:Hloop; try discriminate.
      now destruct (for_in_offers _ _ _ _ _ _ _ Hloop He).
  - pose proof (offered_not_undefined _ _ _ _ Hoff) as Hu.
    destruct v, k0; simpl in He; try contradiction; simpl in Hret |- *;
      rewrite fst_bind in Hret; rewrite snd_bind; apply in_or_app; left.
    + destruct (fst (for_index _ _ _ _ _)) as [out| |] eqn:Hloop; try discriminate.
      destruct (for_index_offers _ _ _ _ _ _ _ _ Hloop He) as [_ Hb].
      destruct (Hb y Hf Hu) as [[c' Hc] Hin]. apply Hin. eapply IH, Hc.
    + destruct (fst (for_in _ _ _ _)) as [out| |] eqn:Hloop; try discriminate.
      destruct (for_in_offers _ _ _ _ _ _ _ Hloop He) as [_ Hb].
      destruct (Hb y Hf Hu) as [[c' Hc] Hin]. apply Hin. eapply IH, Hc.
Qed.

(** An exception of the callback ends the walk, and is its outcome. *)
Lemma for_index_throws walk f n items result k x e :
  f k x = Throw e →
  (∀ y, In (Invoke k x) (snd (walk y)) → fst (walk y) = Throw e) →
  In (Invoke k x) (snd (for_index walk f n items result)) →
  fst (for_index walk f n items result) = Throw e.
Proof.
  intros Hf Hwalk. revert n result.
  induction items as [|x0 items IH]; intros n result Hin; [destruct Hin|].
  simpl in Hin |- *. rewrite fst_bind. rewrite snd_bind in Hin.
  unfold call in *. simpl in *.
  destruct Hin as [[= <- <-]|Hin]; [now rewrite Hf|].
  destruct (f (KIdx n) x0) as [element| |] eqn:Hf0; try (now destruct Hin).
  destruct (is_undefined element); [auto|].
  rewrite fst_bind. rewrite snd_bind in Hin. apply in_app_or in Hin.
  destruct Hin as [Hin|Hin]; [now rewrite (Hwalk _ Hin)|].
  destruct (fst (walk element)); try (now destruct Hin). auto.
Qed.

Lemma for_in_throws walk f props result k x e :
  f k x = Throw e →
  (∀ y, In (Invoke k x) (snd (walk y)) → fst (walk y) = Throw e) →
  In (Invoke k x) (snd (for_in walk f props result)) →
  fst (for_in walk f props result) = Throw e.
Proof.
  intros Hf Hwalk. revert result.
  induction props as [|[s0 x0] props IH]; intros result Hin; [destruct Hin|].
  simpl in Hin |- *. rewrite fst_bind. rewrite snd_bind in Hin.
  unfold call in *. simpl in *.
  destruct Hin as [[= <- <-]|Hin]; [now rewrite Hf|].
  destruct (f (KStr s0) x0) as [element| |] eqn:Hf0; try (now destruct Hin).
  destruct (is_undefined element); [auto|].
  rewrite fst_bind. rewrite snd_bind in Hin. apply in_app_or in Hin.
  destruct Hin as [Hin|Hin]; [now rewrite (Hwalk _ Hin)|].
  destruct (fst (walk element)); try (now destruct Hin). auto.
Qed.

Lemma clone_throws fuel f v k x e :
  f k x = Throw e →
  In (Invoke k x) (snd (clone fuel f v)) → fst (clone fuel f v) = Throw e.
Proof.
  intros Hf. revert v. induction fuel as [|fuel IH]; intros v Hin; [destruct Hin|].
  destruct v; simpl in Hin |- *; try (now destruct Hin).
  - rewrite fst_bind. rewrite snd_bind in Hin. apply in_app_or in Hin.
    destruct Hin as [Hin|Hin].
    + now rewrite (for_index_throws _ _ _ _ _ _ _ _ Hf IH Hin).
    + destruct (fst (for_index _ _ _ _ _)); now destruct Hin.
  - rewrite fst_bind. rewrite snd_bind in Hin. apply in_app_or in Hin.
    destruct Hin as [Hin|Hin].
    + now rewrite (for_in_throws _ _ _ _ _ _ _ Hf IH Hin).
    + destruct (fst (for_in _ _ _ _)); now destruct Hin.
Qed.

(** An entry is strictly less deep than its container. *)
Lemma list_max_In (n : nat) (l : list nat) : In n l → n ≤ list_max l.
Proof.
  induction l as [|m l IH]; simpl; [tauto|]. intros [->|Hin]; [lia|].
  specialize (IH Hin). lia.
Qed.

Lemma entry_depth v k x : is_entry v k x → depth x < depth v.
Proof.
  destruct v as [ | | | | | | | items | props ]; destruct k as [i|key]; simpl; try tauto.
  - intros Hi. apply Nat.lt_succ_r, list_max_In, in_map.
    apply list_elem_of_In. eapply list_elem_of_lookup_2, Hi.
  - intros Hin. apply Nat.lt_succ_r, list_max_In.
    apply (in_map (fun kx => depth (snd kx)) _ _ Hin).
Qed.

Lemma entry_not_self v k : ¬ is_entry v k v.
Proof. intros He. apply entry_depth in He. lia. Qed.

(** With a callback that only keeps or drops entries the walk needs no
    more fuel than the depth of the value. *)
Lemma for_index_filtering walk f n items result :
  filtering f →
  Forall (fun x => ∃ c, fst (walk x) = Return c) items →
  ∃ out, fst (for_index walk f n items result) = Return out.
Proof.
  intros Hf Hall. revert n result. induction Hall as [|x items [c Hc] _ IH];
    intros n result; simpl; [eauto|].
  rewrite fst_bind. unfold call; simpl.
  destruct (Hf (KIdx n) x) as [-> | ->]; simpl; [|apply IH].
  destruct (is_undefined x); [apply IH|]. rewrite fst_bind, Hc. apply IH.
Qed.

Lemma for_in_filtering walk f props result :
  filtering f →
  Forall (fun kx => ∃ c, fst (walk (snd kx)) = Return c) props →
  ∃ out, fst (for_in walk f props result) = Return out.
Proof.
  intros Hf Hall. revert result. induction Hall as [|[k x] props [c Hc] _ IH];
    intros result; simpl; [eauto|].
  rewrite fst_bind. unfold call; simpl. simpl in Hc.
  destruct (Hf (KStr k) x) as [-> | ->]; simpl; [|apply IH].
  destruct (is_undefined x); [apply IH|]. rewrite fst_bind, Hc. apply IH.
Qed.

Lemma clone_filtering fuel f v :
  filtering f → depth v ≤ fuel → ∃ c, fst (clone fuel f v) = Return c.
Proof.
  intros Hf. revert v. induction fuel as [|fuel IH]; intros v Hd.
  { destruct v; simpl in Hd; lia. }
  destruct v as [ | | | | | | | items | props ]; simpl; eauto.
  - rewrite fst_bind.
    destruct (for_index_filtering (clone fuel f) f 0 items [] Hf) as [out ->]; [|eauto].
    apply Forall_forall. intros x Hx. apply IH.
    assert (depth x < depth (VArray items)); [|simpl in *; lia].
    apply list_elem_of_lookup_1 in Hx. destruct Hx as [i Hi].
    apply (entry_depth (VArray items) (KIdx i) x Hi).
  - rewrite fst_bind.
    destruct (for_in_filtering (clone fuel f) f props [] Hf) as [out ->]; [|eauto].
    apply Forall_forall. intros [k x] Hx. apply IH.
    assert (depth x < depth (VObject props)); [|simpl in *; lia].
    apply (entry_depth (VObject props) (KStr k) x). apply list_elem_of_In, Hx.
Qed.

Lemma filtering_replacer_array keys : filtering (replacer_function (ReplacerArray keys)).
Proof. intros k x. simpl. destruct (existsb _ _); auto. Qed.

Lemma filtering_replacer_undefined : filtering (replacer_function ReplacerUndefined).
Proof. intros k x. now left. Qed.

(** *** The walk that keeps every entry *)

Lemma for_index_keep walk n items result :
  Forall (fun x => fst (walk x) = Return (cloned x)) items →
  fst (for_index walk (replacer_function ReplacerUndefined) n items result)
  = Return (result ++ keep_items cloned items).
Proof.
  intros Hall. revert n result. induction Hall as [|x items Hx _ IH]; intros n result; simpl.
  { now rewrite app_nil_r. }
  rewrite fst_bind. unfold call; simpl. destruct (is_undefined x); [apply IH|].
  rewrite fst_bind, Hx, IH. now rewrite <- app_assoc.
Qed.

Lemma for_in_keep walk props result :
  Forall (fun kx => fst (walk (snd kx)) = Return (cloned (snd kx))) props →
  fst (for_in walk (replacer_function ReplacerUndefined) props result)
  = Return (keep_props cloned props result).
Proof.
  intros Hall. revert result. induction Hall as [|[k x] props Hx _ IH]; intros result; simpl.
  { reflexivity. }
  rewrite fst_bind. unfold call; simpl. simpl in Hx. destruct (is_undefined x); [apply IH|].
  rewrite fst_bind, Hx. apply IH.
Qed.

Lemma clone_keep fuel v :
  depth v ≤ fuel → fst (clone fuel (replacer_function ReplacerUndefined) v) = Return (cloned v).
Proof.
  revert v. induction fuel as [|fuel IH]; intros v Hd.
  { destruct v; simpl in Hd; lia. }
  destruct v as [ | | | | | | | items | props ]; simpl; auto.
  - rewrite fst_bind, for_index_keep; [reflexivity|].
    apply Forall_forall. intros x Hx. apply IH.
    assert (depth x < depth (VArray items)); [|simpl in *; lia].
    apply list_elem_of_lookup_1 in Hx. destruct Hx as [i Hi].
    apply (entry_depth (VArray items) (KIdx i) x Hi).
  - rewrite fst_bind, for_in_keep; [reflexivity|].
    apply Forall_forall. intros [k x] Hx. apply IH.
    assert (depth x < depth (VObject props)); [|simpl in *; lia].
    apply (entry_depth (VObject props) (KStr k) x). apply list_elem_of_In, Hx.
Qed.


Lemma set_prop_fresh {A} (props : list (string * A)) k (x : A) :
  ¬ In k (map fst props) → set_prop props k x = props ++ [(k, x)].
Proof.
  induction props as [|[k0 x0] props IH]; simpl; [reflexivity|].
  intros Hn. destruct (String.eqb_spec k0 k) as [->|Hne]; [tauto|].
  rewrite IH; tauto.
Qed.


(** *** The allow-list *)

Lemma existsb_key_names s names :
  existsb (key_eqb (KStr s)) (map KStr names) = existsb (String.eqb s) names.
Proof. induction names as [|n names IH]; simpl; [reflexivity | now rewrite IH]. Qed.

Lemma existsb_idx_names n names : existsb (key_eqb (KIdx n)) (map KStr names) = false.
Proof. induction names as [|m names IH]; simpl; auto. Qed.

Lemma for_index_allow_names walk names n items result :
  fst (for_index walk (replacer_function (ReplacerArray (map KStr names))) n items result)
  = Return result.
Proof.
  revert n. induction items as [|x items IH]; intros n; simpl; [reflexivity|].
  rewrite fst_bind. unfold call; simpl. rewrite existsb_idx_names. simpl. apply IH.
Qed.

Lemma forallb_set_prop {A} (P : string * A → bool) props k (x : A) :
  forallb P props = true → P (k, x) = true → forallb P (set_prop props k x) = true.
Proof.
  intros Hall Hp. induction props as [|[k0 x0] props IH]; simpl in *.
  { now rewrite Hp. }
  apply andb_prop in Hall. destruct Hall as [H0 Hrest].
  destruct (String.eqb_spec k0 k) as [->|Hne]; simpl.
  - now rewrite Hp, Hrest.
  - now rewrite H0, IH.
Qed.

Lemma for_in_allow_names walk names props result out :
  (∀ x c, fst (walk x) = Return c → names_within names c = true) →
  forallb (fun kx => existsb (String.eqb (fst kx)) names
                     && names_within names (snd kx)) result = true →
  fst (for_in walk (replacer_function (ReplacerArray (map KStr names))) props result)
  = Return out →
  forallb (fun kx => existsb (String.eqb (fst kx)) names
                     && names_within names (snd kx)) out = true.
Proof.
  intros Hwalk. revert result. induction props as [|[k x] props IH]; intros result Hres.
  { simpl. now intros [= <-]. }
  simpl. rewrite fst_bind. unfold call; simpl. rewrite existsb_key_names.
  destruct (existsb (String.eqb k) names) eqn:Hk; simpl; [|now apply IH].
  destruct (is_undefined x); [now apply IH|].
  rewrite fst_bind. destruct (fst (walk x)) as [c| |] eqn:Hc; try discriminate.
  apply IH. apply forallb_set_prop; [exact Hres|]. simpl.
  now rewrite Hk, (Hwalk _ _ Hc).
Qed.

Lemma clone_allow_names names fuel v c :
  fst (clone fuel (replacer_function (ReplacerArray (map KStr names))) v) = Return c →
  names_within names c = true.
Proof.
  remember (replacer_function (ReplacerArray (map KStr names))) as f eqn:Hf.
  revert v c. induction fuel as [|fuel IH]; intros v c; [discriminate|].
  destruct v as [ | | | | | | | items | props ]; simpl; try (now intros [= <-]).
  - rewrite fst_bind. subst f. rewrite for_index_allow_names. now intros [= <-].
  - rewrite fst_bind. destruct (fst (for_in _ _ _ _)) as [out| |] eqn:Hloop; try discriminate.
    intros [= <-]. subst f.
    apply (for_in_allow_names _ _ _ _ _ IH (eq_refl : forallb _ [] = true) Hloop).
Qed.

Lemma names_within_attributes names c a content :
  names_within names c = true →
  In (WriteAttribute a content) (content_calls c) → In content names.
Proof.
  revert a content.
  induction c as [ | | b | n | s | d | f | items IH | props IH ] using value_ind';
    intros a content Hn Hin; simpl in *; try tauto;
    try (destruct Hin as [Hin|[]]; discriminate).
  - destruct (toISOString d); simpl in Hin; [destruct Hin as [Hin|[]]; discriminate | tauto].
  - destruct items; [destruct Hin | discriminate].
  - induction IH as [|[k x] props Hx _ IHl]; simpl in *; [tauto|].
    apply andb_prop in Hn. destruct Hn as [Hkx Hrest].
    apply andb_prop in Hkx. destruct Hkx as [Hk Hxn].
    apply in_app_or in Hin. destruct Hin as [Hin|Hin]; [|now apply IHl].
    unfold element_calls in Hin. destruct (is_function x); [destruct Hin|].
    simpl in Hin. destruct Hin as [Hin|[Hin|Hin]]; [discriminate| |].
    + injection Hin as _ <-. apply existsb_exists in Hk.
      destruct Hk as (s & Hs & Heq). apply String.eqb_eq in Heq. now subst.
    + apply in_app_or in Hin. destruct Hin as [Hin|[Hin|[]]]; [|discriminate].
      eapply Hx; eauto.
Qed.

(** ** The serialize pass *)

Lemma extend_extend w cs1 cs2 : extend (extend w cs1) cs2 = extend w (cs1 ++ cs2).
Proof. unfold extend; simpl. now rewrite <- app_assoc. Qed.

Lemma emit_extend w c : emit w c = extend w [c].
Proof. reflexivity. Qed.

Lemma extend_nil w : extend w [] = w.
Proof. destruct w; unfold extend; simpl. now rewrite app_nil_r. Qed.

Lemma write_elements_spec items :
  Forall (fun x => ∀ w, writes x w (stringifyValue x w)) items →
  ∀ n w,
    match write_elements stringifyValue n items w with
    | Return w' =>
        forallb (fun x => is_function x || encodable x) items = true
        ∧ w' = extend w (flat_indexed
                 (fun n x => element_calls (string_of_nat n) x (content_calls x)) n items)
    | Throw _ => forallb (fun x => is_function x || encodable x) items = false
    | OutOfFuel => False
    end.
Proof.
  induction 1 as [|x items Hx _ IH]; intros n w; simpl.
  { split; [reflexivity | now rewrite extend_nil]. }
  unfold element_calls. destruct (is_function x) eqn:Hf; simpl.
  { apply IH. }
  specialize (Hx (emit (emit w (StartElement (getTagname x)))
                       (WriteAttribute "name" (string_of_nat n)))).
  destruct (stringifyValue x _) as [w1|e|]; simpl in Hx; [|now rewrite Hx|destruct Hx].
  destruct Hx as [-> ->]. simpl.
  specialize (IH (S n) (emit (extend (emit (emit w (StartElement (getTagname x)))
                       (WriteAttribute "name" (string_of_nat n))) (content_calls x)) EndElement)).
  destruct (write_elements _ _ _ _) as [w2|e|]; auto.
  destruct IH as [-> ->]. split; [reflexivity|].
  rewrite !emit_extend, !extend_extend. f_equal. now rewrite <- !app_assoc.
Qed.

Lemma write_properties_spec props :
  Forall (fun kx => ∀ w, writes (snd kx) w (stringifyValue (snd kx) w)) props →
  ∀ w,
    match write_properties stringifyValue props w with
    | Return w' =>
        forallb (fun kx => is_function (snd kx) || encodable (snd kx)) props = true
        ∧ w' = extend w (flat_map
                 (fun kx => element_calls (fst kx) (snd kx) (content_calls (snd kx))) props)
    | Throw _ => forallb (fun kx => is_function (snd kx) || encodable (snd kx)) props = false
    | OutOfFuel => False
    end.
Proof.
  induction 1 as [|[k x] props Hx _ IH]; intros w; simpl.
  { split; [reflexivity | now rewrite extend_nil]. }
  simpl in Hx. unfold element_calls. simpl. destruct (is_function x) eqn:Hf; simpl.
  { apply IH. }
  specialize (Hx (emit (emit w (StartElement (getTagname x))) (WriteAttribute "name" k))).
  destruct (stringifyValue x _) as [w1|e|]; simpl in Hx; [|now rewrite Hx|destruct Hx].
  destruct Hx as [-> ->]. simpl.
  specialize (IH (emit (extend (emit (emit w (StartElement (getTagname x)))
                       (WriteAttribute "name" k)) (content_calls x)) EndElement)).
  destruct (write_properties _ _ _) as [w2|e|]; auto.
  destruct IH as [-> ->]. split; [reflexivity|].
  rewrite !emit_extend, !extend_extend. f_equal. now rewrite <- !app_assoc.
Qed.

Lemma stringifyValue_spec v : ∀ w, writes v w (stringifyValue v w).
Proof.
  induction v as [ | | b | n | s | d | f | items IH | props IH ] using value_ind';
    intros w; simpl; try (split; [reflexivity | now rewrite ?extend_nil]); auto.
  - unfold writes; simpl. destruct (toISOString d); simpl; auto.
  - apply (write_elements_spec items IH).
  - apply (write_properties_spec props IH).
Qed.

Lemma stringifyValue_Return v w w' :
  stringifyValue v w = Return w' → w' = extend w (content_calls v).
Proof. intros E. pose proof (stringifyValue_spec v w) as S. rewrite E in S. apply S. Qed.

Lemma stringifyValue_encodable v w :
  encodable v = true → stringifyValue v w = Return (extend w (content_calls v)).
Proof.
  intros E. pose proof (stringifyValue_spec v w) as S.
  destruct (stringifyValue v w); simpl in S; [| congruence | destruct S].
  destruct S as [_ ->]. reflexivity.
Qed.

Lemma Stringify_Return fuel v rep space w t :
  Stringify fuel v rep space = (Return w, t) →
  ∃ ind c, space_string space = Return ind
    ∧ clone fuel (replacer_function rep) v = (Return c, t)
    ∧ encodable c = true
    ∧ w = {| indent := ind; calls := document_calls c |}.
Proof.
  unfold Stringify, bind, lift, ret.
  destruct (space_string space) as [ind|e|]; [|discriminate..].
  destruct (clone fuel (replacer_function rep) v) as [[c|e|] t0]; [|discriminate..].
  pose proof (stringifyValue_spec c
    (emit (emit {| indent := ind; calls := [] |} (StartDocument "1.0" "UTF-8" true))
          (StartElement (getTagname c)))) as S.
  destruct (stringifyValue c _) as [w1|e|]; simpl in S; [|discriminate..].
  destruct S as [Henc ->]. simpl. rewrite !app_nil_r. intros [= <- <-].
  exists ind, c. repeat split; auto.
  unfold emit, extend, document_calls; simpl. f_equal. now rewrite <- app_assoc.
Qed.

Lemma Stringify_intro fuel v rep space ind c t :
  space_string space = Return ind →
  clone fuel (replacer_function rep) v = (Return c, t) →
  encodable c = true →
  Stringify fuel v rep space = (Return {| indent := ind; calls := document_calls c |}, t).
Proof.
  intros Hs Hc He. unfold Stringify, bind, lift, ret. rewrite Hs, Hc.
  rewrite (stringifyValue_encodable _ _ He). simpl. rewrite !app_nil_r.
  unfold emit, extend, document_calls; simpl. do 2 f_equal. now rewrite <- app_assoc.
Qed.

(** The trace of [Stringify] is the trace of its clone pass. *)
Lemma Stringify_trace fuel v rep space ind :
  space_string space = Return ind →
  snd (Stringify fuel v rep space) = snd (clone fuel (replacer_function rep) v).
Proof.
  intros Hs. unfold Stringify, bind, lift, ret. rewrite Hs.
  destruct (clone fuel (replacer_function rep) v) as [[c|e|] t0]; simpl; auto.
  destruct (stringifyValue c _); simpl; now rewrite ?app_nil_r.
Qed.

(** ** Named elements *)

Lemma named_app cs1 cs2 : named cs1 → named cs2 → named (cs1 ++ cs2).
Proof.
  induction 1; simpl; intros;
    [assumption | apply named_element; auto | apply named_other; auto].
Qed.

Lemma named_element_calls k x content :
  named content → named (element_calls k x content).
Proof.
  intros Hc. unfold element_calls. destruct (is_function x); [constructor|].
  simpl. constructor. apply named_app; [exact Hc|].
  constructor; [discriminate | constructor].
Qed.

Lemma named_text s : named [WriteText s].
Proof. constructor; [discriminate | constructor]. Qed.

Lemma content_calls_named v : named (content_calls v).
Proof.
  induction v as [ | | b | n | s | d | f | items IH | props IH ] using value_ind';
    simpl; try apply named_text; try constructor.
  - destruct (toISOString d); [apply named_text | constructor].
  - generalize 0. induction IH as [|x items Hx _ IHl]; intros n; simpl; [constructor|].
    apply named_app; [now apply named_element_calls | apply IHl].
  - induction IH as [|[k x] props Hx _ IHl]; simpl; [constructor|].
    apply named_app; [now apply named_element_calls | apply IHl].
Qed.

(** The element of an entry is a block of the calls made for its container,
    under the entry's key. *)
Lemma flat_indexed_lookup {A B} (f : nat → A → list B) n l i x :
  l !! i = Some x →
  ∃ before after, flat_indexed f n l = before ++ f (n + i) x ++ after.
Proof.
  revert n i. induction l as [|y l IH]; intros n i Hi; [discriminate|].
  destruct i as [|i]; simpl in *.
  - injection Hi as ->. exists [], (flat_indexed f (S n) l).
    now replace (n + 0) with n by lia.
  - destruct (IH (S n) i Hi) as (before & after & ->).
    exists (f n y ++ before), after.
    replace (n + S i) with (S n + i) by lia. now rewrite <- app_assoc.
Qed.

Lemma content_calls_entry c k x :
  is_entry c k x →
  ∃ before after,
    content_calls c = before ++ element_calls (key_text k) x (content_calls x) ++ after.
Proof.
  destruct c as [ | | | | | | | items | props ]; destruct k as [i|key]; simpl; try tauto.
  - intros Hi.
    destruct (flat_indexed_lookup
                (fun n x => element_calls (string_of_nat n) x (content_calls x))
                0 items i x Hi) as (before & after & E).
    eauto.
  - intros Hin. induction props as [|[k0 x0] props IH]; [destruct Hin|].
    destruct Hin as [[= -> ->]|Hin]; simpl.
    + exists [], (flat_map (fun kx => element_calls (fst kx) (snd kx)
                                        (content_calls (snd kx))) props). reflexivity.
    + destruct (IH Hin) as (before & after & ->).
      exists (element_calls k0 x0 (content_calls x0) ++ before), after.
      now rewrite <- app_assoc.
Qed.




(** ** The handlers of [Parse] *)

Lemma feed_app evs1 evs2 st : feed (evs1 ++ evs2) st = bind (feed evs1 st) (feed evs2).
Proof.
  revert st. induction evs1 as [|ev evs1 IH]; intros st; simpl.
  { unfold bind, ret. destruct (feed evs2 st). reflexivity. }
  destruct (handle st ev) as [[st1|e|] t]; unfold bind; simpl; auto.
  rewrite IH. unfold bind. destruct (feed evs1 st1) as [[st2|e|] t1]; simpl.
  - destruct (feed evs2 st2). now rewrite app_assoc.
  - reflexivity.
  - reflexivity.
Qed.

(** The handlers other than [onerror] write nothing to the console, and no
    handler calls the reviver. *)
Lemma handle_trace st ev :
  snd (handle st ev) = match ev with Error e => [Console e] | _ => [] end.
Proof. destruct ev; reflexivity. Qed.

Lemma feed_trace evs st st' :
  fst (feed evs st) = Return st' → snd (feed evs st) = errors evs.
Proof.
  revert st. induction evs as [|ev evs IH]; intros st; simpl; [reflexivity|].
  rewrite fst_bind, snd_bind, handle_trace.
  destruct (fst (handle st ev)) as [st1| |]; try discriminate.
  intros Hret. now rewrite (IH _ Hret).
Qed.

Lemma feed_no_call evs st k x : ¬ In (Invoke k x) (snd (feed evs st)).
Proof.
  revert st. induction evs as [|ev evs IH]; intros st; simpl; [tauto|].
  rewrite snd_bind, handle_trace. intros Hin. apply in_app_or in Hin.
  destruct Hin as [Hin|Hin].
  - destruct ev; simpl in Hin; try tauto. destruct Hin as [Hin|[]]. discriminate.
  - destruct (fst (handle st ev)); [now apply IH in Hin | destruct Hin..].
Qed.

(** An error event changes nothing but the console. *)
Lemma feed_silence evs st : fst (feed evs st) = fst (feed (silence evs) st).
Proof.
  revert st. induction evs as [|ev evs IH]; intros st; simpl; [reflexivity|].
  destruct ev; simpl; rewrite ?fst_bind; simpl;
    try (match goal with |- context [match ?o with _ => _ end] => destruct o end; auto).
  apply IH.
Qed.




(** Text met while no element is open is ignored. *)
Lemma feed_text_outside t evs st :
  path st = [] → feed (Text t :: evs) st = feed evs st.
Proof.
  intros Hp. simpl. unfold lift, ontext. rewrite Hp. unfold bind.
  destruct (feed evs st). reflexivity.
Qed.

(** The outcome and the effects of [Parse], phase by phase. *)
Lemma Parse_outcome fuel xml reviver :
  fst (Parse fuel xml reviver) =
  match fst (feed (events xml) initial) with
  | Return st =>
      match failure xml with
      | Some e => Throw e
      | None =>
          match read_root st with
          | Return v =>
              match reviver with
              | Some r => fst (revive fuel r v)
              | None => Return v
              end
          | Throw e => Throw e
          | OutOfFuel => OutOfFuel
          end
      end
  | Throw e => Throw e
  | OutOfFuel => OutOfFuel
  end.
Proof.
  unfold Parse. rewrite fst_bind.
  destruct (fst (feed (events xml) initial)) as [st| |]; auto.
  rewrite fst_bind. unfold lift at 1. simpl. destruct (failure xml); auto.
  rewrite fst_bind. unfold lift. simpl. destruct (read_root st); auto.
  destruct reviver; reflexivity.
Qed.

Lemma Parse_effects fuel xml reviver :
  snd (Parse fuel xml reviver) =
  snd (feed (events xml) initial)
  ++ match fst (feed (events xml) initial), failure xml, reviver with
     | Return st, None, Some r =>
         match read_root st with
         | Return v => snd (revive fuel r v)
         | _ => []
         end
     | _, _, _ => []
     end.
Proof.
  unfold Parse. rewrite snd_bind. f_equal.
  destruct (fst (feed (events xml) initial)) as [st| |]; auto.
  rewrite snd_bind. unfold lift at 1 2. simpl.
  destruct (failure xml); [now destruct reviver|].
  rewrite snd_bind. unfold lift. simpl.
  destruct (read_root st); destruct reviver; reflexivity.
Qed.

(** The walk leaves no other effect than its calls. *)
Lemma for_index_effects walk f n items result eff :
  (∀ y, In eff (snd (walk y)) → ∃ k x, eff = Invoke k x) →
  In eff (snd (for_index walk f n items result)) → ∃ k x, eff = Invoke k x.
Proof.
  intros Hwalk. revert n result.
  induction items as [|x0 items IH]; intros n result; simpl; [intros []|].
  rewrite snd_bind. unfold call; simpl. intros [<-|Hin]; [eauto|].
  destruct (f (KIdx n) x0) as [element| |]; try (now destruct Hin).
  destruct (is_undefined element); [eauto|]. rewrite snd_bind in Hin.
  apply in_app_or in Hin. destruct Hin as [Hin|Hin]; [eauto|].
  destruct (fst (walk element)); try (now destruct Hin). eauto.
Qed.

Lemma for_in_effects walk f props result eff :
  (∀ y, In eff (snd (walk y)) → ∃ k x, eff = Invoke k x) →
  In eff (snd (for_in walk f props result)) → ∃ k x, eff = Invoke k x.
Proof.
  intros Hwalk. revert result.
  induction props as [|[s0 x0] props IH]; intros result; simpl; [intros []|].
  rewrite snd_bind. unfold call; simpl. intros [<-|Hin]; [eauto|].
  destruct (f (KStr s0) x0) as [element| |]; try (now destruct Hin).
  destruct (is_undefined element); [eauto|]. rewrite snd_bind in Hin.
  apply in_app_or in Hin. destruct Hin as [Hin|Hin]; [eauto|].
  destruct (fst (walk element)); try (now destruct Hin). eauto.
Qed.

Lemma clone_effects fuel f v eff :
  In eff (snd (clone fuel f v)) → ∃ k x, eff = Invoke k x.
Proof.
  revert v. induction fuel as [|fuel IH]; intros v; [intros []|].
  destruct v; simpl; try (now intros []); rewrite snd_bind; intros Hin;
    apply in_app_or in Hin; destruct Hin as [Hin|Hin].
  - eapply for_index_effects; eauto.
  - destruct (fst (for_index _ _ _ _ _)); now destruct Hin.
  - eapply for_in_effects; eauto.
  - destruct (fst (for_in _ _ _ _)); now destruct Hin.
Qed.

(** [Parse] with and without a reviver. *)
Lemma Parse_reviver fuel xml r v :
  fst (Parse fuel xml None) = Return v →
  Parse fuel xml (Some r)
  = (fst (revive fuel r v), snd (Parse fuel xml None) ++ snd (revive fuel r v)).
Proof.
  intros Hv. apply injective_projections; simpl.
  - rewrite Parse_outcome in *.
    destruct (fst (feed (events xml) initial)) as [st| |]; try discriminate.
    destruct (failure xml); try discriminate.
    destruct (read_root st); try discriminate. now injection Hv as ->.
  - rewrite !Parse_effects. rewrite Parse_outcome in Hv.
    destruct (fst (feed (events xml) initial)) as [st| |]; try discriminate.
    destruct (failure xml); try discriminate.
    destruct (read_root st); try discriminate. injection Hv as ->.
    now rewrite app_nil_r.
Qed.

Lemma Parse_no_reviver_trace fuel xml k x :
  ¬ In (Invoke k x) (snd (Parse fuel xml None)).
Proof.
  rewrite Parse_effects. intros Hin. apply in_app_or in Hin.
  destruct Hin as [Hin|Hin]; [now apply feed_no_call in Hin|].
  destruct (fst (feed (events xml) initial)); try (now destruct Hin).
  destruct (failure xml); now destruct Hin.
Qed.

(** ** The document and its root element *)



Lemma Stringify_fuel fuel v rep space :
  filtering (replacer_function rep) → depth v ≤ fuel →
  fst (Stringify fuel v rep space) ≠ OutOfFuel.
Proof.
  intros Hf Hd. destruct (clone_filtering fuel _ v Hf Hd) as [c Hc].
  unfold Stringify. rewrite fst_bind. unfold lift at 1. simpl.
  destruct (space_string space) as [ind| |] eqn:Hs; try discriminate.
  - rewrite fst_bind, Hc, fst_bind. unfold lift. simpl.
    pose proof (stringifyValue_spec c
      (emit (emit {| indent := ind; calls := [] |} (StartDocument "1.0" "UTF-8" true))
            (StartElement (getTagname c)))) as S.
    destruct (stringifyValue c _); simpl in *; [discriminate.. | destruct S].
  - destruct space as [|n|s]; simpl in Hs; try discriminate.
    unfold String_repeat in Hs. destruct (n <? 0)%Z; discriminate.
Qed.

(** ** The events of a document *)

Lemma scan_all_app ind cs1 cs2 sc :
  scan_all ind (cs1 ++ cs2) sc =
  (fst (scan_all ind cs2 (fst (scan_all ind cs1 sc))),
   snd (scan_all ind cs1 sc) ++ snd (scan_all ind cs2 (fst (scan_all ind cs1 sc)))).
Proof.
  revert sc. induction cs1 as [|c cs1 IH]; intros sc; simpl.
  { now destruct (scan_all ind cs2 sc). }
  destruct (scan ind sc c) as [sc1 e1]. rewrite IH.
  destruct (scan_all ind cs1 sc1) as [sc2 e2]. simpl.
  destruct (scan_all ind cs2 sc2) as [sc3 e3]. simpl. now rewrite app_assoc.
Qed.

Lemma nonempty_eqb s : nonempty s = true → String.eqb s "" = false.
Proof. unfold nonempty. now destruct (String.eqb s ""). Qed.

Lemma scan_attributes ind attrs n sc0 opens :
  forallb (fun a => nonempty (snd a)) attrs = true →
  scan_all ind (attribute_calls attrs) {| open_elements := opens; pending := Some (n, sc0) |}
  = ({| open_elements := opens; pending := Some (n, sc0 ++ attrs) |}, []).
Proof.
  revert sc0. induction attrs as [|[a v] attrs IH]; intros sc0 Hne; simpl.
  { now rewrite app_nil_r. }
  simpl in Hne. apply andb_prop in Hne. destruct Hne as [Hv Hne].
  rewrite (nonempty_eqb _ Hv), (IH _ Hne). simpl. now rewrite <- app_assoc.
Qed.

Lemma scan_start ind n sc :
  scan ind sc (StartElement n)
  = ({| open_elements := entered sc; pending := Some (n, []) |},
     snd (flush sc) ++ lead ind (length (entered sc))).
Proof.
  unfold scan, entered. destruct (flush sc) as [sc1 opened]. simpl.
  destruct (open_elements sc1) as [|[p b] rest]; reflexivity.
Qed.

Lemma entered_entered sc :
  entered {| open_elements := entered sc; pending := None |} = entered sc.
Proof.
  unfold entered. simpl.
  destruct (open_elements (fst (flush sc))) as [|[q c] r]; reflexivity.
Qed.

Lemma string_of_nat_nonempty n : nonempty (string_of_nat n) = true.
Proof.
  unfold string_of_nat. destruct (N.of_nat n) as [|p]; [reflexivity|]. simpl.
  pose proof (DecimalPos.Unsigned.to_uint_nonnil p) as Hn.
  destruct (Pos.to_uint p); [congruence|reflexivity..].
Qed.

Lemma settled_not_function c : settled c = true → is_function c = false.
Proof. destruct c; simpl; congruence. Qed.

Lemma scan_children {A} ind (entry_name : nat → A → string) (proj : A → value)
    (entries : list A) :
  Forall (fun e => scans_element ind (proj e)
                   ∧ settled (proj e) = true
                   ∧ ∀ n, nonempty (entry_name n e) = true) entries →
  ∀ n sc, entries ≠ [] →
    scan_all ind
      (flat_indexed (fun n e => element_calls (entry_name n e) (proj e)
                                  (content_calls (proj e))) n entries) sc
    = ({| open_elements := entered sc; pending := None |},
       snd (flush sc)
       ++ flat_indexed (fun n e => element_events ind (length (entered sc))
                                     [("name", entry_name n e)] (proj e)) n entries).
Proof.
  intros Hall. induction Hall as [|e entries (He & Hs & Hname) _ IH]; intros n sc Hne;
    [congruence|].
  assert (Hblock :
    scan_all ind (element_calls (entry_name n e) (proj e) (content_calls (proj e))) sc
    = ({| open_elements := entered sc; pending := None |},
       snd (flush sc) ++ element_events ind (length (entered sc))
                           [("name", entry_name n e)] (proj e))).
  { unfold element_calls. rewrite (settled_not_function _ Hs).
    apply (He [("name", entry_name n e)] sc). simpl. now rewrite Hname. }
  cbn [flat_indexed]. rewrite scan_all_app, Hblock.
  cbn [fst snd]. destruct entries as [|e' entries'].
  { simpl. now rewrite !app_nil_r. }
  rewrite (IH (S n) _ ltac:(discriminate)). rewrite entered_entered.
  cbn [flush pending fst snd app]. now rewrite <- app_assoc.
Qed.

Lemma flat_indexed_const {A B} (f : A → list B) n l :
  flat_indexed (fun _ x => f x) n l = flat_map f l.
Proof. revert n. induction l as [|x l IH]; intros n; simpl; [reflexivity | now rewrite IH]. Qed.

Lemma entered_pending E n a :
  entered {| open_elements := E; pending := Some (n, a) |} = (n, true) :: E.
Proof. reflexivity. Qed.

Lemma flush_pending E n a :
  flush {| open_elements := E; pending := Some (n, a) |}
  = ({| open_elements := (n, false) :: E; pending := None |}, [OpenTag n a false]).
Proof. reflexivity. Qed.

Lemma scan_end_open ind E n :
  scan_all ind [EndElement] {| open_elements := (n, true) :: E; pending := None |}
  = ({| open_elements := E; pending := None |}, margin ind (length E) ++ [CloseTag n]).
Proof. simpl. now rewrite app_nil_r. Qed.

Lemma scan_element ind c : settled c = true → scans_element ind c.
Proof.
  induction c as [ | | b | n | s | d | f | items IH | props IH ] using value_ind';
    intros Hs attrs sc Hattrs; try discriminate;
    cbn [scan_all]; rewrite scan_start; rewrite scan_all_app, scan_attributes by exact Hattrs;
    cbn [fst snd app].
  - (* null *) now rewrite <- app_assoc.
  - (* boolean *) rewrite <- app_assoc. now destruct b.
  - (* number *) rewrite <- app_assoc. simpl in *. now rewrite (nonempty_eqb _ Hs).
  - (* string *) rewrite <- app_assoc. simpl in *. now rewrite (nonempty_eqb _ Hs).
  - (* date *) rewrite <- app_assoc. simpl in *.
    destruct (toISOString d) as [iso|]; [|discriminate].
    simpl. now rewrite (nonempty_eqb _ Hs).
  - (* array *) rewrite <- app_assoc. destruct items as [|x items]; [reflexivity|].
    cbn [settled] in Hs. apply andb_prop in Hs. destruct Hs as [Hs _].
    apply andb_prop in Hs. destruct Hs as [Hs _].
    assert (Hall : Forall (fun e => scans_element ind e ∧ settled e = true
                                    ∧ ∀ n, nonempty (string_of_nat n) = true) (x :: items)).
    { apply Forall_forall. intros e He. rewrite Forall_forall in IH.
      rewrite forallb_forall in Hs. specialize (Hs e (proj1 (list_elem_of_In _ _) He)).
      repeat split; auto using string_of_nat_nonempty. }
    cbn [content_calls getTagname]. rewrite scan_all_app.
    rewrite (scan_children ind (fun n _ => string_of_nat n) (fun e => e) (x :: items)
               Hall 0 _ ltac:(discriminate)).
    cbn [fst snd]. rewrite entered_pending, flush_pending, scan_end_open.
    cbn [fst snd length element_events]. now rewrite <- !app_assoc.
  - (* object *) rewrite <- app_assoc. destruct props as [|kx props]; [reflexivity|].
    cbn [settled] in Hs. apply andb_prop in Hs. destruct Hs as [Hs _].
    apply andb_prop in Hs. destruct Hs as [Hs _].
    assert (Hall : Forall (fun e => scans_element ind (snd e) ∧ settled (snd e) = true
                                    ∧ ∀ n : nat, nonempty (fst e) = true) (kx :: props)).
    { apply Forall_forall. intros e He. rewrite Forall_forall in IH.
      rewrite forallb_forall in Hs. specialize (Hs e (proj1 (list_elem_of_In _ _) He)).
      apply andb_prop in Hs. destruct Hs as [Hk Hs]. repeat split; auto. }
    cbn [content_calls getTagname]. rewrite scan_all_app.
    rewrite <- (flat_indexed_const _ 0 (kx :: props)).
    rewrite (scan_children ind (fun _ e => fst e) snd (kx :: props)
               Hall 0 _ ltac:(discriminate)).
    cbn [fst snd]. rewrite entered_pending, flush_pending, scan_end_open.
    rewrite flat_indexed_const.
    cbn [fst snd length element_events]. now rewrite <- !app_assoc.
Qed.

Lemma sax_events_settled ind c :
  settled c = true →
  sax_events {| indent := ind; calls := document_calls c |} = element_events ind 0 [] c.
Proof.
  intros Hs. unfold sax_events, document_calls. cbn [indent calls].
  replace ([StartDocument "1.0" "UTF-8" true; StartElement (getTagname c)]
           ++ content_calls c ++ [EndElement; EndDocument])
    with ([StartDocument "1.0" "UTF-8" true]
          ++ (StartElement (getTagname c) :: attribute_calls [] ++ content_calls c
              ++ [EndElement]) ++ [EndDocument])
    by (simpl; now rewrite <- app_assoc).
  rewrite !scan_all_app, (scan_element ind c Hs [] _ eq_refl). simpl.
  now rewrite app_nil_r.
Qed.

(** ** The handlers on the events of a document *)

Lemma bind_Return_nil {A B} (a : A) (f : A → traced B) : bind (Return a, []) f = f a.
Proof. unfold bind. now destruct (f a). Qed.

Lemma feed_text_quiet t evs st : quiet st = true → feed (Text t :: evs) st = feed evs st.
Proof.
  intros Hq. cbn [feed handle]. unfold lift, ontext, quiet in *.
  destruct (path st) as [|top p]; [apply bind_Return_nil|].
  apply negb_true_iff in Hq. repeat (apply orb_false_elim in Hq; destruct Hq as [Hq ?]).
  rewrite Hq, H0, H1, H2. apply bind_Return_nil.
Qed.

Lemma feed_margin ind d evs st :
  quiet st = true → feed (margin ind d ++ evs) st = feed evs st.
Proof.
  intros Hq. unfold margin. destruct (indenting ind); [|reflexivity].
  now apply feed_text_quiet.
Qed.

Lemma feed_lead ind d evs st :
  quiet st = true → feed (lead ind d ++ evs) st = feed evs st.
Proof.
  intros Hq. destruct d; [now apply feed_text_quiet | now apply feed_margin].
Qed.

Lemma array_index_string_of_nat i :
  (N.of_nat i < 4294967295)%N → array_index (string_of_nat i) = Some i.
Proof.
  intros Hi. unfold array_index, string_of_nat.
  rewrite NilEmpty.usu, DecimalN.Unsigned.of_to, String.eqb_refl.
  apply N.ltb_lt in Hi. rewrite Hi. simpl. now rewrite Nat2N.id.
Qed.

Lemma set_elem_end elems v : set_elem elems (length elems) v = elems ++ [v].
Proof.
  unfold set_elem. destruct (decide (length elems < length elems)); [lia|].
  now rewrite Nat.sub_diag.
Qed.

Lemma alloc_list_cons {A} (proj : A → value) base x rest :
  alloc_list proj alloc base (x :: rest)
  = (fst (alloc base (proj x))
       :: fst (alloc_list proj alloc (base + length (snd (alloc base (proj x)))) rest),
     snd (alloc base (proj x))
       ++ snd (alloc_list proj alloc (base + length (snd (alloc base (proj x)))) rest)).
Proof.
  cbn [alloc_list]. destruct (alloc base (proj x)) as [h cells]. cbn [fst snd].
  now destruct (alloc_list proj alloc (base + length cells) rest).
Qed.

Lemma alter_middle {A} (f : A → A) (pre : list A) c post :
  alter f (length pre) (pre ++ c :: post) = pre ++ f c :: post.
Proof.
  replace (length pre) with (length pre + 0) by lia. now rewrite alter_app_r.
Qed.

Lemma state_eta st :
  st = {| path := path st; heap := heap st; current := current st;
          rootNode := rootNode st |}.
Proof. now destruct st. Qed.

(** The children of a container, one after the other. *)
Lemma feed_children {A} ind d (entry_name : nat → A → string) (proj : A → value)
    (entries : list A) :
  Forall (fun e => feeds_element (proj e)) entries →
  last_only (fun e => selfclosing (proj e)) entries = true →
  ∀ i st pre cell0 post r,
    heap st = pre ++ cell0 :: post →
    current st = Some (length pre) →
    rootNode st = Some r →
    quiet st = true →
    feed (flat_indexed
            (fun n e => element_events ind d [("name", entry_name n e)] (proj e))
            i entries) st
    = (Return
         {| path := path st;
            heap := pre
                    ++ store_all (flat_indexed (fun n e => [entry_name n e]) i entries)
                         (fst (alloc_list proj alloc (length (heap st)) entries)) cell0
                    :: post ++ snd (alloc_list proj alloc (length (heap st)) entries);
            current := if existsb (fun e => selfclosing (proj e)) entries
                       then None else Some (length pre);
            rootNode := Some r |}, []).
Proof.
  intros Hall. induction Hall as [|e entries He _ IH];
    intros Hlast i st pre cell0 post r Hheap Hcur Hroot Hq.
  { simpl. unfold ret. rewrite app_nil_r, <- Hheap, <- Hcur, <- Hroot.
    now rewrite <- state_eta. }
  cbn [flat_indexed]. rewrite feed_app, (He ind d _ st _ Hcur Hq), bind_Return_nil.
  rewrite alloc_list_cons. cbn [fst snd store_all app existsb].
  set (st1 := stored st [("name", entry_name i e)] (proj e)).
  assert (Hheap1 : heap st1
                   = pre ++ store (entry_name i e) (fst (alloc (length (heap st)) (proj e)))
                              cell0
                         :: (post ++ snd (alloc (length (heap st)) (proj e)))).
  { unfold st1, stored. cbn [heap]. rewrite Hcur, Hheap, alter_middle.
    now rewrite <- app_assoc. }
  assert (Hlen1 : length (heap st1)
                  = length (heap st) + length (snd (alloc (length (heap st)) (proj e)))).
  { unfold st1, stored. cbn [heap]. rewrite Hcur, length_app, length_alter. reflexivity. }
  destruct (selfclosing (proj e)) eqn:Hself.
  - (* a self-closing element has no sibling after it *)
    destruct entries as [|e' entries']; [|simpl in Hlast; rewrite Hself in Hlast;
                                           discriminate].
    simpl. unfold ret. f_equal. unfold st1, stored. rewrite Hself, Hroot, Hcur, Hheap.
    rewrite alter_middle, !app_nil_r, <- app_assoc. reflexivity.
  - assert (Hlast' : last_only (fun e => selfclosing (proj e)) entries = true).
    { destruct entries; [reflexivity|]. simpl in Hlast. rewrite Hself in Hlast.
      exact Hlast. }
    rewrite (IH Hlast' (S i) st1 pre _ _ r Hheap1).
    + rewrite Hlen1. cbn [orb]. f_equal. f_equal. now rewrite <- !app_assoc.
    + unfold st1, stored. cbn [current]. now rewrite Hself.
    + unfold st1, stored. cbn [rootNode]. now rewrite Hroot.
    + exact Hq.
Qed.

Lemma alloc_list_length {A} (proj : A → value) base entries :
  length (fst (alloc_list proj alloc base entries)) = length entries.
Proof.
  revert base. induction entries as [|e entries IH]; intros base; [reflexivity|].
  rewrite alloc_list_cons. simpl. now rewrite IH.
Qed.

Lemma short_bound {A} (l : list A) :
  short l = true → (N.of_nat (length l) < 4294967295)%N.
Proof. intros Hs. apply N.ltb_lt. exact Hs. Qed.

Lemma store_all_array {A} (entries : list A) i hs elems total :
  length hs = length entries → length elems = i →
  i + length entries = total → (N.of_nat total < 4294967295)%N →
  store_all (flat_indexed (fun n _ => [string_of_nat n]) i entries) hs (CArray elems [])
  = CArray (elems ++ hs) [].
Proof.
  revert i hs elems. induction entries as [|e entries IH]; intros i hs elems Hlen Hi Ht Hb.
  { destruct hs; [|discriminate]. simpl. now rewrite app_nil_r. }
  destruct hs as [|h hs]; [discriminate|]. simpl in Hlen, Ht.
  cbn [flat_indexed app store_all store].
  rewrite array_index_string_of_nat by lia. subst i. rewrite set_elem_end.
  rewrite IH; [now rewrite <- app_assoc | lia | rewrite length_app; simpl; lia | lia
               | exact Hb].
Qed.

Lemma store_all_object (props : list (string * value)) i hs ps0 :
  length hs = length props →
  NoDup (map fst ps0 ++ map fst props) →
  store_all (flat_indexed (fun (_ : nat) e => [fst e]) i props) hs (CObject ps0)
  = CObject (ps0 ++ combine (map fst props) hs).
Proof.
  revert i hs ps0. induction props as [|[k x] props IH]; intros i hs ps0 Hlen Hnd.
  { destruct hs; [|discriminate]. simpl. now rewrite app_nil_r. }
  destruct hs as [|h hs]; [discriminate|]. simpl in Hlen.
  cbn [flat_indexed app store_all store fst map combine].
  rewrite set_prop_fresh.
  - rewrite IH; [now rewrite <- app_assoc | lia |].
    rewrite map_app. simpl. rewrite <- app_assoc. exact Hnd.
  - simpl in Hnd. apply NoDup_app in Hnd. destruct Hnd as (_ & Hdis & _).
    intros Hin. apply (Hdis k); [now apply list_elem_of_In | left].
Qed.

Lemma alloc_array base x items :
  alloc base (VArray (x :: items))
  = (HRef base,
     CArray (fst (alloc_list (fun e => e) alloc (S base) (x :: items))) []
       :: snd (alloc_list (fun e => e) alloc (S base) (x :: items))).
Proof.
  change (alloc base (VArray (x :: items)))
    with (let '(hs, cells) := alloc_list (fun e => e) alloc (S base) (x :: items) in
          (HRef base, CArray hs [] :: cells)).
  now destruct (alloc_list (fun e => e) alloc (S base) (x :: items)).
Qed.

Lemma alloc_object base kx props :
  alloc base (VObject (kx :: props))
  = (HRef base,
     CObject (combine (map fst (kx :: props))
                      (fst (alloc_list snd alloc (S base) (kx :: props))))
       :: snd (alloc_list snd alloc (S base) (kx :: props))).
Proof.
  change (alloc base (VObject (kx :: props)))
    with (let '(hs, cells) := alloc_list snd alloc (S base) (kx :: props) in
          (HRef base, CObject (combine (map fst (kx :: props)) hs) :: cells)).
  now destruct (alloc_list snd alloc (S base) (kx :: props)).
Qed.

Lemma feed_cons ev evs st : feed (ev :: evs) st = bind (handle st ev) (feed evs).
Proof. reflexivity. Qed.

(** Opening and closing a container around the events of its children. *)
Lemma feed_container tag (dt : data_type) (empty : cell) attrs inner st a st2 :
  current st = Some a →
  handle st (OpenTag tag attrs false)
  = (Return {| path := {| name := tag; attributes := attrs; isSelfClosing := false;
                          dataType := dt; parentObject := Some a |} :: path st;
               heap := alter (store (property_key (attributes_name attrs))
                                    (HRef (length (heap st)))) a (heap st) ++ [empty];
               current := Some (length (heap st));
               rootNode := match rootNode st with
                           | None => Some (attributes_name attrs)
                           | r => r
                           end |}, []) →
  dt ≠ basic →
  feed inner
    {| path := {| name := tag; attributes := attrs; isSelfClosing := false;
                  dataType := dt; parentObject := Some a |} :: path st;
       heap := alter (store (property_key (attributes_name attrs))
                            (HRef (length (heap st)))) a (heap st) ++ [empty];
       current := Some (length (heap st));
       rootNode := match rootNode st with
                   | None => Some (attributes_name attrs)
                   | r => r
                   end |}
  = (Return st2, []) →
  path st2 = {| name := tag; attributes := attrs; isSelfClosing := false;
                dataType := dt; parentObject := Some a |} :: path st →
  feed ([OpenTag tag attrs false] ++ inner ++ [CloseTag tag]) st
  = (Return {| path := path st; heap := heap st2; current := Some a;
               rootNode := rootNode st2 |}, []).
Proof.
  intros Hcur Hopen Hdt Hinner Hpath. cbn [app]. rewrite feed_cons, Hopen, bind_Return_nil.
  rewrite feed_app, Hinner, bind_Return_nil.
  cbn [feed handle]. unfold lift, onclosetag. rewrite Hpath. cbn.
  rewrite bind_Return_nil. unfold ret. destruct dt; congruence.
Qed.

Ltac run_handler Hcur :=
  cbn [feed handle]; unfold lift, onopentag, ontext, onclosetag, assign; cbn;
  rewrite ?Hcur; cbn; rewrite ?bind_Return_nil.

Lemma feed_element c : settled c = true → feeds_element c.
Proof.
  induction c as [ | | b | n | s | d | f | items IH | props IH ] using value_ind';
    intros Hs ind dp attrs st a Hcur Hq; try discriminate;
    unfold element_events; fold element_events; rewrite (feed_lead _ _ _ _ Hq).
  - (* null *)
    do 2 run_handler Hcur. unfold ret, stored. rewrite Hcur. cbn.
    destruct (rootNode st); now rewrite app_nil_r.
  - (* boolean *)
    do 3 run_handler Hcur. unfold ret, stored. rewrite Hcur. cbn.
    destruct b, (rootNode st); now rewrite app_nil_r.
  - (* number *)
    do 3 run_handler Hcur. unfold ret, stored. rewrite Hcur. cbn.
    destruct (rootNode st); now rewrite app_nil_r.
  - (* string *)
    do 3 run_handler Hcur. unfold ret, stored. rewrite Hcur. cbn.
    destruct (rootNode st); now rewrite app_nil_r.
  - (* date *)
    cbn [settled] in Hs. destruct (toISOString d) as [iso|] eqn:Hiso; [|discriminate].
    do 3 run_handler Hcur. unfold ret, stored. rewrite Hcur. cbn. rewrite Hiso.
    destruct (rootNode st); now rewrite app_nil_r.
  - (* array *)
    destruct items as [|x items].
    { do 2 run_handler Hcur. unfold ret, stored. rewrite Hcur. cbn.
      destruct (rootNode st); now rewrite app_nil_r. }
    cbn [settled] in Hs. apply andb_prop in Hs. destruct Hs as [Hs Hshort].
    apply andb_prop in Hs. destruct Hs as [Hs Hlast].
    assert (Hall : Forall (fun e => feeds_element e) (x :: items)).
    { apply Forall_forall. intros e He. rewrite Forall_forall in IH.
      apply (IH e He). rewrite forallb_forall in Hs. apply Hs. now apply list_elem_of_In. }
    assert (Hopen : handle st (OpenTag "array" attrs false)
      = (Return {| path := {| name := "array"; attributes := attrs; isSelfClosing := false;
                              dataType := array; parentObject := Some a |} :: path st;
                   heap := alter (store (property_key (attributes_name attrs))
                                        (HRef (length (heap st)))) a (heap st)
                           ++ [CArray [] []];
                   current := Some (length (heap st));
                   rootNode := match rootNode st with
                               | None => Some (attributes_name attrs)
                               | r => r
                               end |}, [])).
    { unfold handle, lift, onopentag, assign. rewrite Hcur. cbn.
      now destruct (rootNode st). }
    set (pre := alter (store (property_key (attributes_name attrs))
                             (HRef (length (heap st)))) a (heap st)) in *.
    set (r := match rootNode st with Some o => o | None => attributes_name attrs end).
    set (st1 := {| path := _ :: path st; heap := pre ++ [CArray [] []];
                   current := Some (length (heap st)); rootNode := _ |}) in *.
    assert (Hpre : length pre = length (heap st)) by apply length_alter.
    assert (Hlen1 : length (heap st1) = S (length (heap st))).
    { cbn. rewrite length_app, Hpre. simpl. lia. }
    assert (Hkids := feed_children ind (S dp) (fun n _ => string_of_nat n) (fun e => e)
              (x :: items) Hall Hlast 0 st1 pre (CArray [] []) [] r eq_refl).
    rewrite Hpre, Hlen1 in Hkids.
    specialize (Hkids eq_refl ltac:(cbn; now destruct (rootNode st)) eq_refl).
    rewrite (store_all_array (x :: items) 0 _ [] (length (x :: items))) in Hkids;
      [| apply alloc_list_length | reflexivity | reflexivity
       | exact (short_bound _ Hshort)].
    rewrite (app_assoc _ (margin ind dp)).
    match goal with
    | |- feed (_ ++ ?inner ++ _) _ = _ =>
        assert (Hinner : feed inner st1 = (Return _, []))
          by (rewrite feed_app, Hkids, bind_Return_nil;
              rewrite <- (app_nil_r (margin ind dp)), feed_margin by reflexivity;
              reflexivity)
    end.
    rewrite (feed_container "array" array (CArray [] []) attrs _ st a _ Hcur Hopen
               ltac:(discriminate) Hinner eq_refl).
    unfold stored. rewrite Hcur, alloc_array. cbn. fold pre.
    subst r. destruct (rootNode st); cbn [heap rootNode]; exact eq_refl.
  - (* object *)
    destruct props as [|kx props].
    { do 2 run_handler Hcur. unfold ret, stored. rewrite Hcur. cbn.
      destruct (rootNode st); now rewrite app_nil_r. }
    cbn [settled] in Hs. apply andb_prop in Hs. destruct Hs as [Hs Hnodup].
    apply andb_prop in Hs. destruct Hs as [Hs Hlast].
    apply bool_decide_eq_true in Hnodup.
    assert (Hall : Forall (fun e => feeds_element (snd e)) (kx :: props)).
    { apply Forall_forall. intros e He. rewrite Forall_forall in IH.
      apply (IH e He). rewrite forallb_forall in Hs.
      specialize (Hs e (proj1 (list_elem_of_In _ _) He)). now apply andb_prop in Hs. }
    assert (Hopen : handle st (OpenTag "object" attrs false)
      = (Return {| path := {| name := "object"; attributes := attrs;
                              isSelfClosing := false;
                              dataType := object; parentObject := Some a |} :: path st;
                   heap := alter (store (property_key (attributes_name attrs))
                                        (HRef (length (heap st)))) a (heap st)
                           ++ [CObject []];
                   current := Some (length (heap st));
                   rootNode := match rootNode st with
                               | None => Some (attributes_name attrs)
                               | r => r
                               end |}, [])).
    { unfold handle, lift, onopentag, assign. rewrite Hcur. cbn.
      now destruct (rootNode st). }
    set (pre := alter (store (property_key (attributes_name attrs))
                             (HRef (length (heap st)))) a (heap st)) in *.
    set (r := match rootNode st with Some o => o | None => attributes_name attrs end).
    set (st1 := {| path := _ :: path st; heap := pre ++ [CObject []];
                   current := Some (length (heap st)); rootNode := _ |}) in *.
    assert (Hpre : length pre = length (heap st)) by apply length_alter.
    assert (Hlen1 : length (heap st1) = S (length (heap st))).
    { cbn. rewrite length_app, Hpre. simpl. lia. }
    rewrite <- (flat_indexed_const (fun e => element_events ind (S dp) [("name", fst e)] (snd e)) 0 (kx :: props)).
    assert (Hkids := feed_children ind (S dp) (fun _ e => fst e) snd
              (kx :: props) Hall Hlast 0 st1 pre (CObject []) [] r eq_refl).
    rewrite Hpre, Hlen1 in Hkids.
    specialize (Hkids eq_refl ltac:(cbn; now destruct (rootNode st)) eq_refl).
    rewrite store_all_object in Hkids; [| apply alloc_list_length | exact Hnodup].
    rewrite (app_assoc _ (margin ind dp)).
    match goal with
    | |- feed (_ ++ ?inner ++ _) _ = _ =>
        assert (Hinner : feed inner st1 = (Return _, []))
          by (rewrite feed_app, Hkids, bind_Return_nil;
              rewrite <- (app_nil_r (margin ind dp)), feed_margin by reflexivity;
              reflexivity)
    end.
    rewrite (feed_container "object" object (CObject []) attrs _ st a _ Hcur Hopen
               ltac:(discriminate) Hinner eq_refl).
    unfold stored. rewrite Hcur, alloc_object. cbn [fst snd selfclosing app]. fold pre.
    subst r. destruct (rootNode st); cbn [heap rootNode]; exact eq_refl.
Qed.

(** ** Reading the store back *)

Lemma reify_alloc_list {A} (proj : A → value) (entries : list A) :
  Forall (fun e => reifies (proj e)) entries →
  ∀ pre post fuel,
    Forall (fun e => depth (proj e) ≤ fuel) entries →
    mapM (reify fuel (pre ++ snd (alloc_list proj alloc (length pre) entries) ++ post))
         (fst (alloc_list proj alloc (length pre) entries))
    = Some (map (fun e => decoded (proj e)) entries).
Proof.
  induction 1 as [|e entries He _ IH]; intros pre post fuel Hd; [reflexivity|].
  apply Forall_cons in Hd. destruct Hd as [Hde Hd].
  rewrite alloc_list_cons. cbn [fst snd mapM map].
  rewrite <- (app_assoc (snd (alloc (length pre) (proj e)))).
  rewrite (He pre _ fuel Hde). cbn.
  specialize (IH (pre ++ snd (alloc (length pre) (proj e))) post fuel Hd).
  rewrite length_app, <- app_assoc in IH. rewrite IH. reflexivity.
Qed.

Lemma mapM_combine {B C} (f : B → option C) (keys : list string) hs vs :
  mapM f hs = Some vs →
  mapM (fun kx => pair (fst kx) <$> f (snd kx)) (combine keys hs)
  = Some (combine keys vs).
Proof.
  revert keys vs. induction hs as [|h hs IH]; intros keys vs; cbn.
  { intros [= <-]. now destruct keys. }
  destruct (f h) as [v|] eqn:Hf; cbn; [|discriminate].
  destruct (mapM f hs) as [vs'|] eqn:Hm; cbn; [|discriminate].
  intros [= <-]. destruct keys as [|k keys]; [reflexivity|].
  cbn. rewrite Hf. cbn. rewrite (IH keys vs' eq_refl). reflexivity.
Qed.

Lemma combine_map_fst {B C} (g : B → C) (props : list (string * B)) :
  combine (map fst props) (map (fun kx => g (snd kx)) props)
  = map (fun kx => (fst kx, g (snd kx))) props.
Proof. induction props as [|[k x] props IH]; simpl; [reflexivity | now rewrite IH]. Qed.

Lemma reify_alloc c : reifies c.
Proof.
  induction c as [ | | b | n | s | d | f | items IH | props IH ] using value_ind';
    intros pre post fuel Hd; try (destruct fuel; reflexivity).
  - (* array *)
    destruct items as [|x items]; [destruct fuel; reflexivity|].
    rewrite alloc_array. cbn [fst snd]. destruct fuel as [|fuel]; [simpl in Hd; lia|].
    cbn [reify]. cbn [app]. rewrite list_lookup_middle by reflexivity.
    assert (Hdepth : Forall (fun e => depth e ≤ fuel) (x :: items)).
    { apply Forall_forall. intros e He.
      assert (depth e < depth (VArray (x :: items))); [|lia].
      apply list_elem_of_lookup_1 in He. destruct He as [i Hi].
      apply (entry_depth (VArray (x :: items)) (KIdx i) e Hi). }
    pose proof (reify_alloc_list (fun e => e) (x :: items) IH
                  (pre ++ [CArray (fst (alloc_list (fun e => e) alloc (S (length pre))
                                          (x :: items))) []]) post fuel Hdepth) as Hm.
    rewrite length_app, Nat.add_1_r, <- app_assoc in Hm. cbn [app] in Hm.
    rewrite Hm. reflexivity.
  - (* object *)
    destruct props as [|kx props]; [destruct fuel; reflexivity|].
    rewrite alloc_object. cbn [fst snd]. destruct fuel as [|fuel]; [simpl in Hd; lia|].
    cbn [reify]. cbn [app]. rewrite list_lookup_middle by reflexivity.
    assert (Hdepth : Forall (fun e => depth (snd e) ≤ fuel) (kx :: props)).
    { apply Forall_forall. intros [k e] He.
      assert (depth e < depth (VObject (kx :: props))); [|simpl in *; lia].
      apply (entry_depth (VObject (kx :: props)) (KStr k) e).
      now apply list_elem_of_In. }
    pose proof (reify_alloc_list snd (kx :: props) IH
                  (pre ++ [CObject (combine (map fst (kx :: props))
                                      (fst (alloc_list snd alloc (S (length pre))
                                              (kx :: props))))]) post fuel Hdepth) as Hm.
    rewrite length_app, Nat.add_1_r, <- app_assoc in Hm. cbn [app] in Hm.
    rewrite (mapM_combine _ _ _ _ Hm), combine_map_fst. reflexivity.
Qed.

(** The store has a cell for every level of nesting. *)
Lemma depth_alloc c base : depth c ≤ S (length (snd (alloc base c))).
Proof.
  revert base.
  induction c as [ | | b | n | s | d | f | items IH | props IH ] using value_ind';
    intros base; try (simpl; lia).
  - destruct items as [|x items]; [simpl; lia|].
    rewrite alloc_array. cbn [snd length depth]. apply le_n_S.
    generalize (S base). induction IH as [|e entries He _ IHl]; intros b; [simpl; lia|].
    rewrite alloc_list_cons. cbn [snd map list_max]. rewrite length_app.
    specialize (He b). specialize (IHl (b + length (snd (alloc b e)))).
    simpl in *. lia.
  - destruct props as [|kx props]; [simpl; lia|].
    rewrite alloc_object. cbn [snd length depth]. apply le_n_S.
    generalize (S base). induction IH as [|e entries He _ IHl]; intros b; [simpl; lia|].
    rewrite alloc_list_cons. cbn [snd map list_max]. rewrite length_app.
    specialize (He b). specialize (IHl (b + length (snd (alloc b (snd e))))).
    simpl in *. lia.
Qed.

(** ** The document of a settled value, decoded *)

Lemma settled_encodable c : settled c = true → encodable c = true.
Proof.
  induction c as [ | | b | n | s | d | f | items IH | props IH ] using value_ind';
    intros Hs; try reflexivity; try discriminate.
  - simpl in *. now destruct (toISOString d).
  - cbn [settled] in Hs. apply andb_prop in Hs. destruct Hs as [Hs _].
    apply andb_prop in Hs. destruct Hs as [Hs _]. cbn [encodable].
    apply forallb_forall. intros x Hx. rewrite forallb_forall in Hs.
    rewrite Forall_forall in IH. rewrite (IH x (proj2 (list_elem_of_In _ _) Hx) (Hs x Hx)).
    apply orb_true_r.
  - cbn [settled] in Hs. apply andb_prop in Hs. destruct Hs as [Hs _].
    apply andb_prop in Hs. destruct Hs as [Hs _]. cbn [encodable].
    apply forallb_forall. intros x Hx. rewrite forallb_forall in Hs.
    rewrite Forall_forall in IH. specialize (Hs x Hx). apply andb_prop in Hs.
    rewrite (IH x (proj2 (list_elem_of_In _ _) Hx) (proj2 Hs)).
    apply orb_true_r.
Qed.

(** [Parse] on the document of a settled value returns the decoded value
    and leaves no effect. *)
Lemma Parse_document ind c fuel :
  settled c = true → markup_free ind = true →
  Parse fuel (sax_parser {| indent := ind; calls := document_calls c |}) None
  = (Return (decoded c), []).
Proof.
  intros Hs Hm. unfold Parse, sax_parser. cbn [indent]. rewrite Hm. cbn [events failure].
  rewrite (sax_events_settled ind c Hs).
  rewrite (feed_element c Hs ind 0 [] initial obj eq_refl eq_refl), bind_Return_nil.
  unfold lift at 1. rewrite bind_Return_nil.
  assert (Hroot : read_root (stored initial [] c) = Return (decoded c)).
  { unfold read_root, stored, initial. cbn [heap current rootNode length].
    cbn [alter list_alter app lookup list_lookup obj store set_prop attributes_name
         get_prop property_key String.eqb Ascii.eqb Bool.eqb].
    change (String.eqb "undefined" "undefined") with true. cbn [get_prop].
    pose proof (reify_alloc c [CObject [("undefined", fst (alloc 1 c))]] []
                  (S (length (snd (alloc 1 c)))) (depth_alloc c 1)) as Hr.
    rewrite app_nil_r in Hr. cbn [length app] in Hr |- *. rewrite Hr. reflexivity. }
  unfold lift. rewrite Hroot, bind_Return_nil. reflexivity.
Qed.

(** ** The clone of a faithful value *)

Lemma faithful_not_undefined x : faithful x = true → is_undefined x = false.
Proof. destruct x; simpl; congruence. Qed.

Lemma keep_items_map (f : value → value) items :
  forallb faithful items = true → keep_items f items = map f items.
Proof.
  induction items as [|x items IH]; simpl; [reflexivity|].
  intros Hall. apply andb_prop in Hall. destruct Hall as [Hx Hall].
  now rewrite (faithful_not_undefined x Hx), IH.
Qed.

Lemma keep_props_map (f : value → value) props result :
  NoDup (map fst result ++ map fst props) →
  forallb (fun kx => nonempty (fst kx) && faithful (snd kx)) props = true →
  keep_props f props result = result ++ map (fun kx => (fst kx, f (snd kx))) props.
Proof.
  revert result. induction props as [|[k x] props IH]; intros result Hnd Hall; simpl.
  { now rewrite app_nil_r. }
  simpl in Hall. apply andb_prop in Hall. destruct Hall as [Hx Hall].
  apply andb_prop in Hx. destruct Hx as [_ Hx].
  rewrite (faithful_not_undefined x Hx). rewrite set_prop_fresh.
  - rewrite IH; [now rewrite <- app_assoc | | exact Hall].
    rewrite map_app. simpl. now rewrite <- app_assoc.
  - simpl in Hnd. apply NoDup_app in Hnd. destruct Hnd as (_ & Hdis & _).
    intros Hin. apply (Hdis k); [now apply list_elem_of_In | left].
Qed.

Lemma cloned_array items :
  forallb faithful items = true → cloned (VArray items) = VArray (map cloned items).
Proof. intros Hall. cbn [cloned]. now rewrite keep_items_map. Qed.

Lemma cloned_object props :
  NoDup (map fst props) →
  forallb (fun kx => nonempty (fst kx) && faithful (snd kx)) props = true →
  cloned (VObject props) = VObject (map (fun kx => (fst kx, cloned (snd kx))) props).
Proof. intros Hnd Hall. cbn [cloned]. now rewrite keep_props_map. Qed.

Lemma last_only_map {A B} (p : B → bool) (q : A → bool) (f : A → B) l :
  (∀ x, In x l → p (f x) = q x) → last_only p (map f l) = last_only q l.
Proof.
  induction l as [|x l IH]; intros Hpq; [reflexivity|].
  destruct l as [|y l]; [reflexivity|].
  change (negb (p (f x)) && last_only p (map f (y :: l))
          = negb (q x) && last_only q (y :: l)).
  rewrite IH, Hpq; [reflexivity | now left | intros z Hz; apply Hpq; now right].
Qed.

Lemma map_fst_pair {A B} (g : A → B) (props : list (string * A)) :
  map fst (map (fun kx => (fst kx, g (snd kx))) props) = map fst props.
Proof. induction props as [|[k x] props IH]; simpl; [reflexivity | now rewrite IH]. Qed.

Lemma selfclosing_cloned x : faithful x = true → selfclosing (cloned x) = is_null x.
Proof.
  destruct x as [ | | | | | | | items | props ]; try reflexivity.
  - cbn [faithful]. intros Hf. apply andb_prop in Hf. destruct Hf as [Hf _].
    apply andb_prop in Hf. destruct Hf as [Hf _].
    apply andb_prop in Hf. destruct Hf as [Hne Hall].
    rewrite (cloned_array items Hall). now destruct items.
  - cbn [faithful]. intros Hf. apply andb_prop in Hf. destruct Hf as [Hf Hnd].
    apply andb_prop in Hf. destruct Hf as [Hf _].
    apply andb_prop in Hf. destruct Hf as [Hne Hall].
    apply bool_decide_eq_true in Hnd.
    rewrite (cloned_object props Hnd Hall). now destruct props.
Qed.

Lemma nonempty_true s : s ≠ "" → nonempty s = true.
Proof. unfold nonempty. now destruct (String.eqb_spec s ""). Qed.

Lemma short_map {A B} (f : A → B) l : short (map f l) = short l.
Proof. unfold short. now rewrite length_map. Qed.

(** The clone of a faithful value is settled, provided the runtime prints
    no number and no date as the empty text. *)
Lemma settled_cloned v :
  (∀ n, number_toString n ≠ "") →
  (∀ d iso, toISOString d = Some iso → iso ≠ "") →
  faithful v = true → settled (cloned v) = true.
Proof.
  intros Hnum Hdate.
  induction v as [ | | b | n | s | d | f | items IH | props IH ] using value_ind';
    intros Hf; try reflexivity; try discriminate.
  - simpl. apply nonempty_true, Hnum.
  - exact Hf.
  - simpl in *. destruct (toISOString d) as [iso|] eqn:Hiso; [|discriminate].
    apply nonempty_true. eapply Hdate, Hiso.
  - cbn [faithful] in Hf. apply andb_prop in Hf. destruct Hf as [Hf Hshort].
    apply andb_prop in Hf. destruct Hf as [Hf Hlast].
    apply andb_prop in Hf. destruct Hf as [_ Hall].
    rewrite (cloned_array items Hall). cbn [settled].
    rewrite short_map, Hshort, andb_true_r.
    rewrite (last_only_map selfclosing is_null cloned items), Hlast, andb_true_r.
    + apply forallb_forall. intros y Hy. apply in_map_iff in Hy.
      destruct Hy as (x & <- & Hx). rewrite Forall_forall in IH.
      apply (IH x (proj2 (list_elem_of_In _ _) Hx)).
      rewrite forallb_forall in Hall. now apply Hall.
    + intros x Hx. apply selfclosing_cloned. rewrite forallb_forall in Hall.
      now apply Hall.
  - cbn [faithful] in Hf. apply andb_prop in Hf. destruct Hf as [Hf Hnd].
    apply andb_prop in Hf. destruct Hf as [Hf Hlast].
    apply andb_prop in Hf. destruct Hf as [_ Hall].
    pose proof Hnd as Hnd'. apply bool_decide_eq_true in Hnd'.
    rewrite (cloned_object props Hnd' Hall). cbn [settled].
    rewrite map_fst_pair, Hnd, andb_true_r.
    rewrite (last_only_map (fun kx => selfclosing (snd kx)) (fun kx => is_null (snd kx))
               (fun kx => (fst kx, cloned (snd kx))) props), Hlast, andb_true_r.
    + apply forallb_forall. intros y Hy. apply in_map_iff in Hy.
      destruct Hy as (x & <- & Hx). rewrite Forall_forall in IH.
      rewrite forallb_forall in Hall. specialize (Hall x Hx).
      apply andb_prop in Hall. destruct Hall as [Hk Hx'].
      cbn [fst snd]. rewrite Hk. apply (IH x (proj2 (list_elem_of_In _ _) Hx) Hx').
    + intros x Hx. cbn [snd]. apply selfclosing_cloned. rewrite forallb_forall in Hall.
      specialize (Hall x Hx). now apply andb_prop in Hall.
Qed.

Lemma all2_map {A} (R : A → A → Prop) (f : A → A) l :
  Forall (fun x => R (f x) x) l → all2 R (map f l) l.
Proof. induction 1; simpl; auto. Qed.

(** What is decoded from the document of a faithful value is the value,
    up to the rounding of its numbers and dates. *)
Lemma decoded_cloned_close number_close date_close v :
  conversions_close number_close date_close →
  faithful v = true →
  value_close number_close date_close (decoded (cloned v)) v.
Proof.
  intros [Hnum Hdate].
  induction v as [ | | b | n | s | d | f | items IH | props IH ] using value_ind';
    intros Hf; try discriminate; try (simpl; auto; fail).
  - simpl. apply Hnum.
  - simpl in *. destruct (toISOString d) as [iso|] eqn:Hiso; [|discriminate].
    simpl. eapply Hdate, Hiso.
  - cbn [faithful] in Hf. apply andb_prop in Hf. destruct Hf as [Hf _].
    apply andb_prop in Hf. destruct Hf as [Hf _].
    apply andb_prop in Hf. destruct Hf as [Hne Hall].
    rewrite (cloned_array items Hall).
    destruct items as [|x items]; [discriminate|].
    change (all2 (value_close number_close date_close)
              (map decoded (map cloned (x :: items))) (x :: items)).
    rewrite map_map. apply all2_map.
    apply Forall_forall. intros y Hy. rewrite Forall_forall in IH. apply (IH y Hy).
    rewrite forallb_forall in Hall. apply Hall. now apply list_elem_of_In.
  - cbn [faithful] in Hf. apply andb_prop in Hf. destruct Hf as [Hf Hnd].
    apply andb_prop in Hf. destruct Hf as [Hf _].
    apply andb_prop in Hf. destruct Hf as [Hne Hall].
    apply bool_decide_eq_true in Hnd.
    rewrite (cloned_object props Hnd Hall).
    destruct props as [|kx props]; [discriminate|].
    change (all2 (fun a b => fst a = fst b
                             ∧ value_close number_close date_close (snd a) (snd b))
              (map (fun kx => (fst kx, decoded (snd kx)))
                 (map (fun kx => (fst kx, cloned (snd kx))) (kx :: props)))
              (kx :: props)).
    rewrite map_map.
    apply (all2_map (fun a b => fst a = fst b
                             ∧ value_close number_close date_close (snd a) (snd b))).
    apply Forall_forall. intros y Hy. rewrite Forall_forall in IH. cbn [fst snd].
    split; [reflexivity|]. apply (IH y Hy).
    rewrite forallb_forall in Hall. specialize (Hall y (proj1 (list_elem_of_In _ _) Hy)).
    now apply andb_prop in Hall.
Qed.

Lemma markup_free_blanks n : markup_free (Some (repeat_string " " n)) = true.
Proof. induction n as [|n IH]; [reflexivity | exact IH]. Qed.

Lemma space_string_plain space :
  plain_space space = true →
  ∃ ind, space_string space = Return ind ∧ markup_free ind = true.
Proof.
  destruct space as [|n|s]; simpl; eauto.
  unfold String_repeat. intros Hn. apply Z.leb_le in Hn.
  destruct (Z.ltb_spec n 0); [lia|]. eexists. split; [reflexivity|].
  apply markup_free_blanks.
Qed.

(** The document [Stringify] prints for a faithful value. *)
Lemma Stringify_faithful fuel v space :
  (∀ n, number_toString n ≠ "") →
  (∀ d iso, toISOString d = Some iso → iso ≠ "") →
  faithful v = true → depth v ≤ fuel → plain_space space = true →
  settled (cloned v) = true
  ∧ ∃ ind t, markup_free ind = true
             ∧ Stringify fuel v ReplacerUndefined space
               = (Return {| indent := ind; calls := document_calls (cloned v) |}, t).
Proof.
  intros Hnum Hdate Hf Hd Hsp.
  destruct (space_string_plain space Hsp) as (ind & Hind & Hm).
  pose proof (settled_cloned v Hnum Hdate Hf) as Hset.
  pose proof (clone_keep fuel v Hd) as Hc.
  destruct (clone fuel (replacer_function ReplacerUndefined) v) as [o t] eqn:Hcl.
  simpl in Hc. subst o. split; [exact Hset|]. exists ind, t. split; [exact Hm|].
  exact (Stringify_intro fuel v ReplacerUndefined space ind (cloned v) t Hind Hcl
           (settled_encodable _ Hset)).
Qed.

(** The round trip of a faithful value, to the letter, and the part the
    reviver plays in it. *)
Lemma Parse_Stringify_faithful fuel v space :
  (∀ n, number_toString n ≠ "") →
  (∀ d iso, toISOString d = Some iso → iso ≠ "") →
  faithful v = true → depth v ≤ fuel → plain_space space = true →
  fst (Parse_Stringify fuel v ReplacerUndefined space None) = Return (decoded (cloned v))
  ∧ ∀ r, fst (Parse_Stringify fuel v ReplacerUndefined space (Some r))
         = fst (revive fuel r (decoded (cloned v))).
Proof.
  intros Hnum Hdate Hf Hd Hsp.
  destruct (Stringify_faithful fuel v space Hnum Hdate Hf Hd Hsp)
    as (Hset & ind & t & Hm & HS).
  pose proof (Parse_document ind (cloned v) fuel Hset Hm) as HP.
  unfold Parse_Stringify. rewrite HS. split; [|intros r]; rewrite fst_bind; cbn [fst].
  - now rewrite HP.
  - rewrite (Parse_reviver fuel _ r (decoded (cloned v))); [reflexivity | now rewrite HP].
Qed.

Lemma decoded_cloned_defined x :
  faithful x = true → is_undefined (decoded (cloned x)) = false.
Proof.
  destruct x as [ | | | | | d | | items | props ]; try reflexivity; try discriminate.
  - simpl. now destruct (toISOString d).
  - cbn [cloned decoded]. now destruct (keep_items cloned items).
  - cbn [cloned decoded]. now destruct (keep_props cloned props []).
Qed.

Lemma decoded_cloned_scalar x :
  is_scalar x = true → is_scalar (decoded (cloned x)) = true.
Proof. destruct x as [ | | | | | d | | | ]; try easy. simpl. now destruct (toISOString d). Qed.

Lemma for_index_kept walk f n x rest result y c :
  f (KIdx n) x = Return y → is_undefined y = false → fst (walk y) = Return c →
  fst (for_index walk f n (x :: rest) result)
  = fst (for_index walk f (S n) rest (result ++ [c])).
Proof.
  intros Hf Hy Hc. cbn [for_index]. rewrite fst_bind. unfold call; cbn [fst].
  now rewrite Hf, Hy, fst_bind, Hc.
Qed.

Lemma for_index_dropped walk f n x rest result :
  f (KIdx n) x = Return VUndefined →
  fst (for_index walk f n (x :: rest) result) = fst (for_index walk f (S n) rest result).
Proof.
  intros Hf. cbn [for_index]. rewrite fst_bind. unfold call; cbn [fst]. now rewrite Hf.
Qed.

Lemma revive_scalar fuel r x : is_scalar x = true → revive (S fuel) r x = ret x.
Proof. now destruct x. Qed.

(** * The claims *)

(** C2 (as amended). When the parser reports an error, the error callback
    of [Parse] writes it to the console and raises nothing: the outcome of
    [Parse] is the one it has when the error events are left out of the
    run, and when [Parse] returns, the console holds exactly the reported
    errors. [Parse] ends with an exception of its own making in no case:
    the exception with which the parser's own [write] or [close] ends
    reaches the caller as it is, and so does an error thrown by a supplied
    reviver. *)
Theorem parse_logs_parser_errors (fuel : nat) (xml : sax_run) (reviver : option callback) :
  fst (Parse fuel xml reviver)
  = fst (Parse fuel {| events := silence (events xml); failure := failure xml |} reviver)
  ∧ (∀ v, fst (Parse fuel xml reviver) = Return v →
       ∃ calls, snd (Parse fuel xml reviver) = errors (events xml) ++ calls
                ∧ ∀ e, ¬ In (Console e) calls)
  ∧ (∀ st e, fst (feed (events xml) initial) = Return st → failure xml = Some e →
       fst (Parse fuel xml reviver) = Throw e)
  ∧ (∀ r k x e, reviver = Some r → r k x = Throw e →
       In (Invoke k x) (snd (Parse fuel xml reviver)) →
       fst (Parse fuel xml reviver) = Throw e).
Proof.
  repeat split.
  - rewrite !Parse_outcome. simpl. now rewrite <- feed_silence.
  - intros v Hret. rewrite Parse_outcome in Hret. rewrite Parse_effects.
    destruct (fst (feed (events xml) initial)) as [st| |] eqn:Hfeed; try discriminate.
    rewrite (feed_trace _ _ _ Hfeed). eexists. split; [reflexivity|].
    intros e Hin. destruct (failure xml); [destruct Hin|].
    destruct reviver as [r|]; [|destruct Hin].
    destruct (read_root st) as [v0| |]; try (now destruct Hin).
    rewrite revive_clone in Hin. apply clone_effects in Hin.
    destruct Hin as (k & x & Heq). discriminate.
  - intros st e Hfeed Hfail. now rewrite Parse_outcome, Hfeed, Hfail.
  - intros r k x e -> Hthrow Hin. rewrite Parse_outcome. rewrite Parse_effects in Hin.
    apply in_app_or in Hin.
    destruct Hin as [Hin|Hin]; [now apply feed_no_call in Hin|].
    destruct (fst (feed (events xml) initial)) as [st| |]; try (now destruct Hin).
    destruct (failure xml); [now destruct Hin|].
    destruct (read_root st) as [v0| |]; try (now destruct Hin).
    rewrite revive_clone in *. now apply (clone_throws fuel r v0 k x e Hthrow).
Qed.





Lemma tags_all_app p cs cs' :
  tags_all p (cs ++ cs')
  = (fst (tags_all (fst (tags_all p cs)) cs'),
     snd (tags_all p cs) ++ snd (tags_all (fst (tags_all p cs)) cs')).
Proof.
  revert p. induction cs as [|c cs IH]; intros p; cbn [app tags_all fst snd].
  - now destruct (tags_all p cs').
  - rewrite IH. cbn [fst snd]. now rewrite app_assoc.
Qed.





(** C5 (as amended). A reviver given to [Parse] is called on the entries
    of the decoded value, of the arrays and objects nested in it and of the
    values it returns for them, and on nothing else: it is never called on
    the top-level value itself, which it can neither drop nor replace. The
    result is the walk of the decoded value; when the walk returns, every
    such entry has been passed to the reviver. *)
Theorem reviver_skips_top_level (fuel : nat) (xml : sax_run) (r : callback) (v : value) :
  fst (Parse fuel xml None) = Return v →
  fst (Parse fuel xml (Some r)) = fst (revive fuel r v)
  ∧ (∀ c, fst (Parse fuel xml (Some r)) = Return c → same_kind v c)
  ∧ (∀ k x, In (Invoke k x) (snd (Parse fuel xml (Some r))) → offered r v k x)
  ∧ (∀ k x, offered r v k x →
       is_entry v k x ∨ ∃ k0 x0 y, r k0 x0 = Return y ∧ is_entry y k x)
  ∧ (∀ k, ¬ is_entry v k v)
  ∧ (∀ c k x, fst (Parse fuel xml (Some r)) = Return c → offered r v k x →
       In (Invoke k x) (snd (Parse fuel xml (Some r)))).
Proof.
  intros Hv. rewrite (Parse_reviver fuel xml r v Hv). simpl. rewrite revive_clone.
  repeat split.
  - apply clone_same_kind.
  - intros k x Hin. apply in_app_or in Hin. destruct Hin as [Hin|Hin].
    + now apply Parse_no_reviver_trace in Hin.
    + now apply clone_calls_offered in Hin.
  - intros k x Hoff. revert Hoff. clear.
    induction 1 as [v k x He|v k0 x0 y k x He Hf Hoff IH]; [now left|].
    right. destruct IH as [Hy|Hy]; eauto.
  - apply entry_not_self.
  - intros c k x Hret Hoff. apply in_or_app. right. eapply clone_offers; eauto.
Qed.


Lemma for_in_allowed walk names props result :
  Forall (fun kx => fst (walk (snd kx)) = Return (allowed names (snd kx))) props →
  fst (for_in walk (replacer_function (ReplacerArray (map KStr names))) props result)
  = Return (keep_listed names (allowed names) props result).
Proof.
  intros HF. revert result. induction HF as [|[k x] props Hx _ IH]; intros result;
    [reflexivity|].
  cbn [for_in keep_listed fst snd] in *. rewrite fst_bind. unfold call.
  cbn [fst replacer_function]. rewrite existsb_key_names.
  destruct (existsb (String.eqb k) names); cbn [andb is_undefined]; [|apply IH].
  destruct (is_undefined x); cbn [negb]; [apply IH|]. now rewrite fst_bind, Hx.
Qed.

Lemma clone_allowed names fuel v :
  depth v ≤ fuel →
  fst (clone fuel (replacer_function (ReplacerArray (map KStr names))) v)
  = Return (allowed names v).
Proof.
  revert v. induction fuel as [|fuel IH]; intros v Hd.
  { destruct v; simpl in Hd; lia. }
  destruct v as [ | | b | n | s | d | f | items | props ]; try reflexivity.
  - cbn [clone allowed]. now rewrite fst_bind, for_index_allow_names.
  - cbn [clone allowed]. rewrite fst_bind, for_in_allowed; [reflexivity|].
    apply Forall_forall. intros kx Hx. apply list_elem_of_In in Hx. apply IH.
    cbn [depth] in Hd.
    pose proof (list_max_In (depth (snd kx)) (map (fun kx => depth (snd kx)) props)
                  (in_map (fun kx => depth (snd kx)) props kx Hx)). lia.
Qed.

Lemma set_prop_In {A} (props : list (string * A)) k (x : A) : In (k, x) (set_prop props k x).
Proof.
  induction props as [|[k0 x0] props IH]; cbn [set_prop]; [now left|].
  destruct (String.eqb_spec k0 k) as [->|Hne]; [now left | now right].
Qed.

Lemma set_prop_other {A} (props : list (string * A)) k (x : A) k' (y : A) :
  k' ≠ k → In (k', y) props → In (k', y) (set_prop props k x).
Proof.
  intros Hne. induction props as [|[k0 x0] props IH]; cbn [set_prop]; [intros []|].
  destruct (String.eqb_spec k0 k) as [->|Hk0].
  - intros [[= -> _]|Hin]; [congruence | now right].
  - intros [Hin|Hin]; [now left | right; auto].
Qed.

Lemma keep_listed_stays names f props result k y :
  ¬ In k (map fst props) → In (k, y) result →
  In (k, y) (keep_listed names f props result).
Proof.
  revert result. induction props as [|[k0 x0] props IH]; intros result Hk Hin;
    [exact Hin|].
  cbn [keep_listed fst snd]. cbn [map fst In] in Hk.
  destruct (existsb (String.eqb k0) names && negb (is_undefined x0)).
  - apply IH; [tauto|]. apply set_prop_other; [|exact Hin]. intros ->. tauto.
  - apply IH; [tauto | exact Hin].
Qed.

Lemma keep_listed_In names f props result k x :
  NoDup (map fst props) → In (k, x) props →
  existsb (String.eqb k) names = true → is_undefined x = false →
  In (k, f x) (keep_listed names f props result).
Proof.
  revert result. induction props as [|[k0 x0] props IH]; intros result Hnd Hin Hk Hx;
    [destruct Hin|].
  cbn [map fst] in Hnd. apply NoDup_cons in Hnd. destruct Hnd as [Hk0 Hnd].
  cbn [keep_listed fst snd]. destruct Hin as [[= -> ->]|Hin].
  - rewrite Hk, Hx. cbn [andb negb]. apply keep_listed_stays.
    + intros Hc. apply Hk0. now apply list_elem_of_In.
    + apply set_prop_In.
  - destruct (existsb (String.eqb k0) names && negb (is_undefined x0)); now apply IH.
Qed.

Lemma keep_listed_from names f props result k y :
  In (k, y) (keep_listed names f props result) →
  In (k, y) result
  ∨ ∃ x, In (k, x) props ∧ existsb (String.eqb k) names = true
         ∧ is_undefined x = false ∧ y = f x.
Proof.
  revert result. induction props as [|[k0 x0] props IH]; intros result Hin; [now left|].
  cbn [keep_listed fst snd] in Hin.
  destruct (existsb (String.eqb k0) names) eqn:Hk0; cbn [andb] in Hin;
    [destruct (is_undefined x0) eqn:Hx0; cbn [negb] in Hin|];
    apply IH in Hin; destruct Hin as [Hin|(x & Hin & Hrest)];
    try (now left); try (right; exists x; split; [now right | exact Hrest]).
  destruct (String.eqb_spec k0 k) as [->|Hne].
  - assert (Hcase : y = f x0 ∨ In (k, y) result).
    { clear -Hin. induction result as [|[k1 x1] result IHr]; cbn [set_prop] in Hin.
      - destruct Hin as [[= <-]|[]]. now left.
      - destruct (String.eqb_spec k1 k) as [->|Hne].
        + destruct Hin as [[= <-]|Hin]; [now left | right; now right].
        + destruct Hin as [Hin|Hin]; [right; now left|].
          destruct (IHr Hin) as [Hy|Hy]; [now left | right; now right]. }
    destruct Hcase as [->|Hres]; [|now left].
    right. exists x0. repeat split; auto. now left.
  - left. clear -Hin Hne. induction result as [|[k1 x1] result IHr]; cbn [set_prop] in Hin.
    + destruct Hin as [[= -> _]|[]]. congruence.
    + destruct (String.eqb_spec k1 k0) as [->|Hk1].
      * destruct Hin as [[= -> _]|Hin]; [congruence | now right].
      * destruct Hin as [Hin|Hin]; [now left | right; auto].
Qed.

(** C9. With the replacer [["a", "b"]] the clone pass, given fuel for the
    depth of the value, comes to an end, and what it returns is what the
    allow-list leaves of the value: an object keeps exactly its properties
    named [a] or [b] whose value is not [undefined], each holding what the
    allow-list leaves of its value, so that a listed entry is kept at
    every level at which its parents are kept and an entry under any other
    key, the elements of arrays among them, is left out with all it holds.
    In the document every [name] attribute written is [a] or [b], every
    element but the root has such an attribute, and the element of every
    kept entry is written. *)
Theorem allow_list_keeps_listed_keys (fuel : nat) (v : value) (space : space_arg) :
  (depth v ≤ fuel →
   fst (Stringify fuel v (ReplacerArray [KStr "a"; KStr "b"]) space) ≠ OutOfFuel)
  ∧ (∀ w, fst (Stringify fuel v (ReplacerArray [KStr "a"; KStr "b"]) space) = Return w →
      ∃ c, calls w = [StartDocument "1.0" "UTF-8" true; StartElement (getTagname c)]
                     ++ content_calls c ++ [EndElement; EndDocument]
        ∧ names_within ["a"; "b"] c = true
        ∧ named (content_calls c)
        ∧ ∀ a content, In (WriteAttribute a content) (calls w) →
                       a = "name" ∧ (content = "a" ∨ content = "b"))
  ∧ (depth v ≤ fuel →
     fst (clone fuel (replacer_function (ReplacerArray [KStr "a"; KStr "b"])) v)
     = Return (allowed ["a"; "b"] v)
     ∧ ∀ ind, space_string space = Return ind → encodable (allowed ["a"; "b"] v) = true →
         fst (Stringify fuel v (ReplacerArray [KStr "a"; KStr "b"]) space)
         = Return {| indent := ind; calls := document_calls (allowed ["a"; "b"] v) |})
  ∧ (∀ props k x, v = VObject props → NoDup (map fst props) → In (k, x) props →
       k = "a" ∨ k = "b" → is_undefined x = false →
       ∃ kept, allowed ["a"; "b"] v = VObject kept
         ∧ In (k, allowed ["a"; "b"] x) kept
         ∧ (is_function x = false →
            ∃ before after,
              content_calls (allowed ["a"; "b"] v)
              = before
                ++ [StartElement (getTagname (allowed ["a"; "b"] x));
                    WriteAttribute "name" k]
                ++ content_calls (allowed ["a"; "b"] x) ++ [EndElement] ++ after))
  ∧ (∀ props, v = VObject props →
       ∃ kept, allowed ["a"; "b"] v = VObject kept
         ∧ ∀ k y, In (k, y) kept →
             (k = "a" ∨ k = "b")
             ∧ ∃ x, In (k, x) props ∧ is_undefined x = false
                    ∧ y = allowed ["a"; "b"] x)
  ∧ (∀ items, v = VArray items → allowed ["a"; "b"] v = VArray []).
Proof.
  split.
  { apply Stringify_fuel, filtering_replacer_array. }
  split.
  { intros w Hret.
    destruct (Stringify fuel v (ReplacerArray [KStr "a"; KStr "b"]) space) as [o t] eqn:HS.
    simpl in Hret. subst o. apply Stringify_Return in HS.
    destruct HS as (ind & c & Hs & Hc & He & ->).
    assert (Hn : names_within ["a"; "b"] c = true).
    { apply (clone_allow_names ["a"; "b"] fuel v c). simpl map. now rewrite Hc. }
    exists c. repeat split; auto.
    - apply content_calls_named.
    - unfold document_calls in H0. simpl in H0.
      destruct H0 as [H0|[H0|H0]]; try discriminate.
      apply in_app_or in H0. destruct H0 as [H0|[H0|[H0|[]]]]; try discriminate.
      revert H0. clear. revert a content.
      induction c as [ | | b | n | s | d | f | items IH | props IH ] using value_ind';
        intros a content Hin; simpl in *; try tauto;
        try (destruct Hin as [Hin|[]]; discriminate).
      + destruct (toISOString d); simpl in Hin; [destruct Hin as [Hin|[]]; discriminate | tauto].
      + revert Hin. generalize 0.
        induction IH as [|x items Hx _ IHl]; intros n Hin; simpl in *; [tauto|].
        apply in_app_or in Hin. destruct Hin as [Hin|Hin]; [|now apply (IHl (S n))].
        unfold element_calls in Hin. destruct (is_function x); [destruct Hin|].
        simpl in Hin. destruct Hin as [Hin|[Hin|Hin]]; [discriminate|congruence|].
        apply in_app_or in Hin. destruct Hin as [Hin|[Hin|[]]]; [eauto | discriminate].
      + induction IH as [|[k x] props Hx _ IHl]; simpl in *; [tauto|].
        apply in_app_or in Hin. destruct Hin as [Hin|Hin]; [|now apply IHl].
        unfold element_calls in Hin. destruct (is_function x); [destruct Hin|].
        simpl in Hin. destruct Hin as [Hin|[Hin|Hin]]; [discriminate|congruence|].
        apply in_app_or in Hin. destruct Hin as [Hin|[Hin|[]]]; [eauto | discriminate].
    - unfold document_calls in H0. simpl in H0.
      destruct H0 as [H0|[H0|H0]]; try discriminate.
      apply in_app_or in H0. destruct H0 as [H0|[H0|[H0|[]]]]; try discriminate.
      apply (names_within_attributes ["a"; "b"] c a content Hn) in H0.
      simpl in H0. destruct H0 as [<-|[<-|[]]]; auto. }
  split.
  { intros Hd. pose proof (clone_allowed ["a"; "b"] fuel v Hd) as Hc.
    cbn [map] in Hc. split; [exact Hc|]. intros ind Hs He.
    destruct (clone fuel (replacer_function (ReplacerArray [KStr "a"; KStr "b"])) v)
      as [o t] eqn:Hcl.
    cbn [fst] in Hc. subst o.
    now rewrite (Stringify_intro fuel v (ReplacerArray [KStr "a"; KStr "b"]) space ind
                   (allowed ["a"; "b"] v) t Hs Hcl He). }
  split.
  { intros props k x -> Hnd Hin Hk Hx. cbn [allowed]. eexists. split; [reflexivity|].
    assert (Hkept : In (k, allowed ["a"; "b"] x)
                       (keep_listed ["a"; "b"] (allowed ["a"; "b"]) props [])).
    { apply keep_listed_In; auto. destruct Hk as [->| ->]; reflexivity. }
    split; [exact Hkept|]. intros Hfun.
    destruct (content_calls_entry
                (VObject (keep_listed ["a"; "b"] (allowed ["a"; "b"]) props []))
                (KStr k) (allowed ["a"; "b"] x) Hkept) as (before & after & E).
    exists before, after. cbn [allowed]. rewrite E. unfold element_calls. cbn [key_text].
    assert (Hf : is_function (allowed ["a"; "b"] x) = false) by now destruct x.
    rewrite Hf. now rewrite <- !app_assoc. }
  split.
  { intros props ->. cbn [allowed]. eexists. split; [reflexivity|]. intros k y Hin.
    apply keep_listed_from in Hin. destruct Hin as [[]|(x & Hin & Hk & Hx & ->)].
    split; [|eauto]. cbn [existsb] in Hk.
    destruct (String.eqb_spec k "a") as [->|_]; [now left|].
    destruct (String.eqb_spec k "b") as [->|_]; [now right | discriminate]. }
  intros items ->. reflexivity.
Qed.

(** C10 (as amended). The replacer, given as a function or made from an array of keys,
    is called by [Stringify] on the entries of arrays and objects only: on
    those of the value and, where it answers a value, on those of its
    answer. The root is cloned without asking it: the clone is an array
    for an array, an object for an object (and for [null]), the value
    itself otherwise, so that the root element is written even when the
    replacer drops every entry. A call that has the root value as second
    argument can only come from an answer of the replacer that holds it as
    an entry. *)
Theorem replacer_skips_root (fuel : nat) (v : value) (rep : replacer_arg)
    (space : space_arg) :
  (∀ k x, In (Invoke k x) (snd (Stringify fuel v rep space)) →
     offered (replacer_function rep) v k x)
  ∧ (∀ k, In (Invoke k v) (snd (Stringify fuel v rep space)) →
       ∃ k0 x0 y, replacer_function rep k0 x0 = Return y ∧ is_entry y k v)
  ∧ (∀ w, fst (Stringify fuel v rep space) = Return w →
       ∃ c, fst (clone fuel (replacer_function rep) v) = Return c ∧ same_kind v c
         ∧ calls w = [StartDocument "1.0" "UTF-8" true; StartElement (getTagname c)]
                     ++ content_calls c ++ [EndElement; EndDocument])
  ∧ fst (clone (S fuel) drop_all v) = Return (husk v)
  ∧ (∀ ind, space_string space = Return ind → encodable (husk v) = true →
       fst (Stringify (S fuel) v (ReplacerFunction drop_all) space)
       = Return {| indent := ind;
                   calls := [StartDocument "1.0" "UTF-8" true;
                             StartElement (getTagname (husk v))]
                            ++ content_calls (husk v) ++ [EndElement; EndDocument] |}).
Proof.
  assert (Hcalls : ∀ k x, In (Invoke k x) (snd (Stringify fuel v rep space)) →
                          offered (replacer_function rep) v k x).
  { intros k x Hin. destruct (space_string space) as [ind| |] eqn:Hs.
    - rewrite (Stringify_trace _ _ _ _ _ Hs) in Hin. now apply clone_calls_offered in Hin.
    - unfold Stringify, bind, lift in Hin. rewrite Hs in Hin. destruct Hin.
    - unfold Stringify, bind, lift in Hin. rewrite Hs in Hin. destruct Hin. }
  repeat split.
  - exact Hcalls.
  - intros k Hin. apply Hcalls in Hin. remember v as x eqn:Hx in Hin at 2.
    assert (Hgen : ∀ u k x, offered (replacer_function rep) u k x →
              is_entry u k x ∨ ∃ k0 x0 y, replacer_function rep k0 x0 = Return y
                                          ∧ is_entry y k x).
    { clear. induction 1 as [u k x He|u k0 x0 y k x He Hf Hoff IH]; [now left|].
      right. destruct IH as [Hy|Hy]; eauto. }
    destruct (Hgen _ _ _ Hin) as [He|He]; subst x; [|exact He].
    now apply entry_not_self in He.
  - intros w Hret. destruct (Stringify fuel v rep space) as [o t] eqn:HS. simpl in Hret.
    subst o. apply Stringify_Return in HS. destruct HS as (ind & c & Hs & Hc & He & ->).
    exists c. rewrite Hc. repeat split; auto.
    apply (clone_same_kind fuel (replacer_function rep) v c). now rewrite Hc.
  - apply clone_drop_all.
  - intros ind Hs He.
    pose proof (clone_drop_all fuel v) as Hc.
    destruct (clone (S fuel) drop_all v) as [o t] eqn:Hcl. simpl in Hc. subst o.
    now rewrite (Stringify_intro (S fuel) v (ReplacerFunction drop_all) space ind
                   (husk v) t Hs Hcl He).
Qed.

(** C1, as the code has it. A value is faithful when it holds no function
    and no [undefined], no empty string, array or object, no invalid date,
    only distinct non-empty property names, and [null] in the last place
    only of an array or an object; it is ordinary when no property is named
    [__proto__] and the properties of every object are in the order of
    their enumeration. For a faithful and ordinary value, a fuel that covers its depth and a
    [space] that is absent, a count of blanks that is not negative or a
    string without markup, [Stringify] followed by [Parse] returns a value
    equal to the first one up to the rounding of its numbers and dates. *)
Theorem roundtrip_faithful_values number_close date_close fuel v space :
  conversions_close number_close date_close →
  faithful v = true → ordinary v = true → depth v ≤ fuel → plain_space space = true →
  ∃ v', fst (Parse_Stringify fuel v ReplacerUndefined space None) = Return v'
        ∧ value_close number_close date_close v' v.
Proof.
  intros Hconv Hf _ Hd Hsp. exists (decoded (cloned v)). split.
  - apply Parse_Stringify_faithful; auto.
    + intros n. apply (proj1 Hconv).
    + intros d iso Hiso. now apply (proj2 Hconv d iso).
  - now apply decoded_cloned_close.
Qed.

(** C7, as the code has it. For a faithful and ordinary array
    [[a, b, c]] and a [space] without markup, [Stringify]
    followed by [Parse] without a reviver returns the three elements in
    their order, each up to the rounding of its numbers and dates. With a
    reviver that answers [undefined] at index 1 and its argument at the
    indexes 0 and 2, the result has two elements: what [revive] makes of
    the first and of the third, which are the first and the third
    themselves when [a] and [c] are scalars. *)
Theorem array_order_and_compaction number_close date_close fuel a b c space r :
  conversions_close number_close date_close →
  faithful (VArray [a; b; c]) = true → ordinary (VArray [a; b; c]) = true →
  depth (VArray [a; b; c]) ≤ S fuel → plain_space space = true →
  ∃ a' b' c',
    value_close number_close date_close a' a
    ∧ value_close number_close date_close b' b
    ∧ value_close number_close date_close c' c
    ∧ fst (Parse_Stringify (S fuel) (VArray [a; b; c]) ReplacerUndefined space None)
      = Return (VArray [a'; b'; c'])
    ∧ ((∀ x, r (KIdx 0) x = Return x) →
       (∀ x, r (KIdx 1) x = Return VUndefined) →
       (∀ x, r (KIdx 2) x = Return x) →
       (∀ ra rc,
          fst (revive fuel r a') = Return ra → fst (revive fuel r c') = Return rc →
          fst (Parse_Stringify (S fuel) (VArray [a; b; c]) ReplacerUndefined space (Some r))
          = Return (VArray [ra; rc]))
       ∧ (is_scalar a = true → is_scalar c = true →
          fst (Parse_Stringify (S fuel) (VArray [a; b; c]) ReplacerUndefined space (Some r))
          = Return (VArray [a'; c']))).
Proof.
  intros Hconv Hf _ Hd Hsp.
  assert (Hall : forallb faithful [a; b; c] = true).
  { cbn [faithful] in Hf. apply andb_prop in Hf. destruct Hf as [Hf _].
    apply andb_prop in Hf. destruct Hf as [Hf _]. now apply andb_prop in Hf. }
  pose proof Hall as Habc. cbn [forallb] in Habc.
  apply andb_prop in Habc. destruct Habc as [Ha Habc].
  apply andb_prop in Habc. destruct Habc as [Hb Habc].
  apply andb_prop in Habc. destruct Habc as [Hc _].
  destruct (Parse_Stringify_faithful (S fuel) (VArray [a; b; c]) space) as [Hnone Hsome];
    auto.
  { intros n. apply (proj1 Hconv). }
  { intros d iso Hiso. now apply (proj2 Hconv d iso). }
  rewrite (cloned_array [a; b; c] Hall) in Hnone, Hsome.
  change (decoded (VArray (map cloned [a; b; c])))
    with (VArray [decoded (cloned a); decoded (cloned b); decoded (cloned c)])
    in Hnone, Hsome.
  exists (decoded (cloned a)), (decoded (cloned b)), (decoded (cloned c)).
  repeat (split; [now (apply decoded_cloned_close || exact Hnone)|]).
  intros H0 H1 H2.
  assert (Hwalk : ∀ ra rc,
             fst (revive fuel r (decoded (cloned a))) = Return ra →
             fst (revive fuel r (decoded (cloned c))) = Return rc →
             fst (Parse_Stringify (S fuel) (VArray [a; b; c]) ReplacerUndefined space
                    (Some r)) = Return (VArray [ra; rc])).
  { intros ra rc Hra Hrc. rewrite Hsome. cbn [revive].
    rewrite fst_bind.
    rewrite (for_index_kept _ r 0 _ _ [] _ ra (H0 _) (decoded_cloned_defined a Ha) Hra).
    rewrite (for_index_dropped _ r 1 _ _ _ (H1 _)).
    rewrite (for_index_kept _ r 2 _ _ _ _ rc (H2 _) (decoded_cloned_defined c Hc) Hrc).
    reflexivity. }
  split; [exact Hwalk|]. intros Hsa Hsc.
  assert (Hfuel : ∃ f, fuel = S f).
  { destruct fuel as [|f]; [|now exists f]. destruct a; simpl in Hd; lia. }
  destruct Hfuel as [f ->].
  apply Hwalk; rewrite revive_scalar; auto using decoded_cloned_scalar.
Qed.

(** C8. [Stringify] writes [null] as an element that is started and ended
    with nothing in between, at the root as for an entry, and the parser
    reads such an element as a self-closing tag followed by its closing.
    [Parse] stores [null] under the [name] attribute of a self-closing tag
    in the current container, whatever the tag, but the closing that
    follows leaves it with no current container at all: the next store,
    for a self-closing tag or a text, raises a TypeError. The document of
    [[null, null]] and that of an object with a property after a [null]
    one cannot be parsed. *)
Theorem null_is_a_selfclosing_element :
  (∀ space ind, space_string space = Return ind →
     Stringify 1 VNull ReplacerUndefined space
     = (Return {| indent := ind;
                  calls := [StartDocument "1.0" "UTF-8" true; StartElement "object";
                            EndElement; EndDocument] |}, []))
  ∧ (∀ ind, sax_events {| indent := ind;
                          calls := [StartDocument "1.0" "UTF-8" true;
                                    StartElement "object"; EndElement; EndDocument] |}
            = [Text newline; OpenTag "object" [] true; CloseTag "object"])
  ∧ (∀ k, element_calls k (cloned VNull) (content_calls (cloned VNull))
          = [StartElement "object"; WriteAttribute "name" k; EndElement])
  ∧ (∀ st a name attrs, current st = Some a →
       feed [OpenTag name attrs true; CloseTag name] st
       = (Return {| path := path st;
                    heap := alter (store (property_key (attributes_name attrs))
                                         (HPrim VNull)) a (heap st);
                    current := None;
                    rootNode := match rootNode st with
                                | None => Some (attributes_name attrs)
                                | r => r
                                end |}, []))
  ∧ (∀ st name attrs evs, current st = None →
       feed (OpenTag name attrs true :: evs) st
       = (Throw (TypeError "Cannot set properties of undefined"), []))
  ∧ fst (Parse_Stringify 2 (VArray [VNull; VNull]) ReplacerUndefined SpaceUndefined None)
    = Throw (TypeError "Cannot set properties of undefined")
  ∧ fst (Parse_Stringify 2 (VObject [("a", VNull); ("b", VBool true)])
           ReplacerUndefined SpaceUndefined None)
    = Throw (TypeError "Cannot set properties of undefined").
Proof.
  split; [|split; [|split; [|split; [|split; [|split]]]]].
  - intros space ind Hs.
    exact (Stringify_intro 1 VNull ReplacerUndefined space ind (VObject []) [] Hs
             eq_refl eq_refl).
  - intros [ind|]; reflexivity.
  - reflexivity.
  - intros st a name attrs Hcur. cbn [feed handle]. unfold lift, onopentag, assign.
    rewrite Hcur. cbn [negb]. rewrite bind_Return_nil. unfold onclosetag.
    cbn [path dataType parentObject heap current rootNode].
    rewrite bind_Return_nil. reflexivity.
  - intros st name attrs evs Hcur. cbn [feed handle]. unfold lift, onopentag, assign.
    rewrite Hcur. reflexivity.
  - reflexivity.
  - reflexivity.
Qed.

End Properties.

(** * The claims on the sample runtime *)

(** C2: the claim fails. The parser reports that the root tag is never
    closed (it raises nothing itself at the end of the text); [Parse]
    writes the error to the console and returns the object built so far. *)
Lemma unclosed_root_is_returned :
  Parse 0 {| events := [OpenTag "object" [] false; Error (SaxError "Unclosed root tag")];
             failure := None |} None
  = (Return (VObject []), [Console (SaxError "Unclosed root tag")]).
Proof. reflexivity. Qed.

(** C3: the code departs from the claim. A count of 25 gives the writer
    25 blanks and a count of 10 gives it 10, so the two documents differ
    wherever an element is nested; a count of -1 raises a RangeError where
    0 gives the compact document; a string of 12 characters is passed on
    whole. *)
Lemma space_is_not_clamped :
  (∀ v n, (0 <= n)%Z →
     space_string (SpaceNumber n) = Return (Some (repeat_string " " (Z.to_nat n)))
     ∧ String.length (repeat_string " " (Z.to_nat n)) = Z.to_nat n
     ∧ ∀ w, fst (Stringify (depth v) v ReplacerUndefined (SpaceNumber n)) = Return w →
            indent w = Some (repeat_string " " (Z.to_nat n)))
  ∧ fst (Stringify 2 (VArray [VNumber (Whole 1)]) ReplacerUndefined (SpaceNumber 25))
    ≠ fst (Stringify 2 (VArray [VNumber (Whole 1)]) ReplacerUndefined (SpaceNumber 10))
  ∧ (∀ w25 w10,
       fst (Stringify 2 (VArray [VNumber (Whole 1)]) ReplacerUndefined (SpaceNumber 25))
       = Return w25 →
       fst (Stringify 2 (VArray [VNumber (Whole 1)]) ReplacerUndefined (SpaceNumber 10))
       = Return w10 →
       sax_events w25 ≠ sax_events w10)
  ∧ fst (Stringify 2 (VArray [VNumber (Whole 1)]) ReplacerUndefined (SpaceNumber (-1)))
    = Throw (RangeError "Invalid count value")
  ∧ fst (Stringify 2 (VArray [VNumber (Whole 1)]) ReplacerUndefined (SpaceNumber 0))
    = fst (Stringify 2 (VArray [VNumber (Whole 1)]) ReplacerUndefined (SpaceString ""))
  ∧ (∀ w, fst (Stringify 2 (VArray [VNumber (Whole 1)]) ReplacerUndefined
                 (SpaceString "abcdefghijkl")) = Return w →
          indent w = Some "abcdefghijkl").
Proof.
  repeat split.
  - unfold space_string, String_repeat. destruct (Z.ltb_spec n 0); [lia | reflexivity].
  - induction (Z.to_nat n) as [|m IH]; simpl; [reflexivity | f_equal; exact IH].
  - intros w Hret.
    destruct (Stringify (depth v) v ReplacerUndefined (SpaceNumber n)) as [o t] eqn:HS.
    simpl in Hret. subst o. apply Stringify_Return in HS.
    destruct HS as (ind & c & Hs & _ & _ & ->). simpl.
    unfold space_string, String_repeat in Hs. destruct (Z.ltb_spec n 0); [lia|].
    now injection Hs as <-.
  - discriminate.
  - intros w25 w10 [= <-] [= <-]. discriminate.
  - intros w [= <-]. reflexivity.
Qed.

(** The sample runtime prints no number and no date as the empty text and
    reads back what it prints. *)
Lemma sample_toString_parse n :
  sample_toString n ≠ "" ∧ sample_parseFloat (sample_toString n) = n.
Proof.
  assert (Hisi : ∀ z, NilZero.int_of_string (NilZero.string_of_int (Z.to_int z))
                      = Some (Z.to_int z)).
  { intros z. apply NilZero.isi; destruct z; simpl; try discriminate;
      intros [= E]; now apply Unsigned.to_uint_nonnil in E. }
  destruct n as [|z]; [split; [discriminate | reflexivity]|]. split.
  - simpl. intros E. specialize (Hisi z). rewrite E in Hisi. discriminate.
  - unfold sample_parseFloat, sample_toString. now rewrite Hisi, DecimalZ.of_to.
Qed.

Lemma sample_conversions_close : conversions_close (H := sample_primitives) eq eq.
Proof.
  split.
  - intros n. apply sample_toString_parse.
  - intros [s|] iso Hiso; simpl in Hiso; [|discriminate].
    destruct (iso_shaped s) eqn:Hs; [|discriminate]. injection Hiso as <-. split.
    + intros ->. discriminate.
    + simpl. now rewrite Hs.
Qed.

(** C1: the claim fails on the empty object, which holds no function and
    no cycle: its document is one self-closing element, read back as
    [null]. The same holds for the empty array. *)
Lemma empty_object_comes_back_null :
  fst (Parse_Stringify 1 (VObject []) ReplacerUndefined SpaceUndefined None) = Return VNull
  ∧ fst (Parse_Stringify 1 (VArray []) ReplacerUndefined SpaceUndefined None) = Return VNull
  ∧ ¬ value_close eq eq VNull (VObject [])
  ∧ ¬ value_close eq eq VNull (VArray []).
Proof. repeat split; try reflexivity; intros []. Qed.

(** C1 on a sample: an object holding an array, a date and a string. *)
Lemma roundtrip_faithful_values_witness :
  ∃ v', fst (Parse_Stringify 3 sample_value ReplacerUndefined (SpaceNumber 2) None)
        = Return v'
        ∧ value_close eq eq v' sample_value.
Proof.
  apply (roundtrip_faithful_values eq eq 3 sample_value (SpaceNumber 2));
    [exact sample_conversions_close | reflexivity | reflexivity | vm_compute; lia
    | reflexivity].
Defined.



(** C5: the claim fails. The document [<number>1</number>] parsed with a
    reviver that drops whatever it is asked about gives the number 1, and
    the reviver has not been called. *)
Lemma reviver_not_called_on_root :
  Parse 1 sample_document (Some drop_all) = (Return (VNumber (Whole 1)), []).
Proof. reflexivity. Qed.

(** C5 on a sample: the same document and reviver. *)
Lemma reviver_skips_top_level_witness :
  fst (Parse 1 sample_document (Some drop_all)) = fst (revive 1 drop_all sample_one)
  ∧ ∀ k, ¬ is_entry sample_one k sample_one.
Proof.
  destruct (reviver_skips_top_level 1 sample_document drop_all sample_one eq_refl)
    as (Hres & _ & _ & _ & Hself & _).
  split; assumption.
Defined.


(** C10: the claim fails in its last clause. A replacer that answers
    an array holding the root is next called on the entry of that array:
    its second argument is the root value. *)
Lemma replacer_meets_root_as_entry :
  Stringify 3 sample_root (ReplacerFunction sample_wrapping) SpaceUndefined
  = (Return {| indent := None;
               calls := document_calls (VObject [("a", VArray [sample_true])]) |},
     [Invoke (KStr "a") sample_one; Invoke (KIdx 0) sample_root]).
Proof. reflexivity. Qed.

(** C7: the claim fails. The array [[1, 2, {}]] comes back as
    [[1, 2, null]]; and the reviver that drops index 1 drops it in the
    nested arrays too, so that [[[1, 2], 3, 4]] comes back as [[[1], 4]]. *)
Lemma nested_arrays_are_compacted_too :
  fst (Parse_Stringify 2 (VArray [VNumber (Whole 1); VNumber (Whole 2); VObject []])
         ReplacerUndefined SpaceUndefined None)
  = Return (VArray [VNumber (Whole 1); VNumber (Whole 2); VNull])
  ∧ fst (Parse_Stringify 3 sample_nested ReplacerUndefined SpaceUndefined (Some drop_second))
    = Return (VArray [VArray [VNumber (Whole 1)]; VNumber (Whole 4)]).
Proof. split; reflexivity. Qed.

(** C7 on a sample: the array [[1, 2, 3]]. *)
Lemma array_order_and_compaction_witness :
  ∃ a' b' c',
    fst (Parse_Stringify 2 sample_array ReplacerUndefined (SpaceNumber 2) None)
    = Return (VArray [a'; b'; c'])
    ∧ fst (Parse_Stringify 2 sample_array ReplacerUndefined (SpaceNumber 2)
             (Some drop_second))
      = Return (VArray [a'; c']).
Proof.
  destruct (array_order_and_compaction eq eq 1 sample_one sample_two sample_three
              (SpaceNumber 2) drop_second
              sample_conversions_close eq_refl eq_refl (le_n 2) eq_refl)
    as (a' & b' & c' & _ & _ & _ & Hnone & Hsome).
  exists a', b', c'. split; [exact Hnone|].
  apply Hsome; reflexivity.
Defined.

(** * Further properties of [Parse] and [Stringify] *)

Section Further.
Context `{Primitives}.

#[local] Arguments bind : simpl never.
#[local] Arguments call : simpl never.
#[local] Arguments ret : simpl never.
#[local] Arguments short : simpl never.

(** ** A text without any element *)

Lemma feed_elementless evs st :
  elementless evs = true → path st = [] → feed evs st = (Return st, errors evs).
Proof.
  induction evs as [|ev evs IH]; intros He Hp; [reflexivity|].
  simpl in He. apply andb_prop in He. destruct He as [Hev He].
  destruct ev as [n a b|t|n|e]; try discriminate.
  - rewrite feed_text_outside by exact Hp. now apply IH.
  - cbn [feed handle]. unfold onerror, bind. now rewrite (IH He Hp).
Qed.

(** X1. When the parser delivers no tag at all (the empty text, white
    space, or errors only) and its [write] and [close] return, [Parse]
    returns [undefined], with or without a reviver: nothing was stored
    under the key [null] that [rootNode] still holds. The reviver is not
    called, and the console shows the errors reported. *)
Theorem parse_without_element (fuel : nat) (xml : sax_run) (reviver : option callback) :
  elementless (events xml) = true → failure xml = None →
  Parse (S fuel) xml reviver = (Return VUndefined, errors (events xml)).
Proof.
  intros He Hf. unfold Parse. rewrite (feed_elementless _ initial He eq_refl), Hf.
  unfold bind, lift. cbn. destruct reviver; cbn; unfold ret; cbn; now rewrite app_nil_r.
Qed.

(** ** The reviver that changes nothing *)

(** X2. [Parse] with the reviver [(k, v) => v] does not return what
    [Parse] returns without a reviver: [revive] rebuilds every array and
    object, so every [null], at the top or nested, comes back as an empty
    object, and the holes of an array are closed up. *)
Theorem identity_reviver_empties_null (fuel : nat) (xml : sax_run) (v : value) :
  fst (Parse fuel xml None) = Return v → depth v ≤ fuel →
  fst (Parse fuel xml (Some keep_all)) = Return (cloned v)
  ∧ (is_null v = true → fst (Parse fuel xml (Some keep_all)) = Return (VObject []))
  ∧ (∀ items, v = VArray items →
       fst (Parse fuel xml (Some keep_all)) = Return (VArray (keep_items cloned items))).
Proof.
  intros Hv Hd.
  assert (Hres : fst (Parse fuel xml (Some keep_all)) = Return (cloned v)).
  { rewrite (Parse_reviver fuel xml keep_all v Hv). cbn [fst]. rewrite revive_clone.
    exact (clone_keep fuel v Hd). }
  split; [exact Hres|]. split.
  - intros Hn. rewrite Hres. now destruct v.
  - intros items ->. exact Hres.
Qed.

(** ** What the clone holds *)

Lemma clone_undefined fuel f x c :
  fst (clone fuel f x) = Return c → is_undefined c = is_undefined x.
Proof.
  intros Hc. apply clone_same_kind in Hc.
  destruct x; simpl in Hc; try (now subst c); now destruct Hc as [l ->].
Qed.

Lemma for_index_defined (walk : value → traced value) f n items result result' :
  (∀ x c, fst (walk x) = Return c →
     is_undefined c = is_undefined x ∧ defined_within c = true) →
  forallb (fun x => negb (is_undefined x) && defined_within x) result = true →
  fst (for_index walk f n items result) = Return result' →
  forallb (fun x => negb (is_undefined x) && defined_within x) result' = true.
Proof.
  intros Hwalk. revert n result.
  induction items as [|x items IH]; intros n result Hres Hret.
  { injection Hret as <-. exact Hres. }
  cbn [for_index] in Hret. apply bind_Return in Hret. destruct Hret as (el & _ & Hret).
  destruct (is_undefined el) eqn:Hel; [now apply (IH (S n) result)|].
  apply bind_Return in Hret. destruct Hret as (c & Hc & Hret).
  apply (IH (S n) (result ++ [c])); [|exact Hret].
  destruct (Hwalk el c Hc) as [Hu Hd].
  rewrite forallb_app, Hres. cbn. now rewrite Hu, Hel, Hd.
Qed.

Lemma for_in_defined (walk : value → traced value) f props result result' :
  (∀ x c, fst (walk x) = Return c →
     is_undefined c = is_undefined x ∧ defined_within c = true) →
  forallb (fun kx => negb (is_undefined (snd kx)) && defined_within (snd kx)) result = true →
  fst (for_in walk f props result) = Return result' →
  forallb (fun kx => negb (is_undefined (snd kx)) && defined_within (snd kx)) result' = true.
Proof.
  intros Hwalk. revert result.
  induction props as [|[k x] props IH]; intros result Hres Hret.
  { injection Hret as <-. exact Hres. }
  cbn [for_in] in Hret. apply bind_Return in Hret. destruct Hret as (el & _ & Hret).
  destruct (is_undefined el) eqn:Hel; [now apply (IH result)|].
  apply bind_Return in Hret. destruct Hret as (c & Hc & Hret).
  apply (IH (set_prop result k c)); [|exact Hret].
  destruct (Hwalk el c Hc) as [Hu Hd].
  apply forallb_set_prop; [exact Hres|]. cbn. now rewrite Hu, Hel, Hd.
Qed.

Lemma clone_defined fuel f v c :
  fst (clone fuel f v) = Return c → defined_within c = true.
Proof.
  revert v c. induction fuel as [|fuel IH]; intros v c Hc; [discriminate|].
  assert (Hwalk : ∀ x c0, fst (clone fuel f x) = Return c0 →
            is_undefined c0 = is_undefined x ∧ defined_within c0 = true).
  { intros x c0 Hx. split; [now apply (clone_undefined fuel f) | now apply (IH x)]. }
  destruct v as [ | | b | n | s | d | g | items | props ]; cbn [clone] in Hc;
    try (injection Hc as <-; reflexivity).
  - apply bind_Return in Hc. destruct Hc as (result & Hr & Hc). injection Hc as <-.
    cbn [defined_within]. now apply (for_index_defined _ f 0 items [] result Hwalk).
  - apply bind_Return in Hc. destruct Hc as (result & Hr & Hc). injection Hc as <-.
    cbn [defined_within]. now apply (for_in_defined _ f props [] result Hwalk).
Qed.

(** X3. Whatever the replacer answers, the tree that the clone pass hands
    to the serialize pass holds no [null] and no [undefined] entry: a
    [null] has become an empty object (so that it is written under the tag
    [object]) and an [undefined] entry is left out. Only the root can be
    [undefined], when the value itself is. *)
Theorem clone_holds_no_null (fuel : nat) (v : value) (rep : replacer_arg)
    (space : space_arg) :
  (∀ c, fst (clone fuel (replacer_function rep) v) = Return c →
     defined_within c = true ∧ is_undefined c = is_undefined v)
  ∧ (∀ w, fst (Stringify fuel v rep space) = Return w →
       ∃ c, calls w = document_calls c ∧ defined_within c = true
            ∧ is_undefined v = false).
Proof.
  split.
  - intros c Hc. split; [now apply clone_defined in Hc | now apply clone_undefined in Hc].
  - intros w Hret. destruct (Stringify fuel v rep space) as [o t] eqn:HS.
    cbn [fst] in Hret. subst o. apply Stringify_Return in HS.
    destruct HS as (ind & c & _ & Hc & He & ->). exists c. cbn [calls].
    assert (Hc' : fst (clone fuel (replacer_function rep) v) = Return c) by now rewrite Hc.
    split; [reflexivity|]. split; [now apply clone_defined in Hc'|].
    rewrite <- (clone_undefined _ _ _ _ Hc'). now destruct c.
Qed.

(** ** Exceptions of the replacer *)

(** X4. An exception raised by a replacer function ends [Stringify] with
    that exception: nothing is written once a call of the replacer has
    raised. *)
Theorem replacer_exception_propagates (fuel : nat) (v : value) (r : callback)
    (space : space_arg) (k : key) (x : value) (e : exn) :
  r k x = Throw e →
  In (Invoke k x) (snd (Stringify fuel v (ReplacerFunction r) space)) →
  fst (Stringify fuel v (ReplacerFunction r) space) = Throw e.
Proof.
  intros Hr Hin. unfold Stringify in *.
  destruct (space_string space) as [ind| |] eqn:Hs; unfold lift at 1 in Hin;
    try (now destruct Hin).
  unfold lift at 1. rewrite bind_Return_nil in *. cbn [replacer_function] in *.
  rewrite snd_bind in Hin. rewrite fst_bind. apply in_app_or in Hin.
  destruct Hin as [Hin|Hin].
  - now rewrite (clone_throws fuel r v k x e Hr Hin).
  - destruct (fst (clone fuel r v)) as [c| |]; try (now destruct Hin).
    rewrite snd_bind in Hin. unfold lift in Hin. cbn [snd app] in Hin.
    destruct (stringifyValue c _); now destruct Hin.
Qed.

(** ** When [Stringify] raises *)

Lemma write_elements_invalid n items w :
  Forall (fun x => ∀ w, is_undefined x = false → defined_within x = true →
                        encodable x = false →
                        stringifyValue x w = Throw (RangeError "Invalid time value")) items →
  forallb (fun x => negb (is_undefined x) && defined_within x) items = true →
  forallb (fun x => is_function x || encodable x) items = false →
  write_elements stringifyValue n items w = Throw (RangeError "Invalid time value").
Proof.
  intros HF. revert n w. induction HF as [|x items Hx _ IH]; intros n w Hd He;
    [discriminate|].
  cbn [forallb] in Hd, He. apply andb_prop in Hd. destruct Hd as [Hdx Hd].
  apply andb_prop in Hdx. destruct Hdx as [Hux Hdx]. apply negb_true_iff in Hux.
  cbn [write_elements]. destruct (is_function x); [now apply IH|].
  cbn [orb] in He. destruct (encodable x) eqn:Hex.
  - pose proof (stringifyValue_spec x
                  (emit (emit w (StartElement (getTagname x)))
                        (WriteAttribute "name" (string_of_nat n)))) as Hw.
    destruct (stringifyValue x _) as [w'| |]; simpl in Hw; [|congruence|tauto].
    now apply IH.
  - now rewrite Hx.
Qed.

Lemma write_properties_invalid props w :
  Forall (fun kx => ∀ w, is_undefined (snd kx) = false → defined_within (snd kx) = true →
                         encodable (snd kx) = false →
                         stringifyValue (snd kx) w
                         = Throw (RangeError "Invalid time value")) props →
  forallb (fun kx => negb (is_undefined (snd kx)) && defined_within (snd kx)) props = true →
  forallb (fun kx => is_function (snd kx) || encodable (snd kx)) props = false →
  write_properties stringifyValue props w = Throw (RangeError "Invalid time value").
Proof.
  intros HF. revert w. induction HF as [|[k x] props Hx _ IH]; intros w Hd He;
    [discriminate|].
  cbn [forallb snd] in Hd, He. apply andb_prop in Hd. destruct Hd as [Hdx Hd].
  apply andb_prop in Hdx. destruct Hdx as [Hux Hdx]. apply negb_true_iff in Hux.
  cbn [write_properties snd fst]. destruct (is_function x); [now apply IH|].
  cbn [orb] in He. destruct (encodable x) eqn:Hex.
  - pose proof (stringifyValue_spec x
                  (emit (emit w (StartElement (getTagname x))) (WriteAttribute "name" k)))
      as Hw.
    destruct (stringifyValue x _) as [w'| |]; simpl in Hw; [|congruence|tauto].
    now apply IH.
  - cbn [snd] in Hx. now rewrite Hx.
Qed.

Lemma stringifyValue_invalid c :
  ∀ w, is_undefined c = false → defined_within c = true → encodable c = false →
       stringifyValue c w = Throw (RangeError "Invalid time value").
Proof.
  induction c as [ | | b | n | s | d | f | items IH | props IH ] using value_ind';
    intros w Hu Hd He; try discriminate.
  - simpl in *. now destruct (toISOString d).
  - cbn [stringifyValue]. now apply write_elements_invalid.
  - cbn [stringifyValue]. now apply write_properties_invalid.
Qed.

(** X5. Once [space] is accepted and the clone pass has returned, what
    [Stringify] does is decided by the clone: for the value [undefined] it
    raises a TypeError (no [toString] to call); when the clone holds an
    invalid date outside the entries the serialize pass skips, it raises
    the RangeError of [toISOString]; in every other case it returns the
    document of the clone. *)
Theorem stringify_raises_on_invalid_date (fuel : nat) (v : value) (rep : replacer_arg)
    (space : space_arg) (ind : option string) (c : value) :
  space_string space = Return ind →
  fst (clone fuel (replacer_function rep) v) = Return c →
  (is_undefined v = true →
     fst (Stringify fuel v rep space)
     = Throw (TypeError "Cannot read properties of undefined (reading 'toString')"))
  ∧ (is_undefined v = false → encodable c = false →
     fst (Stringify fuel v rep space) = Throw (RangeError "Invalid time value"))
  ∧ (encodable c = true →
     fst (Stringify fuel v rep space)
     = Return {| indent := ind; calls := document_calls c |}).
Proof.
  intros Hs Hc.
  assert (HS : fst (Stringify fuel v rep space)
               = match stringifyValue c
                         {| indent := ind;
                            calls := [StartDocument "1.0" "UTF-8" true;
                                      StartElement (getTagname c)] |} with
                 | Return w => Return (emit (emit w EndElement) EndDocument)
                 | Throw e => Throw e
                 | OutOfFuel => OutOfFuel
                 end).
  { unfold Stringify. rewrite Hs. unfold lift at 1. rewrite bind_Return_nil.
    rewrite fst_bind, Hc, fst_bind. unfold lift, emit. cbn [fst indent calls app].
    now destruct (stringifyValue c _). }
  pose proof (clone_undefined _ _ _ _ Hc) as Hu.
  split; [|split].
  - intros Hv. rewrite HS. rewrite Hv in Hu. now destruct c.
  - intros Hv He. rewrite HS, stringifyValue_invalid; auto; [congruence|].
    now apply clone_defined in Hc.
  - intros He. destruct (clone fuel (replacer_function rep) v) as [o t] eqn:Hcl.
    cbn [fst] in Hc. subst o. now rewrite (Stringify_intro fuel v rep space ind c t).
Qed.

(** ** Tag names that [Parse] does not know *)

Lemma known_tag_date n : String.eqb (known_tag n) "date" = String.eqb n "date".
Proof.
  unfold known_tag. destruct (String.eqb n "date") eqn:E1; cbn [orb]; [exact E1|].
  destruct (String.eqb n "number"); cbn [orb]; [exact E1|].
  destruct (String.eqb n "string"); cbn [orb]; [exact E1|].
  destruct (String.eqb n "boolean"); cbn [orb]; [exact E1|].
  destruct (String.eqb n "array"); [exact E1 | reflexivity].
Qed.

Lemma known_tag_number n : String.eqb (known_tag n) "number" = String.eqb n "number".
Proof.
  unfold known_tag. destruct (String.eqb n "date") eqn:E1; cbn [orb]; [reflexivity|].
  destruct (String.eqb n "number") eqn:E2; cbn [orb]; [exact E2|].
  destruct (String.eqb n "string"); cbn [orb]; [exact E2|].
  destruct (String.eqb n "boolean"); cbn [orb]; [exact E2|].
  destruct (String.eqb n "array"); [exact E2 | reflexivity].
Qed.

Lemma known_tag_string n : String.eqb (known_tag n) "string" = String.eqb n "string".
Proof.
  unfold known_tag. destruct (String.eqb n "date") eqn:E1; cbn [orb]; [reflexivity|].
  destruct (String.eqb n "number") eqn:E2; cbn [orb]; [reflexivity|].
  destruct (String.eqb n "string") eqn:E3; cbn [orb]; [exact E3|].
  destruct (String.eqb n "boolean"); cbn [orb]; [exact E3|].
  destruct (String.eqb n "array"); [exact E3 | reflexivity].
Qed.

Lemma known_tag_boolean n : String.eqb (known_tag n) "boolean" = String.eqb n "boolean".
Proof.
  unfold known_tag. destruct (String.eqb n "date") eqn:E1; cbn [orb]; [reflexivity|].
  destruct (String.eqb n "number") eqn:E2; cbn [orb]; [reflexivity|].
  destruct (String.eqb n "string") eqn:E3; cbn [orb]; [reflexivity|].
  destruct (String.eqb n "boolean") eqn:E4; cbn [orb]; [exact E4|].
  destruct (String.eqb n "array"); [exact E4 | reflexivity].
Qed.

Lemma known_tag_array n : String.eqb (known_tag n) "array" = String.eqb n "array".
Proof.
  unfold known_tag. destruct (String.eqb n "date") eqn:E1; cbn [orb]; [reflexivity|].
  destruct (String.eqb n "number") eqn:E2; cbn [orb]; [reflexivity|].
  destruct (String.eqb n "string") eqn:E3; cbn [orb]; [reflexivity|].
  destruct (String.eqb n "boolean") eqn:E4; cbn [orb]; [reflexivity|].
  destruct (String.eqb n "array") eqn:E5; [exact E5 | reflexivity].
Qed.

Lemma handle_known st ev :
  handle (known_state st) (known_event ev)
  = (outcome_map known_state (fst (handle st ev)), snd (handle st ev)).
Proof.
  destruct ev as [n attrs b|t|n|e]; cbn [handle known_event]; unfold lift; cbn [fst snd].
  - f_equal. unfold onopentag, assign.
    rewrite known_tag_date, known_tag_number, known_tag_string, known_tag_boolean,
      known_tag_array.
    cbn [known_state path heap current rootNode].
    destruct (negb b);
      [destruct (String.eqb n "date" || String.eqb n "number"
                 || String.eqb n "string" || String.eqb n "boolean");
       [|destruct (String.eqb n "array")]|];
      destruct (current st); reflexivity.
  - f_equal. unfold ontext, assign. cbn [known_state path heap current rootNode].
    destruct (path st) as [|top p]; [reflexivity|]. cbn [map known_node name attributes].
    rewrite known_tag_date, known_tag_number, known_tag_string, known_tag_boolean.
    destruct (String.eqb (name top) "date");
      [|destruct (String.eqb (name top) "number");
        [|destruct (String.eqb (name top) "string");
          [|destruct (String.eqb (name top) "boolean")]]];
      try reflexivity; destruct (current st); reflexivity.
  - f_equal. unfold onclosetag. cbn [known_state path heap current rootNode].
    destruct (path st) as [|top p]; reflexivity.
  - reflexivity.
Qed.

Lemma feed_known evs st :
  feed (map known_event evs) (known_state st)
  = (outcome_map known_state (fst (feed evs st)), snd (feed evs st)).
Proof.
  revert st. induction evs as [|ev evs IH]; intros st; [reflexivity|].
  cbn [map feed]. rewrite handle_known. destruct (handle st ev) as [[st1|e|] t];
    cbn [fst snd outcome_map]; try reflexivity.
  unfold bind. rewrite IH. now destruct (feed evs st1).
Qed.

(** X6. [Parse] knows the tags [date], [number], [string], [boolean] and
    [array]; it takes an element with any other tag for an object. Renaming
    every other tag of a document to [object] changes neither the result
    nor the effects, whatever the reviver. *)
Theorem unknown_tags_are_objects (fuel : nat) (evs : list sax_event)
    (failed : option exn) (reviver : option callback) :
  Parse fuel {| events := map known_event evs; failure := failed |} reviver
  = Parse fuel {| events := evs; failure := failed |} reviver.
Proof.
  unfold Parse. cbn [events failure].
  change initial with (known_state initial) at 1. rewrite feed_known.
  destruct (feed evs initial) as [[st| |] t]; reflexivity.
Qed.

(** ** The element of a scalar *)

Lemma ontext_scalar st nd p a t :
  path st = nd :: p → scalar_tag (name nd) = true → current st = Some a →
  ontext st t
  = Return {| path := path st;
              heap := alter (store (property_key (attributes_name (attributes nd)))
                                   (HPrim (text_value (name nd) t))) a (heap st);
              current := current st; rootNode := rootNode st |}.
Proof.
  intros Hp Hs Hc. unfold ontext, assign, text_value. rewrite Hp, Hc.
  unfold scalar_tag in Hs.
  destruct (String.eqb (name nd) "date"); [reflexivity|].
  destruct (String.eqb (name nd) "number"); [reflexivity|].
  destruct (String.eqb (name nd) "string"); [reflexivity|].
  destruct (String.eqb (name nd) "boolean"); [reflexivity | discriminate].
Qed.

Lemma onopentag_scalar st tag attrs :
  scalar_tag tag = true →
  onopentag st tag attrs false
  = Return {| path := {| name := tag; attributes := attrs; isSelfClosing := false;
                         dataType := basic; parentObject := None |} :: path st;
              heap := heap st; current := current st;
              rootNode := match rootNode st with
                          | None => Some (attributes_name attrs)
                          | r => r
                          end |}.
Proof. intros Hs. unfold onopentag. unfold scalar_tag in Hs. cbn [negb]. now rewrite Hs. Qed.

Lemma set_prop_last {A} (key : string) (f : string → A) ts :
  fold_left (fun props t => set_prop props key (f t)) ts []
  = match last ts with
    | Some t => [(key, f t)]
    | None => []
    end.
Proof.
  induction ts as [|t ts IH] using rev_ind; [reflexivity|].
  rewrite fold_left_app, IH, last_snoc. cbn [fold_left].
  destruct (last ts); cbn [set_prop]; [now rewrite String.eqb_refl | reflexivity].
Qed.

Lemma feed_texts nd root ts evs :
  scalar_tag (name nd) = true →
  ∀ props,
  feed (map Text ts ++ evs)
       {| path := [nd]; heap := [CObject props]; current := Some 0; rootNode := root |}
  = feed evs {| path := [nd];
                heap := [CObject (fold_left
                           (fun props t =>
                              set_prop props (property_key (attributes_name (attributes nd)))
                                       (HPrim (text_value (name nd) t))) ts props)];
                current := Some 0; rootNode := root |}.
Proof.
  intros Hs. induction ts as [|t ts IH]; intros props; [reflexivity|].
  cbn [map app feed handle fold_left].
  rewrite (ontext_scalar {| path := [nd]; heap := [CObject props]; current := Some 0;
                            rootNode := root |} nd [] 0 t eq_refl Hs eq_refl).
  unfold lift. rewrite bind_Return_nil.
  cbn [path heap current rootNode alter list_alter store]. apply IH.
Qed.

Lemma revive_text_value fuel r tag t :
  revive (S fuel) r (text_value tag t) = ret (text_value tag t).
Proof.
  unfold text_value. destruct (String.eqb tag "date"); [reflexivity|].
  destruct (String.eqb tag "number"); [reflexivity|].
  destruct (String.eqb tag "string"); [reflexivity|].
  destruct (String.eqb tag "boolean"); reflexivity.
Qed.

(** X8. A document whose root is a [date], [number], [string] or
    [boolean] element, named otherwise than [__proto__], is read as
    follows: [Parse] returns the value of the last text the parser
    delivers inside the element (a date through [new Date], a number
    through [parseFloat], a string as it is, a boolean that is true for
    the text [true] and false for any other), and [undefined] when it
    delivers none and the name of the element is not one that [obj]
    inherits. A reviver is not called. *)
Theorem scalar_element_value (fuel : nat) (tag : string) (attrs : list (string * string))
    (ts : list string) (reviver : option callback) :
  scalar_tag tag = true →
  object_name (property_key (attributes_name attrs)) = true →
  (ts = [] → inherited_name (property_key (attributes_name attrs)) = false) →
  Parse (S fuel) {| events := OpenTag tag attrs false :: map Text ts ++ [CloseTag tag];
                    failure := None |} reviver
  = (Return (match last ts with
             | Some t => text_value tag t
             | None => VUndefined
             end), []).
Proof.
  intros Hs _ _. unfold Parse. cbn [events failure feed handle].
  rewrite (onopentag_scalar initial tag attrs Hs). unfold lift at 1.
  rewrite bind_Return_nil.
  cbn [initial path heap current rootNode]. change obj with 0.
  rewrite (feed_texts {| name := tag; attributes := attrs; isSelfClosing := false;
                         dataType := basic; parentObject := None |}
             (Some (attributes_name attrs)) ts [CloseTag tag] Hs []).
  cbn [feed handle onclosetag path heap current rootNode initial dataType name attributes].
  unfold lift, ret. rewrite !bind_Return_nil.
  rewrite set_prop_last. unfold read_root. cbn [heap rootNode lookup list_lookup obj].
  destruct (last ts) as [t|]; cbn [get_prop].
  - rewrite String.eqb_refl. cbn [reify length]. rewrite bind_Return_nil.
    destruct reviver; [apply revive_text_value | reflexivity].
  - rewrite bind_Return_nil. now destruct reviver.
Qed.

(** ** The place of an array element *)

Lemma mapM_prim (f : hval → option value) (l : list value) :
  (∀ p, f (HPrim p) = Some p) → mapM f (map HPrim l) = Some l.
Proof.
  intros Hf. induction l as [|x l IH]; [reflexivity|].
  cbn [map mapM]. now rewrite IH, Hf.
Qed.

(** X7. [Parse] puts the element of an array at the index its [name]
    attribute gives, not at its place in the document: for an array with
    the single scalar element named [i] it returns an array of length
    [i + 1] whose first [i] positions are holes; when the name is missing,
    or is no array index and neither [length] nor [__proto__], the array
    stays empty. The array itself is named otherwise than [__proto__]. *)
Theorem array_element_placed_by_name (fuel : nat) (tag t : string)
    (attrs attrs' : list (string * string)) :
  scalar_tag tag = true →
  object_name (property_key (attributes_name attrs)) = true →
  array_name (property_key (attributes_name attrs')) = true →
  Parse fuel {| events := [OpenTag "array" attrs false; OpenTag tag attrs' false;
                           Text t; CloseTag tag; CloseTag "array"];
                failure := None |} None
  = (Return (VArray (match array_index (property_key (attributes_name attrs')) with
                     | Some i => replicate i VUndefined ++ [text_value tag t]
                     | None => []
                     end)), []).
Proof.
  intros Hs _ _.
  set (nd_a := {| name := "array"; attributes := attrs; isSelfClosing := false;
                  dataType := array; parentObject := Some 0 |}).
  set (nd_s := {| name := tag; attributes := attrs'; isSelfClosing := false;
                  dataType := basic; parentObject := None |}).
  set (rk := property_key (attributes_name attrs)).
  set (ek := property_key (attributes_name attrs')).
  set (filled := store ek (HPrim (text_value tag t)) (CArray [] [])).
  set (st1 := {| path := [nd_a]; heap := [CObject [(rk, HRef 1)]; CArray [] []];
                 current := Some 1; rootNode := Some (attributes_name attrs) |}).
  set (st2 := {| path := [nd_s; nd_a]; heap := [CObject [(rk, HRef 1)]; CArray [] []];
                 current := Some 1; rootNode := Some (attributes_name attrs) |}).
  set (st3 := {| path := [nd_s; nd_a]; heap := [CObject [(rk, HRef 1)]; filled];
                 current := Some 1; rootNode := Some (attributes_name attrs) |}).
  set (st4 := {| path := [nd_a]; heap := [CObject [(rk, HRef 1)]; filled];
                 current := Some 1; rootNode := Some (attributes_name attrs) |}).
  set (st5 := {| path := []; heap := [CObject [(rk, HRef 1)]; filled];
                 current := Some 0; rootNode := Some (attributes_name attrs) |}).
  assert (H1 : onopentag initial "array" attrs false = Return st1) by reflexivity.
  assert (H2 : onopentag st1 tag attrs' false = Return st2)
    by now rewrite onopentag_scalar.
  assert (H3 : ontext st2 t = Return st3)
    by now rewrite (ontext_scalar st2 nd_s [nd_a] 1 t eq_refl Hs eq_refl).
  assert (H4 : onclosetag st3 tag = Return st4) by reflexivity.
  assert (H5 : onclosetag st4 "array" = Return st5) by reflexivity.
  assert (Hfeed : feed [OpenTag "array" attrs false; OpenTag tag attrs' false;
                        Text t; CloseTag tag; CloseTag "array"] initial
                  = (Return st5, [])).
  { rewrite feed_cons. cbn [handle]. rewrite H1. unfold lift. rewrite bind_Return_nil.
    rewrite feed_cons. cbn [handle]. rewrite H2. unfold lift. rewrite bind_Return_nil.
    rewrite feed_cons. cbn [handle]. rewrite H3. unfold lift. rewrite bind_Return_nil.
    rewrite feed_cons. cbn [handle]. rewrite H4. unfold lift. rewrite bind_Return_nil.
    rewrite feed_cons. cbn [handle]. rewrite H5. unfold lift. rewrite bind_Return_nil.
    reflexivity. }
  unfold Parse. cbn [events failure]. rewrite Hfeed. unfold lift, ret.
  rewrite !bind_Return_nil.
  assert (Hroot : read_root st5
                  = Return (VArray (match array_index ek with
                                    | Some i => replicate i VUndefined ++ [text_value tag t]
                                    | None => []
                                    end))).
  { unfold read_root, st5. cbn [heap rootNode lookup list_lookup obj get_prop].
    fold rk. rewrite String.eqb_refl. cbn [length reify lookup list_lookup].
    unfold filled, store. destruct (array_index ek) as [i|]; [|reflexivity].
    unfold set_elem. cbn [length]. destruct (decide (i < 0)) as [Hlt|_]; [lia|].
    rewrite Nat.sub_0_r. cbn [app].
    change (replicate i (HPrim VUndefined) ++ [HPrim (text_value tag t)])
      with (replicate i (HPrim VUndefined) ++ map HPrim [text_value tag t]).
    rewrite <- (fmap_replicate HPrim i VUndefined).
    change (HPrim <$> replicate i VUndefined) with (map HPrim (replicate i VUndefined)).
    rewrite <- map_app, mapM_prim by reflexivity. reflexivity. }
  rewrite Hroot. now rewrite bind_Return_nil.
Qed.

(** ** Indentation *)

(** X9. The white space that [Stringify] lays out when it is given a
    count of blanks does not reach the result of [Parse]: for a faithful
    value, parsing the indented document gives what parsing the compact
    one gives, with or without a reviver. *)
Theorem indentation_is_ignored (fuel : nat) (v : value) (n : Z)
    (reviver : option callback) :
  (∀ x, number_toString x ≠ "") →
  (∀ d iso, toISOString d = Some iso → iso ≠ "") →
  faithful v = true → depth v ≤ fuel → (0 <= n)%Z →
  fst (Parse_Stringify fuel v ReplacerUndefined (SpaceNumber n) reviver)
  = fst (Parse_Stringify fuel v ReplacerUndefined SpaceUndefined reviver).
Proof.
  intros Hnum Hdate Hf Hd Hn.
  destruct (Parse_Stringify_faithful fuel v (SpaceNumber n) Hnum Hdate Hf Hd) as [H1 H2].
  { now apply Z.leb_le. }
  destruct (Parse_Stringify_faithful fuel v SpaceUndefined Hnum Hdate Hf Hd eq_refl)
    as [H3 H4].
  destruct reviver as [r|]; [now rewrite H2, H4 | now rewrite H1, H3].
Qed.

(** ** Entries that are [undefined] *)

Lemma for_index_from walk n m items result :
  fst (for_index walk (replacer_function ReplacerUndefined) n items result)
  = fst (for_index walk (replacer_function ReplacerUndefined) m items result).
Proof.
  revert n m result. induction items as [|x items IH]; intros n m result; [reflexivity|].
  cbn [for_index]. rewrite !fst_bind. unfold call. cbn [fst replacer_function].
  destruct (is_undefined x); [apply IH|]. rewrite !fst_bind.
  destruct (fst (walk x)); auto.
Qed.

Lemma for_index_skip walk n xs ys result :
  fst (for_index walk (replacer_function ReplacerUndefined) n (xs ++ VUndefined :: ys) result)
  = fst (for_index walk (replacer_function ReplacerUndefined) n (xs ++ ys) result).
Proof.
  revert n result. induction xs as [|x xs IH]; intros n result.
  - cbn [app for_index]. rewrite fst_bind. unfold call. cbn [fst replacer_function].
    cbn [is_undefined]. apply for_index_from.
  - cbn [app for_index]. rewrite !fst_bind. unfold call. cbn [fst replacer_function].
    destruct (is_undefined x); [apply IH|]. rewrite !fst_bind.
    destruct (fst (walk x)); auto.
Qed.

Lemma for_in_skip walk ps k qs result :
  fst (for_in walk (replacer_function ReplacerUndefined) (ps ++ (k, VUndefined) :: qs) result)
  = fst (for_in walk (replacer_function ReplacerUndefined) (ps ++ qs) result).
Proof.
  revert result. induction ps as [|[k0 x] ps IH]; intros result.
  - cbn [app for_in]. rewrite fst_bind. unfold call. cbn [fst replacer_function].
    reflexivity.
  - cbn [app for_in]. rewrite !fst_bind. unfold call. cbn [fst replacer_function].
    destruct (is_undefined x); [apply IH|]. rewrite !fst_bind.
    destruct (fst (walk x)); auto.
Qed.

Lemma Stringify_of_clone fuel v v' rep space :
  fst (clone fuel (replacer_function rep) v) = fst (clone fuel (replacer_function rep) v') →
  fst (Stringify fuel v rep space) = fst (Stringify fuel v' rep space).
Proof.
  intros Hc. unfold Stringify. rewrite !fst_bind. unfold lift at 1 3. cbn [fst].
  destruct (space_string space); auto. rewrite !fst_bind. now rewrite Hc.
Qed.

(** X10. With no replacer, an entry whose value is [undefined] leaves no
    trace in the document: [Stringify] gives for an array with such an
    element the document of the array without it, the elements after it
    being numbered one lower, and for an object with such a property the
    document of the object without it. *)
Theorem undefined_entries_leave_no_trace (fuel : nat) (space : space_arg) :
  (∀ xs ys,
     fst (Stringify fuel (VArray (xs ++ VUndefined :: ys)) ReplacerUndefined space)
     = fst (Stringify fuel (VArray (xs ++ ys)) ReplacerUndefined space))
  ∧ (∀ ps k qs,
       fst (Stringify fuel (VObject (ps ++ (k, VUndefined) :: qs)) ReplacerUndefined space)
       = fst (Stringify fuel (VObject (ps ++ qs)) ReplacerUndefined space)).
Proof.
  split; intros; apply Stringify_of_clone; destruct fuel as [|fuel]; try reflexivity;
    cbn [clone]; rewrite !fst_bind.
  - now rewrite for_index_skip.
  - now rewrite for_in_skip.
Qed.

(** ** The nesting of the document *)

Lemma nesting_app d cs cs' :
  nesting d (cs ++ cs')
  = match nesting d cs with
    | Some d' => nesting d' cs'
    | None => None
    end.
Proof.
  revert d. induction cs as [|c cs IH]; intros d; [reflexivity|].
  destruct c; cbn [app nesting]; auto. destruct d; auto.
Qed.

Lemma nesting_element d k x :
  nesting (S d) (content_calls x) = Some (S d) →
  nesting d (element_calls k x (content_calls x)) = Some d.
Proof.
  intros Hx. unfold element_calls. destruct (is_function x); [reflexivity|].
  cbn [app nesting]. now rewrite nesting_app, Hx.
Qed.

Lemma nesting_content c : ∀ d, nesting d (content_calls c) = Some d.
Proof.
  induction c as [ | | b | n | s | dt | f | items IH | props IH ] using value_ind';
    intros d; try reflexivity.
  - simpl. now destruct (toISOString dt).
  - cbn [content_calls]. generalize 0.
    induction IH as [|x items Hx _ IHl]; intros n; [reflexivity|].
    cbn [flat_indexed]. now rewrite nesting_app, nesting_element, IHl.
  - cbn [content_calls].
    induction IH as [|[k x] props Hx _ IHl]; [reflexivity|].
    cbn [flat_map fst snd]. now rewrite nesting_app, nesting_element, IHl.
Qed.

Lemma content_calls_inside c :
  Forall (fun call => match call with
                      | StartDocument _ _ _ | EndDocument => False
                      | _ => True
                      end) (content_calls c).
Proof.
  induction c as [ | | b | n | s | dt | f | items IH | props IH ] using value_ind';
    try (repeat constructor).
  - simpl. destruct (toISOString dt); repeat constructor.
  - cbn [content_calls]. generalize 0.
    induction IH as [|x items Hx _ IHl]; intros n; [constructor|].
    cbn [flat_indexed]. apply Forall_app. split; [|apply IHl].
    unfold element_calls. destruct (is_function x); [constructor|].
    repeat constructor. apply Forall_app. split; [exact Hx | repeat constructor].
  - cbn [content_calls].
    induction IH as [|[k x] props Hx _ IHl]; [constructor|].
    cbn [flat_map fst snd]. apply Forall_app. split; [|apply IHl].
    unfold element_calls. destruct (is_function x); [constructor|].
    repeat constructor. apply Forall_app. split; [exact Hx | repeat constructor].
Qed.

(** X11. The calls that [Stringify] makes on the writer, when it
    returns, are those of one well-formed document: the declaration, one
    root element, and inside it elements that are each ended after they
    are started and before their parent is, then the end of the document.
    No element is ended that was not started and none is left open. *)
Theorem document_is_well_nested (fuel : nat) (v : value) (rep : replacer_arg)
    (space : space_arg) :
  ∀ w, fst (Stringify fuel v rep space) = Return w →
    ∃ tag body,
      calls w = StartDocument "1.0" "UTF-8" true :: StartElement tag
                :: body ++ [EndElement; EndDocument]
      ∧ (∀ d, nesting d body = Some d)
      ∧ nesting 0 (calls w) = Some 0
      ∧ Forall (fun call => match call with
                            | StartDocument _ _ _ | EndDocument => False
                            | _ => True
                            end) body.
Proof.
  intros w Hret. destruct (Stringify fuel v rep space) as [o t] eqn:HS.
  cbn [fst] in Hret. subst o. apply Stringify_Return in HS.
  destruct HS as (ind & c & _ & _ & _ & ->).
  exists (getTagname c), (content_calls c). cbn [calls]. unfold document_calls.
  split; [reflexivity|]. split; [apply nesting_content|]. split; [|apply content_calls_inside].
  cbn [app nesting]. now rewrite nesting_app, nesting_content.
Qed.

(** ** The order of the calls of a callback *)

Lemma for_index_order (walk : value → traced value) r n items result :
  filtering r →
  Forall (fun x => (∃ c, fst (walk x) = Return c) ∧ snd (walk x) = calls_order r x) items →
  snd (for_index walk r n items result)
  = flat_indexed (fun n x => Invoke (KIdx n) x
                             :: (if kept r (KIdx n) x then calls_order r x else [])) n items.
Proof.
  intros Hr HF. revert n result.
  induction HF as [|x items [[c Hc] Hx] _ IH]; intros n result; [reflexivity|].
  cbn [for_index flat_indexed]. rewrite snd_bind. unfold call, kept. cbn [fst snd app].
  f_equal. destruct (Hr (KIdx n) x) as [E|E]; rewrite E.
  - destruct (is_undefined x); cbn [negb]; [apply IH|].
    rewrite snd_bind, Hc, Hx. f_equal. apply IH.
  - cbn [is_undefined negb app]. apply IH.
Qed.

Lemma for_in_order (walk : value → traced value) r props result :
  filtering r →
  Forall (fun kx => (∃ c, fst (walk (snd kx)) = Return c)
                    ∧ snd (walk (snd kx)) = calls_order r (snd kx)) props →
  snd (for_in walk r props result)
  = flat_map (fun kx => Invoke (KStr (fst kx)) (snd kx)
                        :: (if kept r (KStr (fst kx)) (snd kx)
                            then calls_order r (snd kx) else [])) props.
Proof.
  intros Hr HF. revert result.
  induction HF as [|[k x] props [[c Hc] Hx] _ IH]; intros result; [reflexivity|].
  cbn [for_in flat_map fst snd] in *. rewrite snd_bind. unfold call, kept.
  cbn [fst snd app]. f_equal. destruct (Hr (KStr k) x) as [E|E]; rewrite E.
  - destruct (is_undefined x); cbn [negb]; [apply IH|].
    rewrite snd_bind, Hc, Hx. f_equal. apply IH.
  - cbn [is_undefined negb app]. apply IH.
Qed.

Lemma clone_order fuel r v :
  filtering r → depth v ≤ fuel → snd (clone fuel r v) = calls_order r v.
Proof.
  intros Hr. revert v. induction fuel as [|fuel IH]; intros v Hd.
  { destruct v; simpl in Hd; lia. }
  destruct v as [ | | b | n | s | d | f | items | props ]; try reflexivity.
  - cbn [clone calls_order]. rewrite snd_bind.
    assert (HF : Forall (fun x => (∃ c, fst (clone fuel r x) = Return c)
                                  ∧ snd (clone fuel r x) = calls_order r x) items).
    { apply Forall_forall. intros x Hx. apply list_elem_of_In in Hx.
      assert (depth x ≤ fuel).
      { cbn [depth] in Hd. pose proof (list_max_In (depth x) (map depth items)
                                         (in_map depth items x Hx)). lia. }
      split; [now apply clone_filtering | now apply IH]. }
    rewrite (for_index_order _ r 0 items [] Hr HF).
    destruct (fst (for_index _ _ _ _ _)); cbn [ret snd]; now rewrite app_nil_r.
  - cbn [clone calls_order]. rewrite snd_bind.
    assert (HF : Forall (fun kx => (∃ c, fst (clone fuel r (snd kx)) = Return c)
                                   ∧ snd (clone fuel r (snd kx)) = calls_order r (snd kx))
                   props).
    { apply Forall_forall. intros kx Hx. apply list_elem_of_In in Hx.
      assert (depth (snd kx) ≤ fuel).
      { cbn [depth] in Hd.
        pose proof (list_max_In (depth (snd kx)) (map (fun kx => depth (snd kx)) props)
                      (in_map (fun kx => depth (snd kx)) props kx Hx)). lia. }
      split; [now apply clone_filtering | now apply IH]. }
    rewrite (for_in_order _ r props [] Hr HF).
    destruct (fst (for_in _ _ _ _)); cbn [ret snd]; now rewrite app_nil_r.
Qed.

(** X12. A callback that only keeps or drops entries (the identity, an
    allow-list, a filter) is called top-down and in document order: on
    each entry of a container in turn (by rising index, or in the order of
    the properties), and, when it keeps an entry, on what that entry holds
    before it is called on the next one. This is the trace of [revive] in
    [Parse], after the errors the parser reported, and the trace of the
    clone pass in [Stringify]. *)
Theorem callback_called_top_down (fuel : nat) (r : callback) (v : value) :
  filtering r → depth v ≤ fuel →
  snd (revive fuel r v) = calls_order r v
  ∧ snd (clone fuel r v) = calls_order r v
  ∧ (∀ xml, fst (Parse fuel xml None) = Return v →
       snd (Parse fuel xml (Some r)) = errors (events xml) ++ calls_order r v)
  ∧ (∀ space ind, space_string space = Return ind →
       snd (Stringify fuel v (ReplacerFunction r) space) = calls_order r v).
Proof.
  intros Hr Hd. pose proof (clone_order fuel r v Hr Hd) as Hc.
  split; [now rewrite revive_clone|]. split; [exact Hc|]. split.
  - intros xml Hv. rewrite (Parse_reviver fuel xml r v Hv). cbn [snd].
    rewrite revive_clone, Hc. f_equal. rewrite Parse_effects. rewrite Parse_outcome in Hv.
    destruct (fst (feed (events xml) initial)) as [st| |] eqn:Hfeed; try discriminate.
    rewrite (feed_trace _ _ _ Hfeed). destruct (failure xml); apply app_nil_r.
  - intros space ind Hs. now rewrite (Stringify_trace fuel v _ space ind Hs).
Qed.

(** ** The store that [Parse] builds *)

Lemma points_ahead_mono a n m v : n ≤ m → points_ahead a n v → points_ahead a m v.
Proof. destruct v; simpl; [auto | lia]. Qed.

Lemma cell_ahead_mono a n m c : n ≤ m → cell_ahead a n c → cell_ahead a m c.
Proof.
  intros Hnm. destruct c as [props|elems props]; simpl.
  - apply List.Forall_impl. intros kx. now apply points_ahead_mono.
  - intros [He Hp]. split; [revert He | revert Hp]; apply List.Forall_impl; intros x;
      now apply points_ahead_mono.
Qed.

Lemma set_prop_Forall {A} (P : string * A → Prop) props k v :
  Forall P props → (∀ k', P (k', v)) → Forall P (set_prop props k v).
Proof.
  intros HF Hv. induction HF as [|[k0 x] props Hx HF IH]; cbn [set_prop].
  - repeat constructor. apply Hv.
  - destruct (String.eqb k0 k); constructor; try assumption. apply Hv.
Qed.

Lemma store_ahead a n k v c :
  cell_ahead a n c → points_ahead a n v → cell_ahead a n (store k v c).
Proof.
  intros Hc Hv. destruct c as [props|elems props]; cbn [store cell_ahead] in *.
  - now apply set_prop_Forall.
  - destruct Hc as [He Hp]. destruct (array_index k) as [i|]; cbn [cell_ahead].
    + split; [|exact Hp]. unfold set_elem. destruct (decide (i < length elems)).
      * now apply Forall_insert.
      * apply Forall_app. split; [exact He|]. apply Forall_app. split.
        -- now apply Forall_replicate.
        -- now repeat constructor.
    + split; [exact He|]. now apply set_prop_Forall.
Qed.

Lemma alter_store_ahead (h : list cell) a k v n :
  (∀ b c, h !! b = Some c → cell_ahead b (length h) c) →
  points_ahead a n v → length h ≤ n →
  ∀ b c, alter (store k v) a h !! b = Some c → cell_ahead b n c.
Proof.
  intros Hh Hv Hn b c. rewrite list_lookup_alter. destruct (decide (a = b)) as [->|Hab].
  - destruct (h !! b) as [c0|] eqn:Hb; [|discriminate]. intros [= <-].
    apply store_ahead; [|exact Hv]. apply (cell_ahead_mono b (length h)); auto.
  - intros Hb. apply (cell_ahead_mono b (length h)); auto.
Qed.

Lemma forest_assign st k v a :
  forest st → current st = Some a → points_ahead a (length (heap st)) v →
  ∀ p, Forall (fun nd => ∀ a, parentObject nd = Some a → a < length (heap st)) p →
  forest {| path := p; heap := alter (store k v) a (heap st);
            current := current st; rootNode := rootNode st |}.
Proof.
  intros (Hh & Hc & Hp) Hcur Hv p Hpath. unfold forest. cbn [heap current path].
  rewrite length_alter. split; [|split; [exact Hc | exact Hpath]].
  now apply alter_store_ahead.
Qed.

Lemma forest_descend st k a dt nm attrs empty p :
  forest st → current st = Some a → cell_ahead (length (heap st)) (S (length (heap st))) empty →
  p = {| name := nm; attributes := attrs; isSelfClosing := false; dataType := dt;
         parentObject := current st |} :: path st →
  forest {| path := p;
            heap := alter (store k (HRef (length (heap st)))) a (heap st) ++ [empty];
            current := Some (length (heap st)); rootNode := rootNode st |}.
Proof.
  intros (Hh & Hc & Hp) Hcur He ->. unfold forest. cbn [heap current path].
  rewrite length_app, length_alter. cbn [length]. rewrite Nat.add_1_r.
  pose proof (Hc a Hcur) as Ha. split; [|split].
  - intros b c Hb. apply lookup_app_Some in Hb. destruct Hb as [Hb|[Hlen Hb]].
    + revert b c Hb. apply alter_store_ahead; [exact Hh | simpl; lia | lia].
    + rewrite length_alter in Hlen, Hb.
      destruct (b - length (heap st)) as [|j] eqn:Hj; [|discriminate].
      injection Hb as <-. assert (b = length (heap st)) as -> by lia. exact He.
  - intros b [= <-]. lia.
  - constructor.
    + cbn [parentObject]. intros b Hb. specialize (Hc b Hb). lia.
    + revert Hp. apply List.Forall_impl. intros nd Hnd b Hb. specialize (Hnd b Hb). lia.
Qed.

Lemma forest_push st nd :
  forest st → parentObject nd = None →
  forest {| path := nd :: path st; heap := heap st;
            current := current st; rootNode := rootNode st |}.
Proof.
  intros (Hh & Hc & Hp) Hnd. unfold forest. cbn [heap current path].
  split; [exact Hh|]. split; [exact Hc|]. constructor; [|exact Hp].
  intros a Ha. congruence.
Qed.

Lemma handle_forest st ev st' :
  forest st → fst (handle st ev) = Return st' → forest st'.
Proof.
  intros Hst. pose proof Hst as (Hh & Hc & Hp).
  destruct ev as [n attrs b|t|n|e]; cbn [handle]; unfold lift, onerror; cbn [fst].
  - unfold onopentag, assign. destruct b; cbn [negb].
    + destruct (current st) as [a|] eqn:Hcur; [|discriminate]. intros [= <-].
      assert (Hr := forest_assign st (property_key (attributes_name attrs)) (HPrim VNull)
                      a Hst Hcur I
                      ({| name := n; attributes := attrs; isSelfClosing := true;
                          dataType := null; parentObject := None |} :: path st)).
      rewrite Hcur in Hr. apply Hr. constructor; [|exact Hp]. intros a0 Ha0. discriminate.
    + destruct (String.eqb n "date" || String.eqb n "number"
                || String.eqb n "string" || String.eqb n "boolean").
      * intros [= <-]. now apply forest_push.
      * destruct (current st) as [a|] eqn:Hcur;
          [|destruct (String.eqb n "array"); discriminate].
        destruct (String.eqb n "array"); intros [= <-].
        -- assert (Hr := forest_descend st (property_key (attributes_name attrs)) a
                            array n attrs (CArray [] []) _ Hst Hcur
                            (conj (List.Forall_nil _) (List.Forall_nil _)) eq_refl).
           rewrite Hcur in Hr. exact Hr.
        -- assert (Hr := forest_descend st (property_key (attributes_name attrs)) a
                            object n attrs (CObject []) _ Hst Hcur (List.Forall_nil _)
                            eq_refl).
           rewrite Hcur in Hr. exact Hr.
  - unfold ontext, assign. destruct (path st) as [|top p] eqn:Hpath; [now intros [= <-]|].
    destruct (if String.eqb (name top) "date" then Some (VDate (Date_parse t))
              else if String.eqb (name top) "number" then Some (VNumber (parseFloat t))
              else if String.eqb (name top) "string" then Some (VString t)
              else if String.eqb (name top) "boolean"
                   then Some (VBool (String.eqb t "true"))
                   else None) as [v|]; [|intros [= <-]; exact Hst].
    destruct (current st) as [a|] eqn:Hcur; [|discriminate]. intros [= <-].
    assert (Hr := forest_assign st (property_key (attributes_name (attributes top)))
                    (HPrim v) a Hst Hcur I (top :: p)).
    rewrite Hcur in Hr. apply Hr. exact Hp.
  - unfold onclosetag. destruct (path st) as [|top p] eqn:Hpath; [discriminate|].
    intros [= <-]. unfold forest. cbn [heap current path].
    apply Forall_cons in Hp. destruct Hp as [Htop Hp].
    split; [exact Hh|]. split; [|exact Hp].
    destruct (dataType top); auto.
  - now intros [= <-].
Qed.

Lemma feed_forest evs st st' :
  forest st → fst (feed evs st) = Return st' → forest st'.
Proof.
  revert st. induction evs as [|ev evs IH]; intros st Hst; [now intros [= <-]|].
  cbn [feed]. intros Hret. apply bind_Return in Hret.
  destruct Hret as (st1 & H1 & Hret). apply (IH st1); [|exact Hret].
  now apply (handle_forest st ev).
Qed.

Lemma reify_prim fuel h p : reify fuel h (HPrim p) = Some p.
Proof. now destruct fuel. Qed.

Lemma reify_forest (h : list cell) :
  (∀ a c, h !! a = Some c → cell_ahead a (length h) c) →
  ∀ fuel a, a < length h → length h ≤ a + fuel → is_Some (reify fuel h (HRef a)).
Proof.
  intros Hh. induction fuel as [|fuel IH]; intros a Ha Hf; [lia|].
  destruct (lookup_lt_is_Some_2 h a Ha) as [c Hc]. pose proof (Hh a c Hc) as Hcell.
  assert (Hval : ∀ v, points_ahead a (length h) v → is_Some (reify fuel h v)).
  { intros [p|b] Hv; [rewrite reify_prim; eauto|]. simpl in Hv. apply IH; lia. }
  cbn [reify]. rewrite Hc. destruct c as [props|elems props]; cbn [cell_ahead] in Hcell.
  - apply fmap_is_Some, mapM_is_Some_2. revert Hcell. apply List.Forall_impl.
    intros kx Hkx. cbn. apply fmap_is_Some. now apply Hval.
  - destruct Hcell as [He _]. apply fmap_is_Some, mapM_is_Some_2. revert He.
    apply List.Forall_impl. intros v Hv. cbn. now apply Hval.
Qed.

Lemma get_prop_In {A} (props : list (string * A)) k v :
  get_prop props k = Some v → ∃ k', In (k', v) props.
Proof.
  induction props as [|[k0 x] props IH]; cbn [get_prop]; [discriminate|].
  destruct (String.eqb k0 k).
  - intros [= <-]. exists k0. now left.
  - intros Hg. destruct (IH Hg) as [k' Hin]. exists k'. now right.
Qed.

Lemma read_root_forest st : forest st → read_root st ≠ OutOfFuel.
Proof.
  intros (Hh & _ & _). unfold read_root.
  destruct (heap st !! obj) as [[props|elems props]|] eqn:H0; try discriminate.
  destruct (get_prop props _) as [v|] eqn:Hg; [|discriminate].
  apply get_prop_In in Hg. destruct Hg as [k' Hin].
  pose proof (Hh obj _ H0) as Hcell. cbn [cell_ahead] in Hcell.
  rewrite Forall_forall in Hcell. apply list_elem_of_In in Hin.
  specialize (Hcell _ Hin). cbn [snd] in Hcell.
  assert (Hs : is_Some (reify (length (heap st)) (heap st) v)).
  { destruct v as [p|b]; [rewrite reify_prim; eauto|]. simpl in Hcell.
    apply reify_forest; [exact Hh | lia | lia]. }
  destruct Hs as [t ->]. discriminate.
Qed.

Lemma forest_initial : forest initial.
Proof.
  unfold forest, initial. cbn [heap current path length]. split; [|split].
  - intros [|a] c; [intros [= <-]; constructor | discriminate].
  - intros a [= <-]. unfold obj. lia.
  - constructor.
Qed.

(** X13. Whatever events the parser delivers, the containers that the
    handlers of [Parse] build form a forest: [current] and the
    [parentObject] of every open node are containers of the store, and a
    container holds only containers made after it, so that no container
    holds itself, directly or not. The value under [rootNode] is
    therefore a finite tree: reading it out needs no more steps than
    there are containers, and [Parse] without a reviver either returns or
    raises. *)
Theorem parse_builds_a_forest (fuel : nat) (xml : sax_run) :
  (∀ st, fst (feed (events xml) initial) = Return st →
     forest st ∧ read_root st ≠ OutOfFuel)
  ∧ fst (Parse fuel xml None) ≠ OutOfFuel.
Proof.
  assert (Hst : ∀ st, fst (feed (events xml) initial) = Return st →
                      forest st ∧ read_root st ≠ OutOfFuel).
  { intros st Hfeed. pose proof (feed_forest _ _ _ forest_initial Hfeed) as Hf.
    split; [exact Hf | now apply read_root_forest]. }
  split; [exact Hst|]. rewrite Parse_outcome.
  destruct (fst (feed (events xml) initial)) as [st| |] eqn:Hfeed; try discriminate.
  - destruct (failure xml); [discriminate|].
    destruct (Hst st eq_refl) as [_ Hr]. destruct (read_root st); congruence.
  - revert Hfeed. clear. generalize initial.
    induction (events xml) as [|ev evs IH]; intros st; [discriminate|].
    cbn [feed]. rewrite fst_bind.
    destruct (fst (handle st ev)) as [st1| |] eqn:Hh; [apply IH | discriminate |].
    exfalso. revert Hh. clear.
    destruct ev as [n attrs b|t|n|e]; cbn [handle]; unfold lift, onerror; cbn [fst];
      try discriminate.
    + unfold onopentag, assign.
      destruct (negb b);
        [destruct (String.eqb n "date" || String.eqb n "number"
                   || String.eqb n "string" || String.eqb n "boolean");
         [|destruct (String.eqb n "array")]|];
        destruct (current st); discriminate.
    + unfold ontext, assign. destruct (path st) as [|top p]; [discriminate|].
      destruct (String.eqb (name top) "date");
        [|destruct (String.eqb (name top) "number");
          [|destruct (String.eqb (name top) "string");
            [|destruct (String.eqb (name top) "boolean")]]];
        try discriminate; destruct (current st); discriminate.
    + unfold onclosetag. destruct (path st); discriminate.
Qed.

End Further.

(** ** The further properties on the sample runtime *)

(** X1 on a sample: a line break, an unfinished tag and the error
    reported at the end of the input. *)
Lemma parse_without_element_witness :
  Parse 1 sample_blank (Some drop_all)
  = (Return VUndefined, [Console (SaxError "Unexpected end")]).
Proof. apply (parse_without_element 0 sample_blank (Some drop_all)); reflexivity. Defined.

(** X2 on a sample: the array [[null]] comes back as [[{}]]. *)
Lemma identity_reviver_empties_null_witness :
  fst (Parse 2 sample_null_array None) = Return (VArray [VNull])
  ∧ fst (Parse 2 sample_null_array (Some keep_all)) = Return (VArray [VObject []]).
Proof.
  split; [reflexivity|].
  apply (identity_reviver_empties_null 2 sample_null_array (VArray [VNull]) eq_refl
           (le_n 2)).
Defined.

(** X4 on a sample: a replacer that raises at the first entry. *)
Lemma replacer_exception_propagates_witness :
  fst (Stringify 2 sample_booleans (ReplacerFunction (raising (UserError "stop")))
         SpaceUndefined)
  = Throw (UserError "stop").
Proof.
  apply (replacer_exception_propagates 2 sample_booleans (raising (UserError "stop"))
           SpaceUndefined (KIdx 0) sample_true (UserError "stop") eq_refl).
  left. reflexivity.
Defined.

(** X5 on a sample: an invalid date. *)
Lemma stringify_raises_on_invalid_date_witness :
  fst (Stringify 1 sample_invalid_date ReplacerUndefined SpaceUndefined)
  = Throw (RangeError "Invalid time value").
Proof.
  apply (stringify_raises_on_invalid_date 1 sample_invalid_date ReplacerUndefined
           SpaceUndefined None sample_invalid_date eq_refl eq_refl); reflexivity.
Defined.

(** X7 on a sample: the document
    [<array><number name="2">5</number></array>]. *)
Lemma array_element_placed_by_name_witness :
  Parse 0 {| events := [OpenTag "array" [] false; OpenTag "number" [("name", "2")] false;
                        Text "5"; CloseTag "number"; CloseTag "array"];
             failure := None |} None
  = (Return (VArray [VUndefined; VUndefined; VNumber (Whole 5)]), []).
Proof.
  exact (array_element_placed_by_name 0 "number" "5" [] [("name", "2")] eq_refl eq_refl
           eq_refl).
Defined.

(** X8 on a sample: the document [<boolean>yes</boolean>]. *)
Lemma scalar_element_value_witness :
  Parse 1 {| events := [OpenTag "boolean" [] false; Text "yes"; CloseTag "boolean"];
             failure := None |} None
  = (Return (VBool false), []).
Proof.
  apply (scalar_element_value 0 "boolean" [] ["yes"] None eq_refl eq_refl).
  discriminate.
Defined.

(** X9 on a sample: four blanks. *)
Lemma indentation_is_ignored_witness :
  fst (Parse_Stringify 3 sample_value ReplacerUndefined (SpaceNumber 4) None)
  = fst (Parse_Stringify 3 sample_value ReplacerUndefined SpaceUndefined None).
Proof.
  apply (indentation_is_ignored 3 sample_value 4 None).
  - intros x. apply sample_toString_parse.
  - intros d iso Hiso. now apply (proj2 sample_conversions_close d iso).
  - reflexivity.
  - vm_compute. lia.
  - lia.
Defined.

(** X11 on a sample: the document of [[1, 2, 3]]. *)
Lemma document_is_well_nested_witness :
  nesting 0 (document_calls sample_array) = Some 0.
Proof.
  destruct (document_is_well_nested 2 sample_array ReplacerUndefined SpaceUndefined
              {| indent := None; calls := document_calls sample_array |} eq_refl)
    as (tag & body & _ & _ & Hn & _).
  exact Hn.
Defined.

(** X12 on a sample: the identity reviver on [[[1, 2], 3, 4]] is asked
    about the inner array, then about its two elements, then about 3 and
    4. *)
Lemma callback_called_top_down_witness :
  snd (revive 3 keep_all sample_nested)
  = [Invoke (KIdx 0) (VArray [sample_one; sample_two]);
     Invoke (KIdx 0) sample_one; Invoke (KIdx 1) sample_two;
     Invoke (KIdx 1) sample_three; Invoke (KIdx 2) (VNumber (Whole 4))].
Proof.
  apply (callback_called_top_down 3 keep_all sample_nested).
  - intros k x. left. reflexivity.
  - vm_compute. lia.
Defined.
